(** * Trajectory simulator: derivation engine, metrics engine and
      synchronization controller

    A shallow embedding of [src/utils/trajectory.ts], [src/state/traj.ts],
    [src/type/trajectory.ts] and the import helpers of [logic/initialize],
    followed by the properties of the specification stated over it.

    Numbers.  A JavaScript [number] is modelled as an exact real or [NaN]:
    rounding, overflow, the two infinities and the negative zero are
    outside the model.  Two statements depend on what is left out, and are
    made accordingly: headings are bounded by the closed interval
    [[-PI, PI]] (see [Js.atan2R]), and the question whether the
    normalization loops exit is settled on binary64 values (see [F64]).  The
    value [undefined] obtained by reading an array out of range is only ever
    consumed by arithmetic (where it converts to [NaN]) or by [|| 0] (where
    it is falsy exactly like [NaN]), so array reads return [NaN] there.

    Scope.  The canvas rendering and the hooks of the components are not
    part of this development. *)

From Stdlib Require Import Reals Lra Lia List ZArith Bool.
From Stdlib Require PrimFloat.
Import ListNotations.

Local Open Scope R_scope.

(* ------------------------------------------------------------------ *)
(** ** Numbers *)

Inductive num : Type :=
| Fin (r : R)
| NaN.

Module Js.

Definition add (a b : num) : num :=
  match a, b with Fin x, Fin y => Fin (x + y) | _, _ => NaN end.

Definition sub (a b : num) : num :=
  match a, b with Fin x, Fin y => Fin (x - y) | _, _ => NaN end.

Definition mul (a b : num) : num :=
  match a, b with Fin x, Fin y => Fin (x * y) | _, _ => NaN end.

(** Every divisor in the program is [CONFIG.dt] or a speed above [0.1];
    division by zero does not occur. *)
Definition div (a b : num) : num :=
  match a, b with Fin x, Fin y => Fin (x / y) | _, _ => NaN end.

(** [Math.sqrt]; its argument is always a sum of two squares. *)
Definition sqrt (a : num) : num :=
  match a with Fin x => Fin (R_sqrt.sqrt x) | NaN => NaN end.

(** [Math.tan]; at the poles the value is the one of the library's total
    [tan]. *)
Definition tan (a : num) : num :=
  match a with Fin x => Fin (Rtrigo1.tan x) | NaN => NaN end.

(** [a > b] and [a < b]: any comparison with [NaN] is false. *)
Definition gt (a b : num) : bool :=
  match a, b with
  | Fin x, Fin y => if Rlt_dec y x then true else false
  | _, _ => false
  end.

Definition lt (a b : num) : bool := gt b a.

(** Truthiness of a number: [0] and [NaN] are falsy. *)
Definition truthy (a : num) : bool :=
  match a with
  | Fin x => if Req_dec_T x 0 then false else true
  | NaN => false
  end.

(** [a || b] *)
Definition or (a b : num) : num := if truthy a then a else b.

(** [Math.atan2(y, x)] on reals, with the value [0] at the origin.  The
    reals have one zero: for [y = -0] and [x < 0] the source returns
    [-Math.PI], where this definition gives [PI].  The value is in
    [[-PI, PI]] in both. *)
Definition atan2R (y x : R) : R :=
  if Rlt_dec 0 x then atan (y / x)
  else if Rlt_dec x 0 then
    if Rlt_dec y 0 then atan (y / x) - PI else atan (y / x) + PI
  else
    if Rlt_dec 0 y then PI / 2
    else if Rlt_dec y 0 then - (PI / 2)
    else 0.

Definition atan2 (y x : num) : num :=
  match y, x with Fin b, Fin a => Fin (atan2R b a) | _, _ => NaN end.

End Js.

Declare Scope num_scope.
Delimit Scope num_scope with J.
Bind Scope num_scope with num.
Infix "+" := Js.add : num_scope.
Infix "-" := Js.sub : num_scope.
Infix "*" := Js.mul : num_scope.
Infix "/" := Js.div : num_scope.

(* ------------------------------------------------------------------ *)
(** ** Arrays of numbers *)

(** [a[i]]: [undefined] (here [NaN]) outside [0 .. length-1]. *)
Definition aget (a : list num) (i : Z) : num :=
  if (i <? 0)%Z then NaN else nth (Z.to_nat i) a NaN.

(** [a[i] = v]: replaces in range, and extends the array (leaving holes,
    which read as [undefined]) beyond its end. *)
Fixpoint aset (a : list num) (i : nat) (v : num) : list num :=
  match a, i with
  | [], O => [v]
  | [], S i' => NaN :: aset [] i' v
  | _ :: t, O => v :: t
  | h :: t, S i' => h :: aset t i' v
  end.

(** [new Array(length).fill(0)] *)
Definition new_Array_fill0 (length : nat) : list num := repeat (Fin 0) length.

Notation "a .[ i ]" := (aget a i%Z)
  (at level 1, left associativity, format "a .[ i ]").

(** [for (let i = 0; i < n; i++) body] over a state of local variables. *)
Definition for_loop {S : Type} (n : nat) (body : nat -> S -> S) (s0 : S) : S :=
  fold_left (fun s i => body i s) (seq 0 n) s0.

(* ------------------------------------------------------------------ *)
(** ** [src/type/trajectory.ts] *)

Module CONFIG.
Definition timeSteps : nat := 33.
Definition dt : R := 1 / 10.
End CONFIG.

Record InputData : Type := mkInputData {
  px : list num;
  py : list num;
  oz : list num;
  vx : list num;
  vy : list num;
  wz : list num
}.

Record OutputData : Type := mkOutputData {
  ax : list num;
  ay : list num;
  cz : list num;
  l1 : list num
}.

Inductive Methods : Type := position | velocity | integral | differential.

Inductive InputKey : Type := Kpx | Kpy | Koz | Kvx | Kvy | Kwz.
Inductive OutputKey : Type := Kax | Kay | Kcz | Kl1.

(** [METHODS[mode].inputs] *)
Definition METHODS_inputs (mode : Methods) : list InputKey :=
  match mode with
  | position => [Kpx; Kpy]
  | velocity => [Kvx; Kvy]
  | integral => [Kvx; Kwz]
  | differential => [Kpx; Koz]
  end.

(* ------------------------------------------------------------------ *)
(** ** Angle normalization

    The three occurrences of
    [while (t > Math.PI) t -= 2 * Math.PI; while (t < -Math.PI) t += 2 * Math.PI;]
    On [NaN] both tests are false.  The loops are run with a bound on the
    number of iterations computed from the value itself; [while_gt_PI_exit]
    and [while_lt_mPI_exit] show that each loop has reached its exit test
    within that bound.  That is a fact of exact reals: what is stated with
    [normalize] holds of the source when its loops exit, and [F64] has the
    loops on binary64 values, where they need not. *)

Fixpoint while_gt_PI (fuel : nat) (t : R) : R :=
  match fuel with
  | O => t
  | S fuel' => if Rlt_dec PI t then while_gt_PI fuel' (t - 2 * PI) else t
  end.

Fixpoint while_lt_mPI (fuel : nat) (t : R) : R :=
  match fuel with
  | O => t
  | S fuel' => if Rlt_dec t (- PI) then while_lt_mPI fuel' (t + 2 * PI) else t
  end.

Definition turns (t : R) : nat := Z.to_nat (up (Rabs t / (2 * PI))).

Definition normalizeR (t : R) : R :=
  let t1 := while_gt_PI (turns t) t in
  while_lt_mPI (turns t1) t1.

Definition normalize (t : num) : num :=
  match t with Fin r => Fin (normalizeR r) | NaN => NaN end.

(* ------------------------------------------------------------------ *)
(** ** [src/utils/trajectory.ts]: the derivation engine *)

Local Open Scope num_scope.

Abbreviation dt := (Fin CONFIG.dt).

(** *** calculateFromPxPy *)

Record LocalsPxPy : Type := mkLocalsPxPy {
  pp_vx : list num;
  pp_vy : list num;
  pp_oz : list num;
  pp_wz : list num
}.

Definition calculateFromPxPy_body (data : InputData) (length : nat)
    (i : nat) (s : LocalsPxPy) : LocalsPxPy :=
  let iz := Z.of_nat i in
  let vx := if (iz <? Z.of_nat length - 1)%Z
            then aset (pp_vx s) i (((px data).[iz + 1] - (px data).[iz]) / dt)
            else aset (pp_vx s) i (((px data).[iz] - (px data).[iz - 1]) / dt) in
  let vy := if (iz <? Z.of_nat length - 1)%Z
            then aset (pp_vy s) i (((py data).[iz + 1] - (py data).[iz]) / dt)
            else aset (pp_vy s) i (((py data).[iz] - (py data).[iz - 1]) / dt) in
  let speed := Js.sqrt (vx.[iz] * vx.[iz] + vy.[iz] * vy.[iz]) in
  let oz := if Js.gt speed (Fin (1 / 100))
            then aset (pp_oz s) i (Js.atan2 vy.[iz] vx.[iz])
            else if (0 <? iz)%Z
                 then aset (pp_oz s) i (pp_oz s).[iz - 1]
                 else pp_oz s in
  let wz := if (0 <? iz)%Z
            then
              let dtheta := oz.[iz] - oz.[iz - 1] in
              let dtheta := normalize dtheta in
              aset (pp_wz s) i (dtheta / dt)
            else pp_wz s in
  mkLocalsPxPy vx vy oz wz.

Definition calculateFromPxPy (data : InputData) : InputData :=
  let length := List.length (px data) in
  let s0 := mkLocalsPxPy (new_Array_fill0 length) (new_Array_fill0 length)
                         (new_Array_fill0 length) (new_Array_fill0 length) in
  let s := for_loop length (calculateFromPxPy_body data length) s0 in
  mkInputData (px data) (py data) (pp_oz s) (pp_vx s) (pp_vy s) (pp_wz s).

(** *** calculateFromVxVy *)

Record LocalsVxVy : Type := mkLocalsVxVy {
  vv_px : list num;
  vv_py : list num;
  vv_oz : list num;
  vv_wz : list num;
  vv_x : num;
  vv_y : num
}.

Definition calculateFromVxVy_body (data : InputData)
    (i : nat) (s : LocalsVxVy) : LocalsVxVy :=
  let iz := Z.of_nat i in
  let px := aset (vv_px s) i (vv_x s) in
  let py := aset (vv_py s) i (vv_y s) in
  let speed := Js.sqrt ((vx data).[iz] * (vx data).[iz]
                        + (vy data).[iz] * (vy data).[iz]) in
  let oz := if Js.gt speed (Fin (1 / 100))
            then aset (vv_oz s) i (Js.atan2 (vy data).[iz] (vx data).[iz])
            else if (0 <? iz)%Z
                 then aset (vv_oz s) i (vv_oz s).[iz - 1]
                 else vv_oz s in
  let wz := if (0 <? iz)%Z
            then
              let dtheta := oz.[iz] - oz.[iz - 1] in
              let dtheta := normalize dtheta in
              aset (vv_wz s) i (dtheta / dt)
            else vv_wz s in
  let x := vv_x s + (vx data).[iz] * dt in
  let y := vv_y s + (vy data).[iz] * dt in
  mkLocalsVxVy px py oz wz x y.

Definition calculateFromVxVy (data : InputData) : InputData :=
  let length := List.length (vx data) in
  let x := Js.or (px data).[0] (Fin 0) in
  let y := Js.or (py data).[0] (Fin 0) in
  let s0 := mkLocalsVxVy (new_Array_fill0 length) (new_Array_fill0 length)
                         (new_Array_fill0 length) (new_Array_fill0 length)
                         x y in
  let s := for_loop length (calculateFromVxVy_body data) s0 in
  mkInputData (vv_px s) (vv_py s) (vv_oz s) (vx data) (vy data) (vv_wz s).

(** *** calculateFromVxWz *)

Record LocalsVxWz : Type := mkLocalsVxWz {
  vw_px : list num;
  vw_py : list num;
  vw_oz : list num;
  vw_vy : list num;
  vw_x : num;
  vw_y : num;
  vw_theta : num
}.

Definition calculateFromVxWz_body (data : InputData)
    (i : nat) (s : LocalsVxWz) : LocalsVxWz :=
  let iz := Z.of_nat i in
  let px := aset (vw_px s) i (vw_x s) in
  let py := aset (vw_py s) i (vw_y s) in
  let oz := aset (vw_oz s) i (vw_theta s) in
  let vy := aset (vw_vy s) i ((vx data).[iz] * Js.tan (vw_theta s)) in
  let x := vw_x s + (vx data).[iz] * dt in
  let y := vw_y s + vy.[iz] * dt in
  let theta := vw_theta s + (wz data).[iz] * dt in
  let theta := normalize theta in
  mkLocalsVxWz px py oz vy x y theta.

Definition calculateFromVxWz (data : InputData) : InputData :=
  let length := List.length (vx data) in
  let x := Js.or (px data).[0] (Fin 0) in
  let y := Js.or (py data).[0] (Fin 0) in
  let theta := Js.or (oz data).[0] (Fin 0) in
  let s0 := mkLocalsVxWz (new_Array_fill0 length) (new_Array_fill0 length)
                         (new_Array_fill0 length) (new_Array_fill0 length)
                         x y theta in
  let s := for_loop length (calculateFromVxWz_body data) s0 in
  mkInputData (vw_px s) (vw_py s) (vw_oz s) (vx data) (vw_vy s) (wz data).

(** *** calculateFromPxOz *)

Record LocalsPxOz : Type := mkLocalsPxOz {
  po_py : list num;
  po_vx : list num;
  po_vy : list num;
  po_wz : list num;
  po_y : num
}.

Definition calculateFromPxOz_body (data : InputData) (length : nat)
    (i : nat) (s : LocalsPxOz) : LocalsPxOz :=
  let iz := Z.of_nat i in
  let vx := if (iz <? Z.of_nat length - 1)%Z
            then aset (po_vx s) i (((px data).[iz + 1] - (px data).[iz]) / dt)
            else aset (po_vx s) i (((px data).[iz] - (px data).[iz - 1]) / dt) in
  let vy := aset (po_vy s) i (vx.[iz] * Js.tan (oz data).[iz]) in
  let wz := if (0 <? iz)%Z
            then
              let dtheta := (oz data).[iz] - (oz data).[iz - 1] in
              let dtheta := normalize dtheta in
              aset (po_wz s) i (dtheta / dt)
            else po_wz s in
  let py := aset (po_py s) i (po_y s) in
  let y := po_y s + vy.[iz] * dt in
  mkLocalsPxOz py vx vy wz y.

Definition calculateFromPxOz (data : InputData) : InputData :=
  let length := List.length (px data) in
  let y := Js.or (py data).[0] (Fin 0) in
  let s0 := mkLocalsPxOz (new_Array_fill0 length) (new_Array_fill0 length)
                         (new_Array_fill0 length) (new_Array_fill0 length) y in
  let s := for_loop length (calculateFromPxOz_body data length) s0 in
  mkInputData (px data) (po_py s) (oz data) (po_vx s) (po_vy s) (po_wz s).

(** *** getCompleteTrajectoryData

    [Methods] has exactly the four modes, so the [default] case of the
    [switch] is not reachable. *)

Definition getCompleteTrajectoryData (data : InputData) (mode : Methods)
    : InputData :=
  match mode with
  | position => calculateFromPxPy data
  | velocity => calculateFromVxVy data
  | integral => calculateFromVxWz data
  | differential => calculateFromPxOz data
  end.

(** *** calculateOutputData

    The fields of [InputData] are required arrays, so the guard
    [!data.px || ...] (an array is always truthy) is never taken and
    [gtData?.px && gtData?.py] holds exactly when [gtData] is supplied. *)

Record LocalsOut : Type := mkLocalsOut {
  o_ax : list num;
  o_ay : list num;
  o_cz : list num;
  o_l1 : list num
}.

Definition calculateOutputData_body (data : InputData)
    (gtData : option InputData) (i : nat) (s : LocalsOut) : LocalsOut :=
  let iz := Z.of_nat i in
  let ax := if (0 <? iz)%Z
            then aset (o_ax s) i (((vx data).[iz] - (vx data).[iz - 1]) / dt)
            else o_ax s in
  let ay := if (0 <? iz)%Z
            then aset (o_ay s) i (((vy data).[iz] - (vy data).[iz - 1]) / dt)
            else o_ay s in
  let v := Js.sqrt ((vx data).[iz] * (vx data).[iz]
                    + (vy data).[iz] * (vy data).[iz]) in
  let cz := if Js.gt v (Fin (1 / 10))
            then aset (o_cz s) i ((wz data).[iz] / v)
            else aset (o_cz s) i (Fin 0) in
  let l1 := match gtData with
            | Some gt =>
                if (iz <? Z.of_nat (List.length (px gt)))%Z
                then
                  let dx := (px data).[iz] - (px gt).[iz] in
                  let dy := (py data).[iz] - (py gt).[iz] in
                  aset (o_l1 s) i (Js.sqrt (dx * dx + dy * dy))
                else o_l1 s
            | None => o_l1 s
            end in
  mkLocalsOut ax ay cz l1.

Definition calculateOutputData (data : InputData) (gtData : option InputData)
    : OutputData :=
  let length := List.length (px data) in
  let s0 := mkLocalsOut (new_Array_fill0 length) (new_Array_fill0 length)
                        (new_Array_fill0 length) (new_Array_fill0 length) in
  let s := for_loop length (calculateOutputData_body data gtData) s0 in
  mkOutputData (o_ax s) (o_ay s) (o_cz s) (o_l1 s).

Local Close Scope num_scope.

(* ------------------------------------------------------------------ *)
(** ** [src/state/traj.ts]: the synchronization controller

    The primitive atoms are the cells of a [Store].  A write atom is an
    [Action]: it reads and sets cells in sequence and records what it did,
    so that properties about which operations run can be stated. *)

Record Store : Type := mkStore {
  inputDataAtomFamily : InputKey -> list num;
  outputDataAtomFamily : OutputKey -> list num;
  gtAtomFamily : InputKey -> list num;
  methodAtom : Methods
}.

Inductive event : Type :=
| Ev_set_input (key : InputKey)
| Ev_set_output (key : OutputKey)
| Ev_set_gt (key : InputKey)
| Ev_sync.

Definition Action (A : Type) : Type := Store -> A * Store * list event.

Definition ret {A : Type} (a : A) : Action A := fun st => (a, st, []).

Definition bind {A B : Type} (m : Action A) (f : A -> Action B) : Action B :=
  fun st =>
    let '(a, st1, t1) := m st in
    let '(b, st2, t2) := f a st1 in
    (b, st2, t1 ++ t2).

Notation "x <- m ;; k" := (bind m (fun x => k))
  (at level 61, m at next level, right associativity).
Notation "m ;; k" := (bind m (fun _ => k))
  (at level 61, right associativity).

(** [get(atom)] for a primitive or derived atom. *)
Definition get {A : Type} (atom : Store -> A) : Action A :=
  fun st => (atom st, st, []).

Definition enter_sync : Action unit := fun st => (tt, st, [Ev_sync]).

Definition InputKey_eqb (a b : InputKey) : bool :=
  match a, b with
  | Kpx, Kpx | Kpy, Kpy | Koz, Koz | Kvx, Kvx | Kvy, Kvy | Kwz, Kwz => true
  | _, _ => false
  end.

Definition OutputKey_eqb (a b : OutputKey) : bool :=
  match a, b with
  | Kax, Kax | Kay, Kay | Kcz, Kcz | Kl1, Kl1 => true
  | _, _ => false
  end.

(** [set(inputDataAtomFamily(key), v)] and its siblings. *)
Definition set_input (key : InputKey) (v : list num) : Action unit :=
  fun st =>
    (tt,
     mkStore (fun k => if InputKey_eqb k key then v
                       else inputDataAtomFamily st k)
             (outputDataAtomFamily st) (gtAtomFamily st) (methodAtom st),
     [Ev_set_input key]).

Definition set_output (key : OutputKey) (v : list num) : Action unit :=
  fun st =>
    (tt,
     mkStore (inputDataAtomFamily st)
             (fun k => if OutputKey_eqb k key then v
                       else outputDataAtomFamily st k)
             (gtAtomFamily st) (methodAtom st),
     [Ev_set_output key]).

Definition set_gt (key : InputKey) (v : list num) : Action unit :=
  fun st =>
    (tt,
     mkStore (inputDataAtomFamily st) (outputDataAtomFamily st)
             (fun k => if InputKey_eqb k key then v else gtAtomFamily st k)
             (methodAtom st),
     [Ev_set_gt key]).

(** [for (const key of keys) body(key)] *)
Fixpoint for_each {K : Type} (keys : list K) (body : K -> Action unit)
    : Action unit :=
  match keys with
  | [] => ret tt
  | key :: rest => body key ;; for_each rest body
  end.

(** [data[key]] *)
Definition field (data : InputData) (key : InputKey) : list num :=
  match key with
  | Kpx => px data | Kpy => py data | Koz => oz data
  | Kvx => vx data | Kvy => vy data | Kwz => wz data
  end.

Definition inputKeys : list InputKey := [Kpx; Kpy; Koz; Kvx; Kvy; Kwz].

Definition inputDataAtom (st : Store) : InputData :=
  mkInputData (inputDataAtomFamily st Kpx) (inputDataAtomFamily st Kpy)
              (inputDataAtomFamily st Koz) (inputDataAtomFamily st Kvx)
              (inputDataAtomFamily st Kvy) (inputDataAtomFamily st Kwz).

Definition completeTrajectoryDataAtom (st : Store) : InputData :=
  getCompleteTrajectoryData (inputDataAtom st) (methodAtom st).

Definition gtDataAtom (st : Store) : InputData :=
  mkInputData (gtAtomFamily st Kpx) (gtAtomFamily st Kpy)
              (gtAtomFamily st Koz) (gtAtomFamily st Kvx)
              (gtAtomFamily st Kvy) (gtAtomFamily st Kwz).

Definition hasGroundTruthAtom (st : Store) : bool :=
  (0 <? length (px (gtDataAtom st)))%nat.

Definition outputDataInternalAtom (st : Store) : OutputData :=
  calculateOutputData (completeTrajectoryDataAtom st)
    (if hasGroundTruthAtom st then Some (gtDataAtom st) else None).

(** [activeInputs.has(key)] *)
Definition has (activeInputs : list InputKey) (key : InputKey) : bool :=
  existsb (InputKey_eqb key) activeInputs.

Definition syncOutputDataAtom : Action unit :=
  enter_sync ;;
  completeData <- get completeTrajectoryDataAtom ;;
  outputData <- get outputDataInternalAtom ;;
  mode <- get methodAtom ;;
  let activeInputs := METHODS_inputs mode in
  set_output Kax (ax outputData) ;;
  set_output Kay (ay outputData) ;;
  set_output Kcz (cz outputData) ;;
  set_output Kl1 (l1 outputData) ;;
  for_each inputKeys (fun key =>
    if negb (has activeInputs key)
    then set_input key (field completeData key)
    else ret tt).

(** [DataKey = keyof InputData | keyof OutputData] *)
Inductive DataKey : Type :=
| DIn (key : InputKey)
| DOut (key : OutputKey).

Definition DataKey_eqb (a b : DataKey) : bool :=
  match a, b with
  | DIn x, DIn y => InputKey_eqb x y
  | DOut x, DOut y => OutputKey_eqb x y
  | _, _ => false
  end.

Record Update : Type := mkUpdate { index : nat; value : num }.

(** [for (const update of updates) newData[update.index] = update.value] *)
Definition apply_updates (currentData : list num) (updates : list Update)
    : list num :=
  fold_left (fun newData update => aset newData (index update) (value update))
            updates currentData.

(** The casts [key as keyof OutputData] and [key as keyof InputData] are
    only applied on the branch where the key is of that kind; the other
    case of each [match] is never reached (see [isOutputKey_DOut]). *)
Definition batchUpdateTimeSeriesAtom (key : DataKey) (updates : list Update)
    : Action unit :=
  let isOutputKey :=
    existsb (DataKey_eqb key) [DOut Kax; DOut Kay; DOut Kcz; DOut Kl1] in
  if isOutputKey then
    match key with
    | DOut k =>
        currentData <- get (fun st => outputDataAtomFamily st k) ;;
        let newData := apply_updates currentData updates in
        set_output k newData
    | DIn _ => ret tt
    end
  else
    match key with
    | DIn k =>
        currentData <- get (fun st => inputDataAtomFamily st k) ;;
        let newData := apply_updates currentData updates in
        set_input k newData ;;
        syncOutputDataAtom
    | DOut _ => ret tt
    end.

(** [Partial<InputData>]: a field is [None] when the key is absent (or does
    not hold an array). *)
Definition PartialInputData : Type := InputKey -> option (list num).

Definition importTrajectoryAtom (data : PartialInputData) : Action unit :=
  for_each inputKeys (fun key =>
    match data key with
    | Some arr => set_input key arr
    | None => ret tt
    end) ;;
  syncOutputDataAtom.

Definition setGroundTruthAtom : Action unit :=
  inputData <- get inputDataAtom ;;
  for_each inputKeys (fun key => set_gt key (field inputData key)).

(* ------------------------------------------------------------------ *)
(** ** [logic/initialize]: import of a document *)

(** The value produced by [JSON.parse]: either not an object, or an object
    of which only the six recognized keys matter. *)
Inductive Json : Type :=
| JNotObject
| JObject (fields : PartialInputData).

Definition validateImportData (data : Json) : bool :=
  match data with
  | JNotObject => false
  | JObject fields =>
      existsb (fun key => match fields key with Some _ => true | None => false end)
              inputKeys
  end.

(** [while (padded.length < targetLength) padded.push(0)], at most [fuel]
    iterations. *)
Fixpoint push_zeros (fuel : nat) (padded : list num) (targetLength : nat)
    : list num :=
  match fuel with
  | O => padded
  | S fuel' =>
      if (length padded <? targetLength)%nat
      then push_zeros fuel' (padded ++ [Fin 0]) targetLength
      else padded
  end.

Definition padOrTruncate (arr : list num) (targetLength : nat) : list num :=
  if (length arr =? targetLength)%nat then arr
  else if (targetLength <? length arr)%nat then firstn targetLength arr
  else push_zeros targetLength arr targetLength.

Inductive ImportOutcome : Type := Rejected | Imported.

(** The body of the [onchange] handler of [useImport], from the parsed
    document on. *)
Definition importData (data : Json) : Action ImportOutcome :=
  if negb (validateImportData data) then ret Rejected
  else
    let processedData : PartialInputData :=
      fun key =>
        match data with
        | JObject fields =>
            match fields key with
            | Some arr => Some (padOrTruncate arr CONFIG.timeSteps)
            | None => None
            end
        | JNotObject => None
        end in
    importTrajectoryAtom processedData ;;
    ret Imported.

(* ------------------------------------------------------------------ *)
(** * Closed forms of the loops

    What each loop stores at index [i], as a function of the input and of
    the values stored before; the loop invariants below relate the locals
    of the loops to these. *)

(** Forward difference, backward at the last index. *)
Definition finite_diff (xs : list num) (length i : nat) : num :=
  if (Z.of_nat i <? Z.of_nat length - 1)%Z
  then ((xs.[Z.of_nat i + 1] - xs.[Z.of_nat i]) / dt)%J
  else ((xs.[Z.of_nat i] - xs.[Z.of_nat i - 1]) / dt)%J.

(** Orientation from the velocity, held at [prev] when stationary. *)
Definition heading (vxi vyi : num) (i : nat) (prev : num) : num :=
  if Js.gt (Js.sqrt (vxi * vxi + vyi * vyi)%J) (Fin (1 / 100))
  then Js.atan2 vyi vxi
  else match i with O => Fin 0 | S _ => prev end.

Definition yaw_rate (i : nat) (ozi prev : num) : num :=
  match i with O => Fin 0 | S _ => (normalize (ozi - prev) / dt)%J end.

(** Value of an accumulator [x] on entry to iteration [i], when each
    iteration performs [x += f(i) * dt]. *)
Fixpoint integ (seed : num) (f : nat -> num) (i : nat) : num :=
  match i with
  | O => seed
  | S j => (integ seed f j + f j * dt)%J
  end.

(** Value of [theta] on entry to iteration [i] of [calculateFromVxWz]. *)
Fixpoint theta_at (data : InputData) (i : nat) : num :=
  match i with
  | O => Js.or (oz data).[0] (Fin 0)
  | S j => normalize (theta_at data j + (wz data).[Z.of_nat j] * dt)%J
  end.

Definition vy_VxWz (data : InputData) (i : nat) : num :=
  ((vx data).[Z.of_nat i] * Js.tan (theta_at data i))%J.

Definition vy_PxOz (data : InputData) (i : nat) : num :=
  (finite_diff (px data) (length (px data)) i
   * Js.tan (oz data).[Z.of_nat i])%J.

Definition accel (vs : list num) (i : nat) : num :=
  match i with
  | O => Fin 0
  | S _ => ((vs.[Z.of_nat i] - vs.[Z.of_nat i - 1]) / dt)%J
  end.

Definition curvature (data : InputData) (i : nat) : num :=
  let v := Js.sqrt ((vx data).[Z.of_nat i] * (vx data).[Z.of_nat i]
                    + (vy data).[Z.of_nat i] * (vy data).[Z.of_nat i])%J in
  if Js.gt v (Fin (1 / 10)) then ((wz data).[Z.of_nat i] / v)%J else Fin 0.

Definition tracking_error (data : InputData) (gtData : option InputData)
    (i : nat) : num :=
  match gtData with
  | Some gt =>
      if (Z.of_nat i <? Z.of_nat (length (px gt)))%Z
      then
        let dx := ((px data).[Z.of_nat i] - (px gt).[Z.of_nat i])%J in
        let dy := ((py data).[Z.of_nat i] - (py gt).[Z.of_nat i])%J in
        Js.sqrt (dx * dx + dy * dy)%J
      else Fin 0
  | None => Fin 0
  end.

(** Row [j] of the locals of [calculateFromPxPy] holds its final value. *)
Definition PxPy_row (data : InputData) (N : nat) (s : LocalsPxPy) (j : nat)
    : Prop :=
  nth j (pp_vx s) NaN = finite_diff (px data) N j /\
  nth j (pp_vy s) NaN = finite_diff (py data) N j /\
  nth j (pp_oz s) NaN =
    heading (nth j (pp_vx s) NaN) (nth j (pp_vy s) NaN) j
            (nth (pred j) (pp_oz s) NaN) /\
  nth j (pp_wz s) NaN =
    yaw_rate j (nth j (pp_oz s) NaN) (nth (pred j) (pp_oz s) NaN).

Definition PxPy_inv (data : InputData) (N k : nat) (s : LocalsPxPy) : Prop :=
  (length (pp_vx s) = N /\ length (pp_vy s) = N /\
   length (pp_oz s) = N /\ length (pp_wz s) = N) /\
  (forall j, (j < k)%nat -> PxPy_row data N s j) /\
  (forall j, (k <= j < N)%nat ->
     nth j (pp_oz s) NaN = Fin 0 /\ nth j (pp_wz s) NaN = Fin 0).

Definition VxVy_row (data : InputData) (x0 y0 : num) (s : LocalsVxVy)
    (j : nat) : Prop :=
  nth j (vv_px s) NaN = integ x0 (fun i => (vx data).[Z.of_nat i]) j /\
  nth j (vv_py s) NaN = integ y0 (fun i => (vy data).[Z.of_nat i]) j /\
  nth j (vv_oz s) NaN =
    heading (vx data).[Z.of_nat j] (vy data).[Z.of_nat j] j
            (nth (pred j) (vv_oz s) NaN) /\
  nth j (vv_wz s) NaN =
    yaw_rate j (nth j (vv_oz s) NaN) (nth (pred j) (vv_oz s) NaN).

Definition VxVy_inv (data : InputData) (x0 y0 : num) (N k : nat)
    (s : LocalsVxVy) : Prop :=
  (length (vv_px s) = N /\ length (vv_py s) = N /\
   length (vv_oz s) = N /\ length (vv_wz s) = N) /\
  (vv_x s = integ x0 (fun i => (vx data).[Z.of_nat i]) k /\
   vv_y s = integ y0 (fun i => (vy data).[Z.of_nat i]) k) /\
  (forall j, (j < k)%nat -> VxVy_row data x0 y0 s j) /\
  (forall j, (k <= j < N)%nat ->
     nth j (vv_oz s) NaN = Fin 0 /\ nth j (vv_wz s) NaN = Fin 0).

Definition VxWz_row (data : InputData) (x0 y0 : num) (s : LocalsVxWz)
    (j : nat) : Prop :=
  nth j (vw_px s) NaN = integ x0 (fun i => (vx data).[Z.of_nat i]) j /\
  nth j (vw_py s) NaN = integ y0 (vy_VxWz data) j /\
  nth j (vw_oz s) NaN = theta_at data j /\
  nth j (vw_vy s) NaN = vy_VxWz data j.

Definition VxWz_inv (data : InputData) (x0 y0 : num) (N k : nat)
    (s : LocalsVxWz) : Prop :=
  (length (vw_px s) = N /\ length (vw_py s) = N /\
   length (vw_oz s) = N /\ length (vw_vy s) = N) /\
  (vw_x s = integ x0 (fun i => (vx data).[Z.of_nat i]) k /\
   vw_y s = integ y0 (vy_VxWz data) k /\
   vw_theta s = theta_at data k) /\
  (forall j, (j < k)%nat -> VxWz_row data x0 y0 s j).

Definition PxOz_row (data : InputData) (y0 : num) (s : LocalsPxOz) (j : nat)
    : Prop :=
  nth j (po_py s) NaN = integ y0 (vy_PxOz data) j /\
  nth j (po_vx s) NaN = finite_diff (px data) (length (px data)) j /\
  nth j (po_vy s) NaN = vy_PxOz data j /\
  nth j (po_wz s) NaN =
    yaw_rate j (oz data).[Z.of_nat j] (oz data).[Z.of_nat j - 1].

Definition PxOz_inv (data : InputData) (y0 : num) (N k : nat)
    (s : LocalsPxOz) : Prop :=
  (length (po_py s) = N /\ length (po_vx s) = N /\
   length (po_vy s) = N /\ length (po_wz s) = N) /\
  po_y s = integ y0 (vy_PxOz data) k /\
  (forall j, (j < k)%nat -> PxOz_row data y0 s j) /\
  (forall j, (k <= j < N)%nat -> nth j (po_wz s) NaN = Fin 0).

Definition Out_row (data : InputData) (gtData : option InputData)
    (s : LocalsOut) (j : nat) : Prop :=
  nth j (o_ax s) NaN = accel (vx data) j /\
  nth j (o_ay s) NaN = accel (vy data) j /\
  nth j (o_cz s) NaN = curvature data j /\
  nth j (o_l1 s) NaN = tracking_error data gtData j.

Definition Out_inv (data : InputData) (gtData : option InputData)
    (N k : nat) (s : LocalsOut) : Prop :=
  (length (o_ax s) = N /\ length (o_ay s) = N /\
   length (o_cz s) = N /\ length (o_l1 s) = N) /\
  (forall j, (j < k)%nat -> Out_row data gtData s j) /\
  (forall j, (k <= j < N)%nat ->
     nth j (o_ax s) NaN = Fin 0 /\ nth j (o_ay s) NaN = Fin 0 /\
     nth j (o_l1 s) NaN = Fin 0).

(** ** Vocabulary of the statements *)

(** The seed of an integration: the first entry of the prior buffer when it
    is there and is a number, and [0] otherwise. *)
Definition seed (a : list num) : R :=
  match a with
  | Fin r :: _ => r
  | _ => 0
  end.

Definition sumR (l : list R) : R := fold_right Rplus 0 l.

(** The first signal of the pair a mode drives; its length is the length
    of the derived arrays. *)
Definition primary (mode : Methods) : InputKey :=
  match mode with
  | position | differential => Kpx
  | velocity | integral => Kvx
  end.

(** A finite number in the half-open interval [(-PI, PI]], respectively in
    the closed interval [[-PI, PI]]. *)
Definition in_oc (a : num) : Prop := exists r, a = Fin r /\ - PI < r <= PI.
Definition in_cc (a : num) : Prop := exists r, a = Fin r /\ - PI <= r <= PI.

Definition is_fin (a : num) : Prop := exists r, a = Fin r.

(** One pass of each of the two loops on a difference of two headings. *)
Definition wrap_closed (d : R) : R :=
  if Rlt_dec PI d then d - 2 * PI
  else if Rlt_dec d (- PI) then d + 2 * PI
  else d.

(** Forward difference of a real buffer of length [N] at index [i],
    backward at the last index. *)
Definition diffR (zs : list R) (N i : nat) : R :=
  if (S i <? N)%nat
  then (nth (S i) zs 0 - nth i zs 0) / CONFIG.dt
  else (nth i zs 0 - nth (i - 1) zs 0) / CONFIG.dt.

(** The outputs a mode obtains by integration from a seed. *)
Definition integrated (mode : Methods) : list InputKey :=
  match mode with
  | position => []
  | velocity => [Kpx; Kpy]
  | integral => [Kpx; Kpy; Koz]
  | differential => [Kpy]
  end.

(** The six buffers of a state have the same length. *)
Definition equal_length (data : InputData) : Prop :=
  length (py data) = length (px data) /\
  length (oz data) = length (px data) /\
  length (vx data) = length (px data) /\
  length (vy data) = length (px data) /\
  length (wz data) = length (px data).

(** The store, the trace and the result an action leaves. *)
Definition run {A : Type} (m : Action A) (st : Store) : Store :=
  snd (fst (m st)).
Definition trace {A : Type} (m : Action A) (st : Store) : list event :=
  snd (m st).
Definition result {A : Type} (m : Action A) (st : Store) : A :=
  fst (fst (m st)).

(** Number of times the synchronization step was entered. *)
Definition sync_runs (t : list event) : nat :=
  length (filter (fun e => match e with Ev_sync => true | _ => false end) t).

(** [outputData[key]] *)
Definition out_field (data : OutputData) (key : OutputKey) : list num :=
  match key with
  | Kax => ax data | Kay => ay data | Kcz => cz data | Kl1 => l1 data
  end.

(** The six input cells after [key] was given the value [v]. *)
Definition with_input (st : Store) (key : InputKey) (v : list num)
    : InputKey -> list num :=
  fun k => if InputKey_eqb k key then v else inputDataAtomFamily st k.

(** The state made of six cells. *)
Definition state_of (cells : InputKey -> list num) : InputData :=
  mkInputData (cells Kpx) (cells Kpy) (cells Koz)
              (cells Kvx) (cells Kvy) (cells Kwz).

(** The six input cells after the arrays of a document replaced the cells
    of the same name. *)
Definition merged (st : Store) (doc : PartialInputData)
    : InputKey -> list num :=
  fun k => match doc k with
           | Some arr => arr
           | None => inputDataAtomFamily st k
           end.


(* ------------------------------------------------------------------ *)
(** ** Further functions of the source *)

(** [Math.sin], [Math.cos] and, on numbers, [Math.min] and [Math.max]
    (which return [NaN] as soon as one argument is [NaN]). *)
Module JsMath.

Definition sin (a : num) : num :=
  match a with Fin x => Fin (Rtrigo_def.sin x) | NaN => NaN end.

Definition cos (a : num) : num :=
  match a with Fin x => Fin (Rtrigo_def.cos x) | NaN => NaN end.

Definition min (a b : num) : num :=
  match a, b with Fin x, Fin y => Fin (Rmin x y) | _, _ => NaN end.

Definition max (a b : num) : num :=
  match a, b with Fin x, Fin y => Fin (Rmax x y) | _, _ => NaN end.

End JsMath.

Local Open Scope num_scope.

(** *** [src/state/traj.ts]: initializeDefaultData *)

Record LocalsDefault : Type := mkLocalsDefault {
  df_px : list num;
  df_py : list num;
  df_oz : list num;
  df_vx : list num;
  df_vy : list num;
  df_wz : list num;
  df_x : num;
  df_y : num;
  df_theta : num
}.

Definition initializeDefaultData_body (length : nat)
    (i : nat) (s : LocalsDefault) : LocalsDefault :=
  let iz := Z.of_nat i in
  let t := Fin (INR i) / Fin (INR length) in
  let wz :=
    if Js.lt t (Fin (3 / 10))
    then aset (df_wz s) i
           (Fin (3 / 10) * JsMath.sin ((t * Fin PI) / Fin (3 / 10)))
    else if Js.lt t (Fin (7 / 10))
         then aset (df_wz s) i
                (Fin (- (3 / 10))
                 * JsMath.sin (((t - Fin (3 / 10)) * Fin PI) / Fin (4 / 10)))
         else df_wz s in
  let speed := Fin 10 + Fin 3 * JsMath.sin (t * Fin PI * Fin 2) in
  let theta := df_theta s + wz.[iz] * dt in
  let vx := aset (df_vx s) i (speed * JsMath.cos theta) in
  let vy := aset (df_vy s) i (speed * JsMath.sin theta) in
  let x := df_x s + vx.[iz] * dt in
  let y := df_y s + vy.[iz] * dt in
  let px := aset (df_px s) i x in
  let py := aset (df_py s) i y in
  let oz := aset (df_oz s) i theta in
  mkLocalsDefault px py oz vx vy wz x y theta.

Definition initializeDefaultData : InputData :=
  let length := CONFIG.timeSteps in
  let s0 := mkLocalsDefault
              (new_Array_fill0 length) (new_Array_fill0 length)
              (new_Array_fill0 length) (new_Array_fill0 length)
              (new_Array_fill0 length) (new_Array_fill0 length)
              (Fin 0) (Fin 0) (Fin 0) in
  let s := for_loop length (initializeDefaultData_body length) s0 in
  mkInputData (df_px s) (df_py s) (df_oz s) (df_vx s) (df_vy s) (df_wz s).

(** *** [src/state/traj.ts]: resetTrajectoryAtom and exportTrajectoryAtom *)

Definition resetTrajectoryAtom : Action unit :=
  let defaultData := initializeDefaultData in
  set_input Kpx (px defaultData) ;;
  set_input Kpy (py defaultData) ;;
  set_input Koz (oz defaultData) ;;
  set_input Kvx (vx defaultData) ;;
  set_input Kvy (vy defaultData) ;;
  set_input Kwz (wz defaultData) ;;
  let emptyData := new_Array_fill0 CONFIG.timeSteps in
  set_output Kax emptyData ;;
  set_output Kay emptyData ;;
  set_output Kcz emptyData ;;
  set_output Kl1 emptyData ;;
  syncOutputDataAtom.

(** [{ timeSteps, dt, ...inputData }] *)
Record ExportData : Type := mkExportData {
  e_timeSteps : nat;
  e_dt : R;
  e_data : InputData
}.

Definition exportTrajectoryAtom (st : Store) : ExportData :=
  let inputData := inputDataAtom st in
  mkExportData CONFIG.timeSteps CONFIG.dt inputData.

(** *** [src/utils/trajectory.ts]: calculateTrajectory and
    getTrajectoryBounds

    The guard [!data.px || !data.py || !data.oz] of [calculateTrajectory]
    is never taken, the fields being arrays. *)

Record TrajectoryPoint : Type := mkTrajectoryPoint {
  pt_x : num;
  pt_y : num;
  pt_theta : num
}.

Definition calculateTrajectory (data : InputData) : list TrajectoryPoint :=
  for_loop (length (px data))
    (fun i trajectory =>
       let iz := Z.of_nat i in
       trajectory ++ [mkTrajectoryPoint (px data).[iz] (py data).[iz]
                                        (oz data).[iz]])
    [].

(** A running bound: [Infinity], [-Infinity], or a number. *)
Inductive bound : Type :=
| PosInfinity
| NegInfinity
| Bnum (n : num).

(** [Math.min(b, x)] and [Math.max(b, x)] for a running bound [b] and a
    coordinate [x]. *)
Definition bound_min (b : bound) (x : num) : bound :=
  match x with
  | NaN => Bnum NaN
  | Fin _ =>
      match b with
      | PosInfinity => Bnum x
      | NegInfinity => NegInfinity
      | Bnum m => Bnum (JsMath.min m x)
      end
  end.

Definition bound_max (b : bound) (x : num) : bound :=
  match x with
  | NaN => Bnum NaN
  | Fin _ =>
      match b with
      | NegInfinity => Bnum x
      | PosInfinity => PosInfinity
      | Bnum m => Bnum (JsMath.max m x)
      end
  end.

Record Bounds : Type := mkBounds {
  minX : bound;
  maxX : bound;
  minY : bound;
  maxY : bound
}.

Definition getTrajectoryBounds (trajectory : list TrajectoryPoint) : Bounds :=
  fold_left
    (fun b point =>
       mkBounds (bound_min (minX b) (pt_x point))
                (bound_max (maxX b) (pt_x point))
                (bound_min (minY b) (pt_y point))
                (bound_max (maxY b) (pt_y point)))
    trajectory
    (mkBounds PosInfinity NegInfinity PosInfinity NegInfinity).

(** *** [src/components/Graph.tsx]: interpolation of a drag

    Indices are the non-negative integers [getIndexFromX] returns. *)

Record GraphConfig : Type := mkGraphConfig {
  minVal : num;
  maxVal : num
}.

(** [Math.max(config.minVal, Math.min(config.maxVal, value))] *)
Definition clampValue (config : GraphConfig) (value : num) : num :=
  JsMath.max (minVal config) (JsMath.min (maxVal config) value).

(** [for (let i = lo; i < hi; i++) body] *)
Definition for_range {S : Type} (lo hi : nat) (body : nat -> S -> S) (s0 : S)
    : S :=
  fold_left (fun s i => body i s) (seq lo (hi - lo)) s0.

Definition interpolateValues (config : GraphConfig)
    (startIndex endIndex : nat) (startValue endValue : num) : list Update :=
  let indexDiff := Z.abs (Z.of_nat endIndex - Z.of_nat startIndex) in
  if (indexDiff <=? 1)%Z then []
  else
    let minIndex := Nat.min startIndex endIndex in
    let maxIndex := Nat.max startIndex endIndex in
    for_range (minIndex + 1) maxIndex
      (fun i updates =>
         let t := (Fin (INR i) - Fin (INR startIndex))
                  / (Fin (INR endIndex) - Fin (INR startIndex)) in
         let value := startValue + (endValue - startValue) * t in
         updates ++ [mkUpdate i (clampValue config value)])
      [].

(** The update list [handleMouseMove] hands to the batch update while
    drawing: the point under the cursor, then the points interpolated from
    the last updated index when there is one and it differs. *)
Definition handleMouseMove_updates (config : GraphConfig) (data : list num)
    (lastUpdatedIndex : option nat) (currentIndex : nat) (clampedValue : num)
    : list Update :=
  let updates := [mkUpdate currentIndex clampedValue] in
  match lastUpdatedIndex with
  | Some last =>
      if negb (last =? currentIndex)%nat
      then
        let lastValue := data.[Z.of_nat last] in
        updates ++ interpolateValues config last currentIndex
                                     lastValue clampedValue
      else updates
  | None => updates
  end.

Local Close Scope num_scope.

(** ** Closed forms of the default trajectory *)

(** Yaw rate and speed profile at step [i] of [N]. *)
Definition default_wz (N i : nat) : R :=
  let t := INR i / INR N in
  if Rlt_dec t (3 / 10) then 3 / 10 * sin (t * PI / (3 / 10))
  else if Rlt_dec t (7 / 10)
       then - (3 / 10) * sin ((t - 3 / 10) * PI / (4 / 10))
       else 0.

Definition default_speed (N i : nat) : R :=
  10 + 3 * sin (INR i / INR N * PI * 2).

(** Heading and position after [k] iterations. *)
Fixpoint default_theta (N k : nat) : R :=
  match k with
  | O => 0
  | S j => default_theta N j + default_wz N j * CONFIG.dt
  end.

Definition default_vx (N i : nat) : R :=
  default_speed N i * cos (default_theta N (S i)).

Definition default_vy (N i : nat) : R :=
  default_speed N i * sin (default_theta N (S i)).

Fixpoint default_x (N k : nat) : R :=
  match k with
  | O => 0
  | S j => default_x N j + default_vx N j * CONFIG.dt
  end.

Fixpoint default_y (N k : nat) : R :=
  match k with
  | O => 0
  | S j => default_y N j + default_vy N j * CONFIG.dt
  end.

Definition Default_row (N : nat) (s : LocalsDefault) (j : nat) : Prop :=
  nth j (df_px s) NaN = Fin (default_x N (S j)) /\
  nth j (df_py s) NaN = Fin (default_y N (S j)) /\
  nth j (df_oz s) NaN = Fin (default_theta N (S j)) /\
  nth j (df_vx s) NaN = Fin (default_vx N j) /\
  nth j (df_vy s) NaN = Fin (default_vy N j) /\
  nth j (df_wz s) NaN = Fin (default_wz N j).

Definition Default_inv (N k : nat) (s : LocalsDefault) : Prop :=
  (length (df_px s) = N /\ length (df_py s) = N /\ length (df_oz s) = N /\
   length (df_vx s) = N /\ length (df_vy s) = N /\ length (df_wz s) = N) /\
  (df_x s = Fin (default_x N k) /\ df_y s = Fin (default_y N k) /\
   df_theta s = Fin (default_theta N k)) /\
  (forall j, (j < k)%nat -> Default_row N s j) /\
  (forall j, (k <= j < N)%nat -> nth j (df_wz s) NaN = Fin 0).

(** The value a cell holds after a list of updates: that of the last update
    of this index, the old value when there is none. *)
Definition last_write (updates : list Update) (i : nat) (old : num) : num :=
  match find (fun u => (index u =? i)%nat) (rev updates) with
  | Some u => value u
  | None => old
  end.

(** The document read back from an exported object: the six arrays under
    their keys (for arrays of real numbers, [JSON.parse (JSON.stringify a)]
    is [a]). *)
Definition exported_document (e : ExportData) : Json :=
  JObject (fun key => Some (field (e_data e) key)).

(** A pair of bounds encloses a list of coordinates and is attained. *)
Definition encloses (lo hi : bound) (cs : list num) : Prop :=
  exists a b : R,
    lo = Bnum (Fin a) /\ hi = Bnum (Fin b) /\
    (forall c, In c cs -> exists x, c = Fin x /\ a <= x <= b) /\
    In (Fin a) cs /\ In (Fin b) cs.

(* ------------------------------------------------------------------ *)
(** ** Integral mode on binary64 numbers

    The numbers of the source are IEEE 754 binary64 values.  From [2^56]
    on, neighbouring values are more than [2 * Math.PI] apart, and
    [theta -= 2 * Math.PI] gives [theta] back.  [F64] renders
    [calculateFromVxWz] on binary64 values with the two [while] loops as
    they are written: a loop is run for at most [fuel] iterations and gives
    [None] when it has not reached its exit test by then.  [undefined] is
    read as [NaN], as above.  [Math.tan] is a parameter of the function. *)
Module F64.

Import PrimFloat.
Local Open Scope float_scope.

(** [Math.PI] = 3.141592653589793 and [CONFIG.dt] = 0.1 *)
Definition Math_PI : float := 0x1.921fb54442d18p+1.

Definition dt : float := 0x1.999999999999ap-4.

(** Truthiness of a number: [0], [-0] and [NaN] are falsy. *)
Definition truthy (a : float) : bool := negb (is_nan a || is_zero a).

(** [a || b] *)
Definition or (a b : float) : float := if truthy a then a else b.

(** [a[i]] *)
Definition aget (a : list float) (i : nat) : float := nth i a nan.

(** [a[i] = v] *)
Fixpoint aset (a : list float) (i : nat) (v : float) : list float :=
  match a, i with
  | [], O => [v]
  | [], S i' => nan :: aset [] i' v
  | _ :: t, O => v :: t
  | h :: t, S i' => h :: aset t i' v
  end.

(** [new Array(length).fill(0)] *)
Definition new_Array_fill0 (length : nat) : list float := repeat 0 length.

(** [for (let i = 0; i < n; i++) body], where the body may fail to return. *)
Definition for_loop {S : Type} (n : nat) (body : nat -> S -> option S)
    (s0 : S) : option S :=
  fold_left (fun s i => match s with Some s' => body i s' | None => None end)
            (seq 0 n) (Some s0).

(** [while (theta > Math.PI) theta -= 2 * Math.PI;] *)
Fixpoint while_gt_PI (fuel : nat) (theta : float) : option float :=
  match fuel with
  | O => None
  | S fuel' =>
      if Math_PI <? theta then while_gt_PI fuel' (theta - 2 * Math_PI)
      else Some theta
  end.

(** [while (theta < -Math.PI) theta += 2 * Math.PI;] *)
Fixpoint while_lt_mPI (fuel : nat) (theta : float) : option float :=
  match fuel with
  | O => None
  | S fuel' =>
      if theta <? - Math_PI then while_lt_mPI fuel' (theta + 2 * Math_PI)
      else Some theta
  end.

Record InputData : Type := mkInputData {
  px : list float;
  py : list float;
  oz : list float;
  vx : list float;
  vy : list float;
  wz : list float
}.

Record LocalsVxWz : Type := mkLocalsVxWz {
  vw_px : list float;
  vw_py : list float;
  vw_oz : list float;
  vw_vy : list float;
  vw_x : float;
  vw_y : float;
  vw_theta : float
}.

Section Integral.

Variable tan : float -> float.

Definition calculateFromVxWz_body (fuel : nat) (data : InputData)
    (i : nat) (s : LocalsVxWz) : option LocalsVxWz :=
  let px := aset (vw_px s) i (vw_x s) in
  let py := aset (vw_py s) i (vw_y s) in
  let oz := aset (vw_oz s) i (vw_theta s) in
  let vy := aset (vw_vy s) i (aget (vx data) i * tan (vw_theta s)) in
  let x := vw_x s + aget (vx data) i * dt in
  let y := vw_y s + aget vy i * dt in
  let theta := vw_theta s + aget (wz data) i * dt in
  match while_gt_PI fuel theta with
  | None => None
  | Some theta =>
      match while_lt_mPI fuel theta with
      | None => None
      | Some theta => Some (mkLocalsVxWz px py oz vy x y theta)
      end
  end.

Definition calculateFromVxWz (fuel : nat) (data : InputData)
    : option InputData :=
  let length := List.length (vx data) in
  let x := or (aget (px data) 0) 0 in
  let y := or (aget (py data) 0) 0 in
  let theta := or (aget (oz data) 0) 0 in
  let s0 := mkLocalsVxWz (new_Array_fill0 length) (new_Array_fill0 length)
                         (new_Array_fill0 length) (new_Array_fill0 length)
                         x y theta in
  match for_loop length (calculateFromVxWz_body fuel data) s0 with
  | None => None
  | Some s =>
      Some (mkInputData (vw_px s) (vw_py s) (vw_oz s) (vx data) (vw_vy s)
                        (wz data))
  end.

End Integral.

End F64.

(* ------------------------------------------------------------------ *)
(** * Properties *)

(** ** Arrays and loops *)

Lemma aget_nat (a : list num) (i : nat) : a.[Z.of_nat i] = nth i a NaN.
Proof.
  unfold aget. destruct (Z.ltb_spec (Z.of_nat i) 0); [lia|].
  now rewrite Nat2Z.id.
Qed.

Lemma aget_succ (a : list num) (i : nat) :
  a.[Z.of_nat i + 1] = nth (S i) a NaN.
Proof.
  replace (Z.of_nat i + 1)%Z with (Z.of_nat (S i)) by lia.
  apply aget_nat.
Qed.

Lemma aget_pred (a : list num) (i : nat) :
  a.[Z.of_nat i - 1] = match i with O => NaN | S j => nth j a NaN end.
Proof.
  destruct i as [|j].
  - reflexivity.
  - replace (Z.of_nat (S j) - 1)%Z with (Z.of_nat j) by lia.
    apply aget_nat.
Qed.

Lemma length_aset (a : list num) (i : nat) (v : num) :
  (i < length a)%nat -> length (aset a i v) = length a.
Proof.
  revert i; induction a as [|h t IH]; intros [|i] Hi; simpl in *; try lia.
  rewrite IH; lia.
Qed.

Lemma nth_aset (a : list num) (i j : nat) (v : num) :
  nth j (aset a i v) NaN = if Nat.eqb j i then v else nth j a NaN.
Proof.
  revert a j; induction i as [|i IH]; intros [|h t] [|j]; simpl; auto.
  - now destruct j.
  - rewrite IH. now destruct j; destruct (Nat.eqb _ _).
Qed.

Lemma nth_aset_eq (a : list num) (i : nat) (v : num) :
  nth i (aset a i v) NaN = v.
Proof. now rewrite nth_aset, Nat.eqb_refl. Qed.

Lemma nth_aset_neq (a : list num) (i j : nat) (v : num) :
  j <> i -> nth j (aset a i v) NaN = nth j a NaN.
Proof.
  intros H. rewrite nth_aset.
  now destruct (Nat.eqb_spec j i).
Qed.

Lemma length_new_Array (n : nat) : length (new_Array_fill0 n) = n.
Proof. apply repeat_length. Qed.

Lemma nth_new_Array (n j : nat) :
  (j < n)%nat -> nth j (new_Array_fill0 n) NaN = Fin 0.
Proof.
  unfold new_Array_fill0. revert j; induction n as [|n IH]; intros j Hj.
  - lia.
  - destruct j; simpl; [reflexivity | apply IH; lia].
Qed.

Lemma for_loop_S {S : Type} (n : nat) (body : nat -> S -> S) (s0 : S) :
  for_loop (Datatypes.S n) body s0 = body n (for_loop n body s0).
Proof.
  unfold for_loop. rewrite seq_S, fold_left_app. reflexivity.
Qed.

Lemma for_loop_ext {S : Type} (n : nat) (body1 body2 : nat -> S -> S)
    (s0 : S) :
  (forall i s, body1 i s = body2 i s) ->
  for_loop n body1 s0 = for_loop n body2 s0.
Proof.
  intros H. induction n as [|n IH]; [reflexivity|].
  now rewrite !for_loop_S, IH, H.
Qed.

(** Loop invariants: [P k s] holds of the locals [s] on entry to iteration
    [k], hence [P n] holds on exit. *)
Lemma for_loop_inv {S : Type} (P : nat -> S -> Prop) (n : nat)
    (body : nat -> S -> S) (s0 : S) :
  P O s0 ->
  (forall i s, (i < n)%nat -> P i s -> P (Datatypes.S i) (body i s)) ->
  P n (for_loop n body s0).
Proof.
  intros H0 Hstep.
  assert (H : forall k, (k <= n)%nat -> P k (for_loop k body s0)).
  { induction k as [|k IH]; intros Hk.
    - exact H0.
    - rewrite for_loop_S. apply Hstep; [lia | apply IH; lia]. }
  apply H; lia.
Qed.

(** ** Angle normalization *)

Lemma turns_pos (t : R) : (1 <= turns t)%nat.
Proof.
  unfold turns.
  assert (H : 0 <= Rabs t / (2 * PI)).
  { apply Rmult_le_pos; [apply Rabs_pos|].
    left; apply Rinv_0_lt_compat; pose proof PI_RGT_0; lra. }
  destruct (archimed (Rabs t / (2 * PI))) as [Hup _].
  assert (Hz : (0 < up (Rabs t / (2 * PI)))%Z).
  { apply lt_IZR. lra. }
  lia.
Qed.

Lemma turns_bound (t : R) : Rabs t < 2 * PI * INR (turns t).
Proof.
  unfold turns.
  pose proof PI_RGT_0 as Hpi.
  assert (H : 0 <= Rabs t / (2 * PI)).
  { apply Rmult_le_pos; [apply Rabs_pos|].
    left; apply Rinv_0_lt_compat; lra. }
  destruct (archimed (Rabs t / (2 * PI))) as [Hup _].
  assert (Hz : (0 <= up (Rabs t / (2 * PI)))%Z).
  { apply le_IZR. lra. }
  rewrite INR_IZR_INZ, Z2Nat.id by exact Hz.
  apply Rmult_lt_compat_l with (r := 2 * PI) in Hup; [|lra].
  replace (2 * PI * (Rabs t / (2 * PI))) with (Rabs t) in Hup
    by (field; lra).
  lra.
Qed.

Lemma while_gt_PI_id (fuel : nat) (t : R) :
  t <= PI -> while_gt_PI fuel t = t.
Proof.
  intros H; destruct fuel; simpl; [reflexivity|].
  destruct (Rlt_dec PI t); [lra | reflexivity].
Qed.

Lemma while_lt_mPI_id (fuel : nat) (t : R) :
  - PI <= t -> while_lt_mPI fuel t = t.
Proof.
  intros H; destruct fuel; simpl; [reflexivity|].
  destruct (Rlt_dec t (- PI)); [lra | reflexivity].
Qed.

(** The first loop leaves through its test within [fuel] iterations as soon
    as [fuel] turns bring the value below [PI]. *)
Lemma while_gt_PI_exit (fuel : nat) (t : R) :
  t - 2 * PI * INR fuel <= PI ->
  while_gt_PI fuel t <= PI /\
  (PI < t -> - PI < while_gt_PI fuel t) /\
  exists k : nat, while_gt_PI fuel t = t - 2 * PI * INR k.
Proof.
  revert t; induction fuel as [|fuel IH]; intros t Hf.
  - simpl in *. split; [lra|]. split; [lra|]. exists O; simpl; lra.
  - simpl while_gt_PI. destruct (Rlt_dec PI t) as [Hgt|Hle].
    + rewrite S_INR in Hf.
      destruct (IH (t - 2 * PI)) as (H1 & H2 & k & H3); [lra|].
      split; [exact H1|]. split.
      * intros _. destruct (Rlt_dec PI (t - 2 * PI)) as [Hgt'|Hle'].
        -- apply H2; exact Hgt'.
        -- rewrite while_gt_PI_id by lra. lra.
      * exists (S k). rewrite S_INR, H3. lra.
    + split; [lra|]. split; [lra|]. exists O; simpl; lra.
Qed.

Lemma while_lt_mPI_exit (fuel : nat) (t : R) :
  - PI <= t + 2 * PI * INR fuel ->
  - PI <= while_lt_mPI fuel t /\
  (t < - PI -> while_lt_mPI fuel t < PI) /\
  exists k : nat, while_lt_mPI fuel t = t + 2 * PI * INR k.
Proof.
  revert t; induction fuel as [|fuel IH]; intros t Hf.
  - simpl in *. split; [lra|]. split; [lra|]. exists O; simpl; lra.
  - simpl while_lt_mPI. destruct (Rlt_dec t (- PI)) as [Hlt|Hge].
    + rewrite S_INR in Hf.
      destruct (IH (t + 2 * PI)) as (H1 & H2 & k & H3); [lra|].
      split; [exact H1|]. split.
      * intros _. destruct (Rlt_dec (t + 2 * PI) (- PI)) as [Hlt'|Hge'].
        -- apply H2; exact Hlt'.
        -- rewrite while_lt_mPI_id by lra. lra.
      * exists (S k). rewrite S_INR, H3. lra.
    + split; [lra|]. split; [lra|]. exists O; simpl; lra.
Qed.

(** Extra iterations beyond the exit change nothing: the result does not
    depend on the bound once it is large enough. *)
Lemma while_gt_PI_fuel (f1 f2 : nat) (t : R) :
  t - 2 * PI * INR f1 <= PI -> (f1 <= f2)%nat ->
  while_gt_PI f2 t = while_gt_PI f1 t.
Proof.
  revert f2 t; induction f1 as [|f1 IH]; intros f2 t Hf Hle.
  - simpl in *. apply while_gt_PI_id. lra.
  - destruct f2 as [|f2]; [lia|]. simpl.
    destruct (Rlt_dec PI t); [|reflexivity].
    apply IH; [rewrite S_INR in Hf; lra | lia].
Qed.

Lemma while_lt_mPI_fuel (f1 f2 : nat) (t : R) :
  - PI <= t + 2 * PI * INR f1 -> (f1 <= f2)%nat ->
  while_lt_mPI f2 t = while_lt_mPI f1 t.
Proof.
  revert f2 t; induction f1 as [|f1 IH]; intros f2 t Hf Hle.
  - simpl in *. apply while_lt_mPI_id. lra.
  - destruct f2 as [|f2]; [lia|]. simpl.
    destruct (Rlt_dec t (- PI)); [|reflexivity].
    apply IH; [rewrite S_INR in Hf; lra | lia].
Qed.

Lemma turns_gt (t : R) : t - 2 * PI * INR (turns t) <= PI.
Proof.
  pose proof (turns_bound t). pose proof (Rle_abs t). pose proof PI_RGT_0. lra.
Qed.

Lemma turns_lt (t : R) : - PI <= t + 2 * PI * INR (turns t).
Proof.
  pose proof (turns_bound t). pose proof (Rle_abs (- t)).
  rewrite Rabs_Ropp in *. pose proof PI_RGT_0. lra.
Qed.

(** The two loops leave the angle in the closed interval [[-PI, PI]], moved
    by a whole number of turns. *)
Lemma normalizeR_range (t : R) : - PI <= normalizeR t <= PI.
Proof.
  unfold normalizeR.
  destruct (while_gt_PI_exit (turns t) t (turns_gt t)) as (H1 & H2 & _).
  set (t1 := while_gt_PI (turns t) t) in *.
  destruct (while_lt_mPI_exit (turns t1) t1 (turns_lt t1)) as (H3 & H4 & _).
  split; [exact H3|].
  destruct (Rlt_dec t1 (- PI)) as [Hlt|Hge].
  - left; apply H4; exact Hlt.
  - rewrite while_lt_mPI_id by lra. exact H1.
Qed.

Lemma normalizeR_turns (t : R) :
  exists k : Z, normalizeR t = t + 2 * PI * IZR k.
Proof.
  unfold normalizeR.
  destruct (while_gt_PI_exit (turns t) t (turns_gt t)) as (_ & _ & k1 & H1).
  set (t1 := while_gt_PI (turns t) t) in *.
  destruct (while_lt_mPI_exit (turns t1) t1 (turns_lt t1)) as (_ & _ & k2 & H2).
  exists (Z.of_nat k2 - Z.of_nat k1)%Z.
  rewrite H2, H1, minus_IZR, <- !INR_IZR_INZ. lra.
Qed.

(** Within one turn and a half of zero the loops run at most once. *)
Lemma normalizeR_near (d : R) :
  - 3 * PI <= d <= 3 * PI ->
  normalizeR d =
    if Rlt_dec PI d then d - 2 * PI
    else if Rlt_dec d (- PI) then d + 2 * PI
    else d.
Proof.
  intros Hd. unfold normalizeR. pose proof PI_RGT_0 as Hpi.
  assert (E1 : while_gt_PI (turns d) d =
               if Rlt_dec PI d then d - 2 * PI else d).
  { pose proof (turns_pos d). destruct (turns d) as [|f]; [lia|]. simpl.
    destruct (Rlt_dec PI d); [|reflexivity].
    apply while_gt_PI_id; lra. }
  rewrite E1. destruct (Rlt_dec PI d) as [Hgt|Hle].
  - apply while_lt_mPI_id; lra.
  - pose proof (turns_pos d). destruct (turns d) as [|f]; [lia|]. simpl.
    destruct (Rlt_dec d (- PI)); [|reflexivity].
    apply while_lt_mPI_id; lra.
Qed.

(** ** The loops of the derivation engine *)

Ltac nth_aset_tac :=
  repeat match goal with
  | |- context [nth ?j (aset ?a ?i ?v) NaN] =>
      first [ rewrite (nth_aset_eq a i v)
            | rewrite (nth_aset_neq a i j v) by lia ]
  end.

Lemma zlt_pos (i : nat) :
  (0 <? Z.of_nat i)%Z = match i with O => false | S _ => true end.
Proof. destruct i; [reflexivity|]. apply Z.ltb_lt. lia. Qed.

Lemma aset_same (a : list num) (i : nat) (v : num) :
  (i < length a)%nat -> nth i a NaN = v -> aset a i v = a.
Proof.
  revert i; induction a as [|h t IH]; intros [|i] Hi E; simpl in *; try lia.
  - now subst.
  - f_equal. apply IH; [lia | exact E].
Qed.

Lemma finite_diff_branch (a xs : list num) (N k : nat) :
  (if (Z.of_nat k <? Z.of_nat N - 1)%Z
   then aset a k ((xs.[Z.of_nat k + 1] - xs.[Z.of_nat k]) / dt)%J
   else aset a k ((xs.[Z.of_nat k] - xs.[Z.of_nat k - 1]) / dt)%J)
  = aset a k (finite_diff xs N k).
Proof. unfold finite_diff. now destruct (Z.of_nat k <? Z.of_nat N - 1)%Z. Qed.

(** The orientation and yaw-rate assignments shared by
    [calculateFromPxPy] and [calculateFromVxVy]. *)
Lemma heading_branch (ozs : list num) (vxk vyk : num) (k : nat) :
  (k < length ozs)%nat -> nth k ozs NaN = Fin 0 ->
  (if Js.gt (Js.sqrt (vxk * vxk + vyk * vyk)%J) (Fin (1 / 100))
   then aset ozs k (Js.atan2 vyk vxk)
   else if (0 <? Z.of_nat k)%Z
        then aset ozs k ozs.[Z.of_nat k - 1]
        else ozs)
  = aset ozs k (heading vxk vyk k (nth (pred k) ozs NaN)).
Proof.
  intros Hk E0. unfold heading. destruct (Js.gt _ _); [reflexivity|].
  rewrite zlt_pos, aget_pred. destruct k as [|k']; [|reflexivity].
  symmetry; apply aset_same; assumption.
Qed.

Lemma yaw_rate_branch (wzs ozs : list num) (ozk : num) (k : nat) :
  (k < length wzs)%nat -> nth k wzs NaN = Fin 0 ->
  (if (0 <? Z.of_nat k)%Z
   then aset wzs k
          (normalize ((aset ozs k ozk).[Z.of_nat k]
                      - (aset ozs k ozk).[Z.of_nat k - 1]) / dt)%J
   else wzs)
  = aset wzs k (yaw_rate k ozk (nth (pred k) ozs NaN)).
Proof.
  intros Hk E0. rewrite zlt_pos. unfold yaw_rate. destruct k as [|k'].
  - symmetry; apply aset_same; assumption.
  - rewrite aget_nat, aget_pred, nth_aset_eq, nth_aset_neq by lia.
    reflexivity.
Qed.

Lemma PxPy_body_eq data N k s :
  (k < N)%nat -> length (pp_oz s) = N -> length (pp_wz s) = N ->
  nth k (pp_oz s) NaN = Fin 0 -> nth k (pp_wz s) NaN = Fin 0 ->
  let vxk := finite_diff (px data) N k in
  let vyk := finite_diff (py data) N k in
  let ozk := heading vxk vyk k (nth (pred k) (pp_oz s) NaN) in
  let wzk := yaw_rate k ozk (nth (pred k) (pp_oz s) NaN) in
  calculateFromPxPy_body data N k s =
  mkLocalsPxPy (aset (pp_vx s) k vxk) (aset (pp_vy s) k vyk)
               (aset (pp_oz s) k ozk) (aset (pp_wz s) k wzk).
Proof.
  intros Hk Loz Lwz Eoz Ewz vxk vyk ozk wzk.
  unfold calculateFromPxPy_body. cbv zeta.
  rewrite !finite_diff_branch. fold vxk vyk.
  rewrite !(aget_nat (aset (pp_vx s) k vxk)),
          !(aget_nat (aset (pp_vy s) k vyk)), !nth_aset_eq.
  rewrite heading_branch by (assumption || lia). fold ozk.
  rewrite yaw_rate_branch by (assumption || lia).
  reflexivity.
Qed.

Lemma PxPy_step data N k s :
  (k < N)%nat -> PxPy_inv data N k s ->
  PxPy_inv data N (S k) (calculateFromPxPy_body data N k s).
Proof.
  intros Hk ((Lvx & Lvy & Loz & Lwz) & Hrows & Htail).
  destruct (Htail k) as [Eoz Ewz]; [lia|].
  rewrite PxPy_body_eq by assumption. cbv zeta.
  split; [|split].
  - simpl. rewrite !length_aset by lia. auto.
  - intros j Hj. unfold PxPy_row; simpl.
    destruct (Nat.eq_dec j k) as [->|Hne].
    + rewrite !nth_aset_eq.
      destruct k as [|k']; simpl pred; nth_aset_tac; auto.
    + destruct (Hrows j) as (R1 & R2 & R3 & R4); [lia|].
      nth_aset_tac. auto.
  - intros j Hj. simpl. nth_aset_tac. apply Htail. lia.
Qed.

Lemma PxPy_final data :
  let N := length (px data) in
  PxPy_inv data N N
    (for_loop N (calculateFromPxPy_body data N)
       (mkLocalsPxPy (new_Array_fill0 N) (new_Array_fill0 N)
                     (new_Array_fill0 N) (new_Array_fill0 N))).
Proof.
  intros N. apply (for_loop_inv (PxPy_inv data N)).
  - split; [|split].
    + repeat split; apply length_new_Array.
    + intros j Hj; lia.
    + intros j Hj. simpl. rewrite nth_new_Array by lia. auto.
  - intros i s Hi. now apply PxPy_step.
Qed.

Lemma VxVy_body_eq data k s :
  (k < length (vv_oz s))%nat -> (k < length (vv_wz s))%nat ->
  nth k (vv_oz s) NaN = Fin 0 -> nth k (vv_wz s) NaN = Fin 0 ->
  let ozk := heading (vx data).[Z.of_nat k] (vy data).[Z.of_nat k] k
                     (nth (pred k) (vv_oz s) NaN) in
  let wzk := yaw_rate k ozk (nth (pred k) (vv_oz s) NaN) in
  calculateFromVxVy_body data k s =
  mkLocalsVxVy (aset (vv_px s) k (vv_x s)) (aset (vv_py s) k (vv_y s))
               (aset (vv_oz s) k ozk) (aset (vv_wz s) k wzk)
               (vv_x s + (vx data).[Z.of_nat k] * dt)%J
               (vv_y s + (vy data).[Z.of_nat k] * dt)%J.
Proof.
  intros Loz Lwz Eoz Ewz ozk wzk.
  unfold calculateFromVxVy_body. cbv zeta.
  rewrite heading_branch by assumption. fold ozk.
  rewrite yaw_rate_branch by assumption.
  reflexivity.
Qed.

Lemma VxVy_step data x0 y0 N k s :
  (k < N)%nat -> VxVy_inv data x0 y0 N k s ->
  VxVy_inv data x0 y0 N (S k) (calculateFromVxVy_body data k s).
Proof.
  intros Hk ((Lpx & Lpy & Loz & Lwz) & (Ex & Ey) & Hrows & Htail).
  destruct (Htail k) as [Eoz Ewz]; [lia|].
  rewrite VxVy_body_eq by (assumption || lia). cbv zeta.
  split; [|split; [|split]].
  - simpl. rewrite !length_aset by lia. auto.
  - simpl. rewrite Ex, Ey. auto.
  - intros j Hj. unfold VxVy_row; simpl.
    destruct (Nat.eq_dec j k) as [->|Hne].
    + rewrite !nth_aset_eq.
      destruct k as [|k']; simpl pred; nth_aset_tac; auto.
    + destruct (Hrows j) as (R1 & R2 & R3 & R4); [lia|].
      nth_aset_tac. auto.
  - intros j Hj. simpl. nth_aset_tac. apply Htail. lia.
Qed.

Lemma VxVy_final data :
  let N := length (vx data) in
  let x0 := Js.or (px data).[0] (Fin 0) in
  let y0 := Js.or (py data).[0] (Fin 0) in
  VxVy_inv data x0 y0 N N
    (for_loop N (calculateFromVxVy_body data)
       (mkLocalsVxVy (new_Array_fill0 N) (new_Array_fill0 N)
                     (new_Array_fill0 N) (new_Array_fill0 N) x0 y0)).
Proof.
  intros N x0 y0. apply (for_loop_inv (VxVy_inv data x0 y0 N)).
  - split; [|split; [|split]].
    + repeat split; apply length_new_Array.
    + split; reflexivity.
    + intros j Hj; lia.
    + intros j Hj. simpl. rewrite nth_new_Array by lia. auto.
  - intros i s Hi. now apply VxVy_step.
Qed.

Lemma VxWz_step data x0 y0 N k s :
  (k < N)%nat -> VxWz_inv data x0 y0 N k s ->
  VxWz_inv data x0 y0 N (S k) (calculateFromVxWz_body data k s).
Proof.
  intros Hk ((Lpx & Lpy & Loz & Lvy) & (Ex & Ey & Et) & Hrows).
  unfold calculateFromVxWz_body. cbv zeta.
  rewrite !aget_nat, nth_aset_eq.
  split; [|split].
  - simpl. rewrite !length_aset by lia. auto.
  - simpl. rewrite Ex, Ey, Et. unfold vy_VxWz. rewrite !aget_nat. auto.
  - intros j Hj. unfold VxWz_row; simpl.
    destruct (Nat.eq_dec j k) as [->|Hne].
    + rewrite !nth_aset_eq, Ex, Ey, Et. unfold vy_VxWz.
      rewrite !aget_nat. auto.
    + destruct (Hrows j) as (R1 & R2 & R3 & R4); [lia|].
      nth_aset_tac. auto.
Qed.

Lemma VxWz_final data :
  let N := length (vx data) in
  let x0 := Js.or (px data).[0] (Fin 0) in
  let y0 := Js.or (py data).[0] (Fin 0) in
  VxWz_inv data x0 y0 N N
    (for_loop N (calculateFromVxWz_body data)
       (mkLocalsVxWz (new_Array_fill0 N) (new_Array_fill0 N)
                     (new_Array_fill0 N) (new_Array_fill0 N)
                     x0 y0 (Js.or (oz data).[0] (Fin 0)))).
Proof.
  intros N x0 y0. apply (for_loop_inv (VxWz_inv data x0 y0 N)).
  - split; [|split].
    + repeat split; apply length_new_Array.
    + repeat split; reflexivity.
    + intros j Hj; lia.
  - intros i s Hi. now apply VxWz_step.
Qed.

Lemma PxOz_wz_branch (wzs ozs : list num) (k : nat) :
  (k < length wzs)%nat -> nth k wzs NaN = Fin 0 ->
  (if (0 <? Z.of_nat k)%Z
   then aset wzs k
          (normalize (ozs.[Z.of_nat k] - ozs.[Z.of_nat k - 1]) / dt)%J
   else wzs)
  = aset wzs k (yaw_rate k ozs.[Z.of_nat k] ozs.[Z.of_nat k - 1]).
Proof.
  intros Hk E0. rewrite zlt_pos. unfold yaw_rate. destruct k as [|k'].
  - symmetry; apply aset_same; assumption.
  - reflexivity.
Qed.

Lemma PxOz_step data y0 k s :
  let N := length (px data) in
  (k < N)%nat -> PxOz_inv data y0 N k s ->
  PxOz_inv data y0 N (S k) (calculateFromPxOz_body data N k s).
Proof.
  intros N Hk ((Lpy & Lvx & Lvy & Lwz) & Ey & Hrows & Htail).
  unfold calculateFromPxOz_body. cbv zeta.
  rewrite finite_diff_branch.
  rewrite PxOz_wz_branch by (try apply Htail; lia).
  rewrite !(aget_nat (aset _ _ _)), !nth_aset_eq.
  split; [|split; [|split]].
  - simpl. rewrite !length_aset by lia. auto.
  - simpl. rewrite Ey. reflexivity.
  - intros j Hj. unfold PxOz_row; simpl.
    destruct (Nat.eq_dec j k) as [->|Hne].
    + rewrite !nth_aset_eq, Ey. auto.
    + destruct (Hrows j) as (R1 & R2 & R3 & R4); [lia|].
      nth_aset_tac. auto.
  - intros j Hj. simpl. nth_aset_tac. apply Htail. lia.
Qed.

Lemma PxOz_final data :
  let N := length (px data) in
  let y0 := Js.or (py data).[0] (Fin 0) in
  PxOz_inv data y0 N N
    (for_loop N (calculateFromPxOz_body data N)
       (mkLocalsPxOz (new_Array_fill0 N) (new_Array_fill0 N)
                     (new_Array_fill0 N) (new_Array_fill0 N) y0)).
Proof.
  intros N y0. apply (for_loop_inv (PxOz_inv data y0 N)).
  - split; [|split; [|split]].
    + repeat split; apply length_new_Array.
    + reflexivity.
    + intros j Hj; lia.
    + intros j Hj. simpl. rewrite nth_new_Array by lia. auto.
  - intros i s Hi. now apply PxOz_step.
Qed.

(** ** The loop of the metrics engine *)

Lemma accel_branch (a vs : list num) (k : nat) :
  (k < length a)%nat -> nth k a NaN = Fin 0 ->
  (if (0 <? Z.of_nat k)%Z
   then aset a k ((vs.[Z.of_nat k] - vs.[Z.of_nat k - 1]) / dt)%J
   else a)
  = aset a k (accel vs k).
Proof.
  intros Hk E0. rewrite zlt_pos. unfold accel. destruct k as [|k'].
  - symmetry; apply aset_same; assumption.
  - reflexivity.
Qed.

Lemma tracking_error_branch (a : list num) data gtData (k : nat) :
  (k < length a)%nat -> nth k a NaN = Fin 0 ->
  match gtData with
  | Some gt =>
      if (Z.of_nat k <? Z.of_nat (length (px gt)))%Z
      then
        aset a k
          (Js.sqrt
             (((px data).[Z.of_nat k] - (px gt).[Z.of_nat k])
              * ((px data).[Z.of_nat k] - (px gt).[Z.of_nat k])
              + ((py data).[Z.of_nat k] - (py gt).[Z.of_nat k])
                * ((py data).[Z.of_nat k] - (py gt).[Z.of_nat k]))%J)
      else a
  | None => a
  end = aset a k (tracking_error data gtData k).
Proof.
  intros Hk E0. unfold tracking_error. destruct gtData as [gt|].
  - destruct (Z.of_nat k <? Z.of_nat (length (px gt)))%Z; [reflexivity|].
    symmetry; apply aset_same; assumption.
  - symmetry; apply aset_same; assumption.
Qed.

Lemma curvature_branch (a : list num) data (k : nat) :
  (if Js.gt (Js.sqrt ((vx data).[Z.of_nat k] * (vx data).[Z.of_nat k]
                      + (vy data).[Z.of_nat k] * (vy data).[Z.of_nat k])%J)
            (Fin (1 / 10))
   then aset a k
          ((wz data).[Z.of_nat k]
           / Js.sqrt ((vx data).[Z.of_nat k] * (vx data).[Z.of_nat k]
                      + (vy data).[Z.of_nat k] * (vy data).[Z.of_nat k]))%J
   else aset a k (Fin 0))
  = aset a k (curvature data k).
Proof. unfold curvature. cbv zeta. now destruct (Js.gt _ _). Qed.

Lemma Out_step data gtData N k s :
  (k < N)%nat -> Out_inv data gtData N k s ->
  Out_inv data gtData N (S k) (calculateOutputData_body data gtData k s).
Proof.
  intros Hk ((Lax & Lay & Lcz & Ll1) & Hrows & Htail).
  destruct (Htail k) as (Eax & Eay & El1); [lia|].
  unfold calculateOutputData_body. cbv zeta.
  rewrite !accel_branch, curvature_branch, tracking_error_branch
    by (assumption || lia).
  split; [|split].
  - simpl. rewrite !length_aset by lia. auto.
  - intros j Hj. unfold Out_row; simpl.
    destruct (Nat.eq_dec j k) as [->|Hne].
    + rewrite !nth_aset_eq. auto.
    + destruct (Hrows j) as (R1 & R2 & R3 & R4); [lia|].
      nth_aset_tac. auto.
  - intros j Hj. simpl. nth_aset_tac. apply Htail. lia.
Qed.

Lemma Out_final data gtData :
  let N := length (px data) in
  Out_inv data gtData N N
    (for_loop N (calculateOutputData_body data gtData)
       (mkLocalsOut (new_Array_fill0 N) (new_Array_fill0 N)
                    (new_Array_fill0 N) (new_Array_fill0 N))).
Proof.
  intros N. apply (for_loop_inv (Out_inv data gtData N)).
  - split; [|split].
    + repeat split; apply length_new_Array.
    + intros j Hj; lia.
    + intros j Hj. simpl. rewrite nth_new_Array by lia. auto.
  - intros i s Hi. now apply Out_step.
Qed.

(** Every metric has the length of [data.px] and holds, at each index, the
    closed form of its row. *)
Lemma calculateOutputData_rows data gtData :
  let out := calculateOutputData data gtData in
  let N := length (px data) in
  (length (ax out) = N /\ length (ay out) = N /\
   length (cz out) = N /\ length (l1 out) = N) /\
  forall j, (j < N)%nat ->
    nth j (ax out) NaN = accel (vx data) j /\
    nth j (ay out) NaN = accel (vy data) j /\
    nth j (cz out) NaN = curvature data j /\
    nth j (l1 out) NaN = tracking_error data gtData j.
Proof.
  intros out N. destruct (Out_final data gtData) as (HL & Hrows & _).
  split; [exact HL|]. intros j Hj. exact (Hrows j Hj).
Qed.

(** Two arrays of the same length with the same entries are equal. *)
Lemma list_eq_nth (a b : list num) :
  length a = length b ->
  (forall j, (j < length a)%nat -> nth j a NaN = nth j b NaN) ->
  a = b.
Proof.
  intros HL H. apply nth_ext with (d := NaN) (d' := NaN); assumption.
Qed.

Lemma nth_repeat_lt (v : num) (n j : nat) :
  (j < n)%nat -> nth j (repeat v n) NaN = v.
Proof.
  revert j; induction n as [|n IH]; intros j Hj; [lia|].
  destruct j; simpl; [reflexivity | apply IH; lia].
Qed.

Lemma nth_map_Fin (l : list R) (j : nat) :
  (j < length l)%nat -> nth j (map Fin l) NaN = Fin (nth j l 0).
Proof.
  intros Hj. rewrite (nth_indep _ NaN (Fin 0)) by (now rewrite length_map).
  apply (map_nth Fin).
Qed.

Lemma aget_map_Fin (l : list R) (j : nat) :
  (j < length l)%nat -> (map Fin l).[Z.of_nat j] = Fin (nth j l 0).
Proof. intros Hj. rewrite aget_nat. now apply nth_map_Fin. Qed.

(** ** Results of the four derivations *)

Lemma calculateFromPxPy_rows data :
  let out := calculateFromPxPy data in
  let N := length (px data) in
  (px out = px data /\ py out = py data) /\
  (length (vx out) = N /\ length (vy out) = N /\
   length (oz out) = N /\ length (wz out) = N) /\
  forall j, (j < N)%nat ->
    nth j (vx out) NaN = finite_diff (px data) N j /\
    nth j (vy out) NaN = finite_diff (py data) N j /\
    nth j (oz out) NaN =
      heading (nth j (vx out) NaN) (nth j (vy out) NaN) j
              (nth (pred j) (oz out) NaN) /\
    nth j (wz out) NaN =
      yaw_rate j (nth j (oz out) NaN) (nth (pred j) (oz out) NaN).
Proof.
  intros out N. destruct (PxPy_final data) as (HL & Hrows & _).
  split; [split; reflexivity|]. split.
  - unfold out, calculateFromPxPy; simpl. tauto.
  - intros j Hj. exact (Hrows j Hj).
Qed.

Lemma calculateFromVxVy_rows data :
  let out := calculateFromVxVy data in
  let N := length (vx data) in
  let x0 := Js.or (px data).[0] (Fin 0) in
  let y0 := Js.or (py data).[0] (Fin 0) in
  (vx out = vx data /\ vy out = vy data) /\
  (length (px out) = N /\ length (py out) = N /\
   length (oz out) = N /\ length (wz out) = N) /\
  forall j, (j < N)%nat ->
    nth j (px out) NaN = integ x0 (fun i => (vx data).[Z.of_nat i]) j /\
    nth j (py out) NaN = integ y0 (fun i => (vy data).[Z.of_nat i]) j /\
    nth j (oz out) NaN =
      heading (vx data).[Z.of_nat j] (vy data).[Z.of_nat j] j
              (nth (pred j) (oz out) NaN) /\
    nth j (wz out) NaN =
      yaw_rate j (nth j (oz out) NaN) (nth (pred j) (oz out) NaN).
Proof.
  intros out N x0 y0. destruct (VxVy_final data) as (HL & _ & Hrows & _).
  split; [split; reflexivity|]. split.
  - unfold out, calculateFromVxVy; simpl. tauto.
  - intros j Hj. exact (Hrows j Hj).
Qed.

Lemma calculateFromVxWz_rows data :
  let out := calculateFromVxWz data in
  let N := length (vx data) in
  let x0 := Js.or (px data).[0] (Fin 0) in
  let y0 := Js.or (py data).[0] (Fin 0) in
  (vx out = vx data /\ wz out = wz data) /\
  (length (px out) = N /\ length (py out) = N /\
   length (oz out) = N /\ length (vy out) = N) /\
  forall j, (j < N)%nat ->
    nth j (px out) NaN = integ x0 (fun i => (vx data).[Z.of_nat i]) j /\
    nth j (py out) NaN = integ y0 (vy_VxWz data) j /\
    nth j (oz out) NaN = theta_at data j /\
    nth j (vy out) NaN = vy_VxWz data j.
Proof.
  intros out N x0 y0. destruct (VxWz_final data) as (HL & _ & Hrows).
  split; [split; reflexivity|]. split.
  - unfold out, calculateFromVxWz; simpl. tauto.
  - intros j Hj. exact (Hrows j Hj).
Qed.

Lemma calculateFromPxOz_rows data :
  let out := calculateFromPxOz data in
  let N := length (px data) in
  let y0 := Js.or (py data).[0] (Fin 0) in
  (px out = px data /\ oz out = oz data) /\
  (length (py out) = N /\ length (vx out) = N /\
   length (vy out) = N /\ length (wz out) = N) /\
  forall j, (j < N)%nat ->
    nth j (py out) NaN = integ y0 (vy_PxOz data) j /\
    nth j (vx out) NaN = finite_diff (px data) N j /\
    nth j (vy out) NaN = vy_PxOz data j /\
    nth j (wz out) NaN =
      yaw_rate j (oz data).[Z.of_nat j] (oz data).[Z.of_nat j - 1].
Proof.
  intros out N y0. destruct (PxOz_final data) as (HL & _ & Hrows & _).
  split; [split; reflexivity|]. split.
  - unfold out, calculateFromPxOz; simpl. tauto.
  - intros j Hj. exact (Hrows j Hj).
Qed.

(** ** Seeds and integration over real buffers *)

Lemma or_seed (a : list num) : Js.or a.[0] (Fin 0) = Fin (seed a).
Proof.
  unfold Js.or, aget, seed; simpl.
  destruct a as [|[r|] t]; simpl; try reflexivity.
  destruct (Req_dec_T r 0) as [->|]; reflexivity.
Qed.

Lemma sumR_firstn_S (l : list R) (i : nat) :
  (i < length l)%nat ->
  sumR (firstn (S i) l) = sumR (firstn i l) + nth i l 0.
Proof.
  revert i; induction l as [|h t IH]; intros i Hi; simpl in *; [lia|].
  destruct i as [|i].
  - simpl. lra.
  - cbn [firstn sumR fold_right nth] in *.
    fold (sumR (firstn (S i) t)). fold (sumR (firstn i t)).
    rewrite IH by lia. lra.
Qed.

(** An accumulator fed with real increments holds the seed plus the time
    step times the sum of the increments so far. *)
Lemma integ_sum (x0 : R) (f : nat -> num) (vs : list R) (i : nat) :
  (i <= length vs)%nat ->
  (forall j, (j < i)%nat -> f j = Fin (nth j vs 0)) ->
  integ (Fin x0) f i = Fin (x0 + CONFIG.dt * sumR (firstn i vs)).
Proof.
  induction i as [|i IH]; intros Hi Hf.
  - simpl. f_equal. unfold sumR; simpl. lra.
  - cbn [integ]. rewrite IH by (try lia; intros; apply Hf; lia).
    rewrite Hf by lia. rewrite sumR_firstn_S by lia. simpl. f_equal. lra.
Qed.

Lemma integ_fin (x0 : R) (f : nat -> num) (i : nat) :
  (forall j, (j < i)%nat -> is_fin (f j)) ->
  is_fin (integ (Fin x0) f i).
Proof.
  induction i as [|i IH]; intros Hf.
  - now exists x0.
  - cbn [integ]. destruct IH as [x ->]; [intros; apply Hf; lia|].
    destruct (Hf i) as [v ->]; [lia|]. simpl. now eexists.
Qed.

(** ** Orientation *)

Lemma atan2R_range (y x : R) : - PI < Js.atan2R y x <= PI.
Proof.
  unfold Js.atan2R. pose proof PI_RGT_0 as Hpi.
  pose proof (atan_bound (y / x)) as Hb.
  destruct (Rlt_dec 0 x) as [Hx|Hx]; [lra|].
  destruct (Rlt_dec x 0) as [Hx'|Hx'].
  - assert (Hinv : / x < 0) by (apply Rinv_lt_0_compat; exact Hx').
    destruct (Rlt_dec y 0) as [Hy|Hy].
    + assert (0 < y / x).
      { unfold Rdiv. replace (y * / x) with ((- y) * (- / x)) by ring.
        apply Rmult_lt_0_compat; lra. }
      pose proof (atan_increasing 0 (y / x) H) as Hinc.
      rewrite atan_0 in Hinc. lra.
    + assert (H : y / x <= 0).
      { unfold Rdiv. replace (y * / x) with (- (y * (- / x))) by ring.
        assert (0 <= y * (- / x)) by (apply Rmult_le_pos; lra). lra. }
      destruct H as [H|H].
      * pose proof (atan_increasing (y / x) 0 H) as Hinc.
        rewrite atan_0 in Hinc. lra.
      * rewrite H, atan_0. lra.
  - destruct (Rlt_dec 0 y); [lra|]. destruct (Rlt_dec y 0); lra.
Qed.

Lemma gt_Fin_true (a b : R) : Js.gt (Fin a) (Fin b) = true <-> b < a.
Proof.
  unfold Js.gt. destruct (Rlt_dec b a); split; intros; auto; discriminate.
Qed.

Lemma heading_real (a b : R) (i : nat) (prev : num) :
  heading (Fin a) (Fin b) i prev =
  if Rlt_dec (1 / 100) (sqrt (a * a + b * b))
  then Fin (Js.atan2R b a)
  else match i with O => Fin 0 | S _ => prev end.
Proof.
  unfold heading. simpl.
  destruct (Rlt_dec (1 / 100) (sqrt (a * a + b * b))); reflexivity.
Qed.

Lemma in_oc_0 : in_oc (Fin 0).
Proof. exists 0. pose proof PI_RGT_0. split; [reflexivity | lra]. Qed.

Lemma heading_in_oc (vxi vyi : num) (i : nat) (prev : num) :
  match i with O => True | S _ => in_oc prev end ->
  in_oc (heading vxi vyi i prev).
Proof.
  intros Hprev.
  assert (Hstay : in_oc match i with O => Fin 0 | S _ => prev end).
  { destruct i; [apply in_oc_0 | exact Hprev]. }
  destruct vxi as [a|], vyi as [b|]; try exact Hstay.
  rewrite heading_real.
  destruct (Rlt_dec _ _); [|exact Hstay].
  eexists; split; [reflexivity | apply atan2R_range].
Qed.

(** An orientation array filled by the carry-forward rule stays in
    [(-PI, PI]]. *)
Lemma heading_rows_in_oc (ozs : list num) (f g : nat -> num) (N : nat) :
  (forall j, (j < N)%nat ->
     nth j ozs NaN = heading (f j) (g j) j (nth (pred j) ozs NaN)) ->
  forall j, (j < N)%nat -> in_oc (nth j ozs NaN).
Proof.
  intros Hrows j. induction j as [|j IH]; intros Hj.
  - rewrite Hrows by exact Hj. now apply heading_in_oc.
  - rewrite Hrows by exact Hj. apply heading_in_oc. simpl. apply IH. lia.
Qed.

Lemma oz_position_in_oc data j :
  (j < length (oz (calculateFromPxPy data)))%nat ->
  in_oc (nth j (oz (calculateFromPxPy data)) NaN).
Proof.
  destruct (calculateFromPxPy_rows data) as (_ & (_ & _ & Loz & _) & Hrows).
  rewrite Loz.
  apply (heading_rows_in_oc _
           (fun j => nth j (vx (calculateFromPxPy data)) NaN)
           (fun j => nth j (vy (calculateFromPxPy data)) NaN)).
  intros i Hi. apply (Hrows i Hi).
Qed.

Lemma oz_velocity_in_oc data j :
  (j < length (oz (calculateFromVxVy data)))%nat ->
  in_oc (nth j (oz (calculateFromVxVy data)) NaN).
Proof.
  destruct (calculateFromVxVy_rows data) as (_ & (_ & _ & Loz & _) & Hrows).
  rewrite Loz.
  apply (heading_rows_in_oc _
           (fun j => (vx data).[Z.of_nat j])
           (fun j => (vy data).[Z.of_nat j])).
  intros i Hi. apply (Hrows i Hi).
Qed.

Lemma wrap_closed_range (d : R) :
  - 2 * PI < d < 2 * PI -> - PI <= wrap_closed d <= PI.
Proof.
  intros Hd. unfold wrap_closed.
  destruct (Rlt_dec PI d); [lra|]. destruct (Rlt_dec d (- PI)); lra.
Qed.

(** The yaw rate between two headings of [(-PI, PI]]. *)
Lemma yaw_rate_real (j : nat) (a b : R) :
  - PI < a <= PI -> - PI < b <= PI ->
  yaw_rate (S j) (Fin a) (Fin b) = Fin (wrap_closed (a - b) / CONFIG.dt).
Proof.
  intros Ha Hb. unfold yaw_rate. simpl. f_equal. f_equal.
  apply normalizeR_near. lra.
Qed.

(** ** Differences of real buffers *)

Lemma finite_diff_real (zs : list R) (i : nat) :
  (2 <= length zs)%nat -> (i < length zs)%nat ->
  finite_diff (map Fin zs) (length zs) i = Fin (diffR zs (length zs) i).
Proof.
  intros HN Hi. unfold finite_diff, diffR.
  destruct (Nat.ltb_spec (S i) (length zs)) as [Hlt|Hge].
  - destruct (Z.ltb_spec (Z.of_nat i) (Z.of_nat (length zs) - 1)); [|lia].
    rewrite aget_succ, aget_nat, !nth_map_Fin by lia. reflexivity.
  - destruct (Z.ltb_spec (Z.of_nat i) (Z.of_nat (length zs) - 1)); [lia|].
    rewrite aget_pred, aget_nat. destruct i as [|j]; [lia|].
    rewrite !nth_map_Fin by lia. simpl. now rewrite Nat.sub_0_r.
Qed.

(** Position mode on real buffers: the velocities are the differences, the
    orientation follows the carry-forward rule, and the yaw rate is the
    heading difference after one pass of the two loops, over [dt]. *)
Lemma calculateFromPxPy_real (data : InputData) (xs ys : list R) :
  px data = map Fin xs -> py data = map Fin ys ->
  length xs = length ys -> (2 <= length xs)%nat ->
  let out := calculateFromPxPy data in
  let N := length xs in
  forall i, (i < N)%nat ->
    nth i (vx out) NaN = Fin (diffR xs N i) /\
    nth i (vy out) NaN = Fin (diffR ys N i) /\
    exists a b : R,
      nth i (oz out) NaN = Fin a /\
      match i with O => b = 0 | S j => nth j (oz out) NaN = Fin b end /\
      a = (if Rlt_dec (1 / 100)
                (sqrt (diffR xs N i * diffR xs N i
                       + diffR ys N i * diffR ys N i))
           then Js.atan2R (diffR ys N i) (diffR xs N i)
           else b) /\
      nth i (wz out) NaN
        = match i with
          | O => Fin 0
          | S _ => Fin (wrap_closed (a - b) / CONFIG.dt)
          end /\
      - PI <= wrap_closed (a - b) <= PI.
Proof.
  intros Hx Hy Hlen HN out N i Hi.
  destruct (calculateFromPxPy_rows data) as (_ & (_ & _ & Loz & _) & Hrows).
  rewrite Hx, length_map in Loz, Hrows. fold out N in Loz, Hrows.
  destruct (Hrows i Hi) as (Evx & Evy & Eoz & Ewz).
  rewrite finite_diff_real in Evx by (assumption || lia).
  rewrite Hy in Evy. unfold N in Evy. rewrite Hlen in Evy.
  rewrite finite_diff_real in Evy by lia.
  rewrite <- Hlen in Evy. fold N in Evx, Evy.
  split; [exact Evx|]. split; [exact Evy|].
  assert (Hoc : forall j, (j < N)%nat -> in_oc (nth j (oz out) NaN)).
  { intros j Hj. apply oz_position_in_oc. fold out. rewrite Loz. exact Hj. }
  destruct (Hoc i Hi) as (a & Ea & Ra).
  rewrite Evx, Evy, heading_real in Eoz.
  destruct i as [|j].
  - exists a, 0. split; [exact Ea|]. split; [reflexivity|]. split.
    + rewrite Ea in Eoz. destruct (Rlt_dec _ _); now inversion Eoz.
    + split; [exact Ewz|]. apply wrap_closed_range.
      pose proof PI_RGT_0. lra.
  - destruct (Hoc j) as (b & Eb & Rb); [lia|].
    exists a, b. split; [exact Ea|]. split; [exact Eb|]. split.
    + simpl pred in Eoz. rewrite Ea, Eb in Eoz.
      destruct (Rlt_dec _ _); now inversion Eoz.
    + split.
      * rewrite Ewz. simpl pred. rewrite Ea, Eb. now apply yaw_rate_real.
      * apply wrap_closed_range. lra.
Qed.

(** ** Integration modes on real driving signals *)

Lemma calculateFromVxVy_real (data : InputData) (vxs vys : list R) :
  vx data = map Fin vxs -> vy data = map Fin vys ->
  length vxs = length vys ->
  let out := calculateFromVxVy data in
  length (px out) = length vxs /\ length (py out) = length vxs /\
  forall i, (i < length vxs)%nat ->
    nth i (px out) NaN
      = Fin (seed (px data) + CONFIG.dt * sumR (firstn i vxs)) /\
    nth i (py out) NaN
      = Fin (seed (py data) + CONFIG.dt * sumR (firstn i vys)).
Proof.
  intros Hvx Hvy Hlen out.
  destruct (calculateFromVxVy_rows data) as (_ & (Lx & Ly & _) & Hrows).
  fold out in Lx, Ly, Hrows.
  rewrite Hvx, length_map in Lx, Ly, Hrows.
  split; [exact Lx|]. split; [exact Ly|].
  intros i Hi. destruct (Hrows i Hi) as (Ex & Ey & _).
  rewrite Ex, Ey, !or_seed. split.
  - apply integ_sum; [lia|]. intros j Hj. rewrite aget_map_Fin by lia.
    reflexivity.
  - apply integ_sum; [lia|]. intros j Hj. rewrite Hvy.
    rewrite aget_map_Fin by lia. reflexivity.
Qed.

Lemma normalize_in_cc (a : num) : is_fin a -> in_cc (normalize a).
Proof.
  intros [r ->]. simpl. eexists; split; [reflexivity|].
  apply normalizeR_range.
Qed.

Lemma in_cc_fin (a : num) : in_cc a -> is_fin a.
Proof. intros (r & -> & _). now exists r. Qed.

(** [theta] is a number throughout, and within [[-PI, PI]] from the first
    increment on. *)
Lemma theta_at_fin (data : InputData) (wzs : list R) (j : nat) :
  wz data = map Fin wzs -> (j <= length wzs)%nat ->
  is_fin (theta_at data j) /\ ((1 <= j)%nat -> in_cc (theta_at data j)).
Proof.
  intros Hwz. induction j as [|j IH]; intros Hj.
  - split; [|lia]. simpl. rewrite or_seed. now eexists.
  - destruct IH as [[t Et] _]; [lia|].
    assert (H : in_cc (theta_at data (S j))).
    { cbn [theta_at]. apply normalize_in_cc.
      rewrite Et, Hwz, aget_map_Fin by lia. simpl. now eexists. }
    split; [apply in_cc_fin; exact H | intros _; exact H].
Qed.

Lemma vy_VxWz_fin (data : InputData) (vxs wzs : list R) (j : nat) :
  vx data = map Fin vxs -> wz data = map Fin wzs ->
  length vxs = length wzs -> (j < length vxs)%nat ->
  is_fin (vy_VxWz data j).
Proof.
  intros Hvx Hwz Hlen Hj. unfold vy_VxWz.
  destruct (theta_at_fin data wzs j Hwz) as [[t ->] _]; [lia|].
  rewrite Hvx, aget_map_Fin by lia. simpl. now eexists.
Qed.

Lemma vy_PxOz_fin (data : InputData) (xs ozs : list R) (j : nat) :
  px data = map Fin xs -> oz data = map Fin ozs ->
  length xs = length ozs -> (S j < length xs)%nat ->
  is_fin (vy_PxOz data j).
Proof.
  intros Hx Hoz Hlen Hj. unfold vy_PxOz.
  rewrite Hx, length_map, finite_diff_real by lia.
  rewrite Hoz, aget_map_Fin by lia. simpl. now eexists.
Qed.

(** The first recorded sample of an integrated output is its seed. *)
Lemma seeded_outputs (data : InputData) (mode : Methods) (key : InputKey) :
  In key (integrated mode) ->
  (1 <= length (field data (primary mode)))%nat ->
  nth 0 (field (getCompleteTrajectoryData data mode) key) NaN
  = Fin (seed (field data key)).
Proof.
  intros Hin HN. destruct mode; simpl in Hin, HN.
  - contradiction.
  - destruct (calculateFromVxVy_rows data) as (_ & _ & Hrows).
    destruct (Hrows O HN) as (Ex & Ey & _). rewrite or_seed in Ex, Ey.
    destruct Hin as [<-|[<-|[]]]; assumption.
  - destruct (calculateFromVxWz_rows data) as (_ & _ & Hrows).
    destruct (Hrows O HN) as (Ex & Ey & Eo & _).
    rewrite or_seed in Ex, Ey. cbn [theta_at] in Eo. rewrite or_seed in Eo.
    destruct Hin as [<-|[<-|[<-|[]]]]; assumption.
  - destruct (calculateFromPxOz_rows data) as (_ & _ & Hrows).
    destruct (Hrows O HN) as (Ey & _). rewrite or_seed in Ey.
    destruct Hin as [<-|[]]; assumption.
Qed.


(** ** Evaluation on the horizontal axis *)

Lemma atan2R_x_neg (x : R) : x < 0 -> Js.atan2R 0 x = PI.
Proof.
  intros Hx. unfold Js.atan2R.
  destruct (Rlt_dec 0 x); [lra|]. destruct (Rlt_dec x 0); [|lra].
  destruct (Rlt_dec 0 0); [lra|].
  unfold Rdiv. rewrite Rmult_0_l, atan_0. lra.
Qed.

Lemma atan2R_x_pos (x : R) : 0 < x -> Js.atan2R 0 x = 0.
Proof.
  intros Hx. unfold Js.atan2R.
  destruct (Rlt_dec 0 x); [|lra].
  unfold Rdiv. rewrite Rmult_0_l. apply atan_0.
Qed.

Lemma speed_x (x : R) : sqrt (x * x + 0 * 0) = Rabs x.
Proof.
  replace (x * x + 0 * 0) with (Rsqr x) by (unfold Rsqr; ring).
  apply sqrt_Rsqr_abs.
Qed.

(* ------------------------------------------------------------------ *)
(** ** The synchronization controller *)

Lemma has_In (keys : list InputKey) (key : InputKey) :
  has keys key = true <-> In key keys.
Proof.
  unfold has. rewrite existsb_exists. split.
  - intros (k & Hin & E). destruct key, k; try discriminate E; exact Hin.
  - intros Hin. exists key. split; [exact Hin | now destruct key].
Qed.

(** What the synchronization step leaves in the store: the metrics in the
    output cells, the derived values in the cells of the signals the mode
    does not drive, and everything else as it was. *)
Lemma syncOutputDataAtom_store (st : Store) :
  let st' := run syncOutputDataAtom st in
  (forall k, inputDataAtomFamily st' k =
             if has (METHODS_inputs (methodAtom st)) k
             then inputDataAtomFamily st k
             else field (completeTrajectoryDataAtom st) k) /\
  (forall k, outputDataAtomFamily st' k
             = out_field (outputDataInternalAtom st) k) /\
  (forall k, gtAtomFamily st' k = gtAtomFamily st k) /\
  methodAtom st' = methodAtom st.
Proof.
  destruct st as [inp outp gt mode].
  destruct mode; (split; [|split; [|split]]);
    try (intros k; destruct k); reflexivity.
Qed.

Lemma syncOutputDataAtom_trace (st : Store) :
  sync_runs (trace syncOutputDataAtom st) = 1%nat.
Proof.
  destruct st as [inp outp gt mode]. destruct mode; reflexivity.
Qed.

Lemma set_input_store (key : InputKey) (v : list num) (st : Store) :
  let st' := run (set_input key v) st in
  (forall k, inputDataAtomFamily st' k = with_input st key v k) /\
  outputDataAtomFamily st' = outputDataAtomFamily st /\
  gtAtomFamily st' = gtAtomFamily st /\
  methodAtom st' = methodAtom st.
Proof. repeat split. Qed.

Lemma run_bind {A B : Type} (m : Action A) (f : A -> Action B) (st : Store) :
  run (bind m f) st = run (f (result m st)) (run m st).
Proof.
  unfold run, result, bind. destruct (m st) as [[a st1] t1]. simpl.
  destruct (f a st1) as [[b st2] t2]. reflexivity.
Qed.

Lemma trace_bind {A B : Type} (m : Action A) (f : A -> Action B)
    (st : Store) :
  trace (bind m f) st = trace m st ++ trace (f (result m st)) (run m st).
Proof.
  unfold run, result, trace, bind. destruct (m st) as [[a st1] t1]. simpl.
  destruct (f a st1) as [[b st2] t2]. reflexivity.
Qed.

Lemma sync_runs_app (t1 t2 : list event) :
  sync_runs (t1 ++ t2) = (sync_runs t1 + sync_runs t2)%nat.
Proof. unfold sync_runs. now rewrite filter_app, length_app. Qed.

(** The derived state depends on the six input cells and the mode only. *)
Lemma completeTrajectoryDataAtom_cells (st st' : Store) :
  (forall k, inputDataAtomFamily st' k = inputDataAtomFamily st k) ->
  methodAtom st' = methodAtom st ->
  completeTrajectoryDataAtom st' = completeTrajectoryDataAtom st.
Proof.
  intros Hc Hm. unfold completeTrajectoryDataAtom, inputDataAtom.
  now rewrite Hm, !Hc.
Qed.

Lemma batchUpdate_input_run (k : InputKey) (updates : list Update)
    (st : Store) :
  run (batchUpdateTimeSeriesAtom (DIn k) updates) st
  = run syncOutputDataAtom
      (run (set_input k (apply_updates (inputDataAtomFamily st k) updates))
           st).
Proof.
  unfold batchUpdateTimeSeriesAtom. cbn [existsb DataKey_eqb orb].
  now rewrite !run_bind.
Qed.

Lemma state_of_cells (st : Store) (cells : InputKey -> list num) :
  (forall k, inputDataAtomFamily st k = cells k) ->
  inputDataAtom st = state_of cells.
Proof. intros H. unfold inputDataAtom, state_of. now rewrite !H. Qed.

(** After the cells were given the contents [cells], the synchronization
    step keeps the driving cells and overwrites the four others with the
    state derived from [cells]. *)
Lemma sync_after (st1 : Store) (cells : InputKey -> list num) :
  (forall k, inputDataAtomFamily st1 k = cells k) ->
  forall k,
    inputDataAtomFamily (run syncOutputDataAtom st1) k =
    if has (METHODS_inputs (methodAtom st1)) k
    then cells k
    else field (getCompleteTrajectoryData (state_of cells) (methodAtom st1)) k.
Proof.
  intros Hc k.
  destruct (syncOutputDataAtom_store st1) as (Hin & _).
  rewrite Hin, Hc. unfold completeTrajectoryDataAtom.
  now rewrite (state_of_cells st1 cells Hc).
Qed.

(** ** Import *)

Lemma push_zeros_spec (fuel : nat) (padded : list num) (n : nat) :
  (n - length padded <= fuel)%nat ->
  push_zeros fuel padded n = padded ++ repeat (Fin 0) (n - length padded).
Proof.
  revert padded; induction fuel as [|fuel IH]; intros padded Hf.
  - simpl. replace (n - length padded)%nat with O by lia.
    now rewrite app_nil_r.
  - simpl. destruct (Nat.ltb_spec (length padded) n) as [Hlt|Hge].
    + rewrite IH by (rewrite length_app; simpl; lia).
      rewrite length_app. simpl.
      replace (n - length padded)%nat
        with (S (n - (length padded + 1)))%nat by lia.
      simpl. now rewrite <- app_assoc.
    + replace (n - length padded)%nat with O by lia.
      now rewrite app_nil_r.
Qed.

Lemma padOrTruncate_spec (arr : list num) (n : nat) :
  padOrTruncate arr n = firstn n arr ++ repeat (Fin 0) (n - length arr).
Proof.
  unfold padOrTruncate.
  destruct (Nat.eqb_spec (length arr) n) as [E|NE].
  - subst n. rewrite firstn_all, Nat.sub_diag. simpl. now rewrite app_nil_r.
  - destruct (Nat.ltb_spec n (length arr)) as [Hlt|Hge].
    + replace (n - length arr)%nat with O by lia. simpl.
      now rewrite app_nil_r.
    + rewrite push_zeros_spec by lia. now rewrite firstn_all2 by lia.
Qed.

Lemma validateImportData_false (fields : PartialInputData) :
  validateImportData (JObject fields) = false <-> forall k, fields k = None.
Proof.
  simpl. split.
  - intros H k.
    destruct (fields Kpx) eqn:E1, (fields Kpy) eqn:E2, (fields Koz) eqn:E3,
             (fields Kvx) eqn:E4, (fields Kvy) eqn:E5, (fields Kwz) eqn:E6;
      try discriminate H.
    destruct k; assumption.
  - intros H. now rewrite !H.
Qed.

Lemma import_loop_store (data : PartialInputData) (st : Store) :
  let st1 := run (for_each inputKeys (fun key =>
                    match data key with
                    | Some arr => set_input key arr
                    | None => ret tt
                    end)) st in
  (forall k, inputDataAtomFamily st1 k = merged st data k) /\
  methodAtom st1 = methodAtom st.
Proof.
  unfold run, merged. cbn.
  destruct (data Kpx) eqn:E1, (data Kpy) eqn:E2, (data Koz) eqn:E3,
           (data Kvx) eqn:E4, (data Kvy) eqn:E5, (data Kwz) eqn:E6;
    (split; [|reflexivity]);
    intros k; destruct k;
    rewrite ?E1, ?E2, ?E3, ?E4, ?E5, ?E6; reflexivity.
Qed.

Lemma importTrajectoryAtom_store (data : PartialInputData) (st : Store) :
  forall k,
    inputDataAtomFamily (run (importTrajectoryAtom data) st) k =
    if has (METHODS_inputs (methodAtom st)) k
    then merged st data k
    else field (getCompleteTrajectoryData (state_of (merged st data))
                  (methodAtom st)) k.
Proof.
  intros k. unfold importTrajectoryAtom. rewrite run_bind.
  destruct (import_loop_store data st) as (Hc & Hm).
  rewrite (sync_after _ (merged st data) Hc). now rewrite Hm.
Qed.

(** The arrays of a document after length normalization. *)
Lemma importData_run (fields : PartialInputData) (st : Store) :
  validateImportData (JObject fields) = true ->
  importData (JObject fields) st =
  (Imported,
   run (importTrajectoryAtom
          (fun key => option_map
                        (fun arr => padOrTruncate arr CONFIG.timeSteps)
                        (fields key))) st,
   trace (importTrajectoryAtom
          (fun key => option_map
                        (fun arr => padOrTruncate arr CONFIG.timeSteps)
                        (fields key))) st).
Proof.
  intros Hv. unfold importData. rewrite Hv. cbn [negb].
  unfold bind, ret, run, trace, option_map.
  destruct (importTrajectoryAtom _ st) as [[u st1] t1].
  simpl. now rewrite app_nil_r.
Qed.

(** ** Small runs *)

Example padOrTruncate_pads :
  padOrTruncate [Fin 1; Fin 2; Fin 3] 5 = [Fin 1; Fin 2; Fin 3; Fin 0; Fin 0].
Proof. reflexivity. Qed.

Example padOrTruncate_truncates :
  padOrTruncate [Fin 1; Fin 2; Fin 3; Fin 4] 2 = [Fin 1; Fin 2].
Proof. reflexivity. Qed.

Example aset_beyond_end : aset [Fin 1] 3 (Fin 9) = [Fin 1; NaN; NaN; Fin 9].
Proof. reflexivity. Qed.

Example apply_updates_in_order :
  apply_updates [Fin 0; Fin 0; Fin 0]
                [mkUpdate 1 (Fin 4); mkUpdate 2 (Fin 5); mkUpdate 1 (Fin 6)]
  = [Fin 0; Fin 6; Fin 5].
Proof. reflexivity. Qed.

(** Two headings across the [PI] boundary, [3] then [-3]: the difference
    [-6] is brought back by one turn. *)
Example normalize_across_boundary :
  normalize (Fin (-3) - Fin 3)%J = Fin (-6 + 2 * PI).
Proof.
  simpl. f_equal. pose proof PI2_1. pose proof PI_4.
  rewrite normalizeR_near by lra.
  destruct (Rlt_dec PI (-3 - 3)); [lra|].
  destruct (Rlt_dec (-3 - 3) (- PI)); lra.
Qed.

Example rejected_document_trace :
  forall st, trace (importData JNotObject) st = [].
Proof. reflexivity. Qed.

(* ------------------------------------------------------------------ *)
(** * The claims *)

(** C1 (as the code has it).  Every [oz[i]] of the output lies in the
    closed interval [[-PI, PI]]: (1) in position and velocity mode, for
    every input; (2) in every mode, for every input state of equal-length
    buffers whose [oz] and [wz] are real numbers and whose [oz] entries lie
    in [[-PI, PI]].  The restriction on the input is needed because (3)
    integral mode stores the seed, the prior [oz[0]], at index 0 as it is,
    and (4) differential mode returns the driving [oz] unchanged. *)
Theorem C1_orientation_range :
  (forall (data : InputData) (mode : Methods),
     mode = position \/ mode = velocity ->
     let out := getCompleteTrajectoryData data mode in
     forall i, (i < length (oz out))%nat -> in_cc (nth i (oz out) NaN)) /\
  (forall (data : InputData) (mode : Methods) (ozs wzs : list R),
     equal_length data ->
     oz data = map Fin ozs -> wz data = map Fin wzs ->
     Forall (fun r => - PI <= r <= PI) ozs ->
     let out := getCompleteTrajectoryData data mode in
     forall i, (i < length (oz out))%nat -> in_cc (nth i (oz out) NaN)) /\
  (forall data : InputData,
     (1 <= length (vx data))%nat ->
     nth 0 (oz (getCompleteTrajectoryData data integral)) NaN
     = Fin (seed (oz data))) /\
  (forall data : InputData,
     oz (getCompleteTrajectoryData data differential) = oz data).
Proof.
  split; [|split; [|split]].
  - intros data mode [-> | ->] out i Hi.
    + destruct (oz_position_in_oc data i Hi) as (r & E & Hrng).
      exists r. split; [exact E | lra].
    + destruct (oz_velocity_in_oc data i Hi) as (r & E & Hrng).
      exists r. split; [exact E | lra].
  - intros data mode ozs wzs (Lpy & Loz & Lvx & Lvy & Lwz) Hoz Hwz Hr out i Hi.
    assert (Hin : forall j, (j < length ozs)%nat ->
                    in_cc (nth j (map Fin ozs) NaN)).
    { intros j Hj. rewrite nth_map_Fin by exact Hj.
      eexists; split; [reflexivity|].
      rewrite Forall_forall in Hr. apply Hr. now apply nth_In. }
    destruct mode.
    + destruct (oz_position_in_oc data i Hi) as (r & E & Hrng).
      exists r. split; [exact E | lra].
    + destruct (oz_velocity_in_oc data i Hi) as (r & E & Hrng).
      exists r. split; [exact E | lra].
    + unfold out in *; cbn [getCompleteTrajectoryData] in *.
      destruct (calculateFromVxWz_rows data) as (_ & (_ & _ & Lo & _) & Hrows).
      rewrite Lo in Hi. destruct (Hrows i Hi) as (_ & _ & -> & _).
      assert (Hlen : length wzs = length (vx data)).
      { rewrite <- (length_map Fin wzs), <- Hwz. lia. }
      destruct i as [|i].
      * cbn [theta_at]. rewrite or_seed, Hoz.
        assert (Hz : (0 < length ozs)%nat).
        { rewrite <- (length_map Fin ozs), <- Hoz. lia. }
        specialize (Hin O Hz). destruct ozs as [|r t]; [simpl in Hz; lia|].
        exact Hin.
      * apply (theta_at_fin data wzs (S i) Hwz); lia.
    + unfold out in *; cbn [getCompleteTrajectoryData] in *.
      destruct (calculateFromPxOz_rows data) as ((_ & Eo) & _ & _).
      rewrite Eo in *. rewrite Hoz in *. rewrite length_map in Hi.
      now apply Hin.
  - intros data HN.
    apply (seeded_outputs data integral Koz); [simpl; auto | exact HN].
  - intros data.
    destruct (calculateFromPxOz_rows data) as ((_ & Eo) & _ & _). exact Eo.
Qed.

Lemma C1_orientation_range_witness :
  let data := mkInputData [Fin 0; Fin 0] [Fin 0; Fin 0] [Fin 3; Fin 0]
                          [Fin 1; Fin 1] [Fin 0; Fin 0] [Fin 1; Fin 1] in
  in_cc (nth 1 (oz (getCompleteTrajectoryData data position)) NaN) /\
  in_cc (nth 1 (oz (getCompleteTrajectoryData data integral)) NaN).
Proof.
  intros data. destruct C1_orientation_range as (H1 & H2 & _).
  split.
  - apply (H1 data position (or_introl eq_refl)).
    destruct (calculateFromPxPy_rows data) as (_ & (_ & _ & L & _) & _).
    cbn [getCompleteTrajectoryData]. rewrite L. simpl. lia.
  - apply (H2 data integral [3; 0] [1; 1]).
    + repeat split.
    + reflexivity.
    + reflexivity.
    + pose proof PI2_3_2. pose proof PI_RGT_0.
      repeat constructor; lra.
    + destruct (calculateFromVxWz_rows data) as (_ & (_ & _ & L & _) & _).
      cbn [getCompleteTrajectoryData]. rewrite L. simpl. lia.
Defined.

(** C1, as stated, fails in three ways, each on an input state of
    equal-length buffers.  In integral mode the prior [oz[0] = 5] is stored
    at index 0, and [5 > PI].  In integral mode again, from [oz = [0, 0]]
    and [wz = [-10 PI, 0]] the heading after the first step is exactly
    [-PI], which the loops keep, and [-PI] is not in [(-PI, PI]].  In
    differential mode [oz = [5]] is returned as it is. *)
Lemma C1_counterexample :
  (nth 0 (oz (getCompleteTrajectoryData
                (mkInputData [Fin 0] [Fin 0] [Fin 5] [Fin 0] [Fin 0] [Fin 0])
                integral)) NaN = Fin 5 /\
   ~ (- PI < 5 <= PI)) /\
  (nth 1 (oz (getCompleteTrajectoryData
                (mkInputData [Fin 0; Fin 0] [Fin 0; Fin 0] [Fin 0; Fin 0]
                             [Fin 0; Fin 0] [Fin 0; Fin 0]
                             [Fin (-10 * PI); Fin 0])
                integral)) NaN = Fin (- PI) /\
   ~ (- PI < - PI <= PI)) /\
  (nth 0 (oz (getCompleteTrajectoryData
                (mkInputData [Fin 0] [Fin 0] [Fin 5] [Fin 0] [Fin 0] [Fin 0])
                differential)) NaN = Fin 5 /\
   ~ (- PI < 5 <= PI)).
Proof.
  pose proof PI_4 as H4. pose proof PI_RGT_0 as Hpi.
  split; [|split].
  - split; [|lra].
    apply (seeded_outputs
             (mkInputData [Fin 0] [Fin 0] [Fin 5] [Fin 0] [Fin 0] [Fin 0])
             integral Koz); simpl; auto.
  - split; [|lra].
    set (data := mkInputData _ _ _ _ _ _).
    destruct (calculateFromVxWz_rows data) as (_ & _ & Hrows).
    cbn [getCompleteTrajectoryData].
    destruct (Hrows 1%nat) as (_ & _ & -> & _); [simpl; lia|].
    cbn [theta_at]. rewrite or_seed. simpl. f_equal.
    replace (0 + -10 * PI * CONFIG.dt) with (- PI)
      by (unfold CONFIG.dt; field).
    rewrite normalizeR_near by lra.
    destruct (Rlt_dec PI (- PI)); [lra|].
    destruct (Rlt_dec (- PI) (- PI)); lra.
  - split; [|lra].
    set (data := mkInputData _ _ _ _ _ _).
    destruct (calculateFromPxOz_rows data) as ((_ & Eo) & _ & _).
    cbn [getCompleteTrajectoryData]. rewrite Eo. reflexivity.
Qed.

(** C2.  Round trip: for driving signals [vx], [vy] of real numbers and
    equal length [N], deriving in velocity mode and then deriving in
    position mode from the resulting [px], [py] -- from any state that
    holds them, whatever its four other signals are -- gives back [vx[i]]
    and [vy[i]] exactly at every interior index [i < N - 1] (there is one
    only when [N >= 2]). *)
Theorem C2_velocity_position_roundtrip :
  forall (data : InputData) (vxs vys : list R),
    vx data = map Fin vxs -> vy data = map Fin vys ->
    length vxs = length vys ->
    let mid := getCompleteTrajectoryData data velocity in
    forall state : InputData,
      px state = px mid -> py state = py mid ->
      let out := getCompleteTrajectoryData state position in
      forall i, (i < length vxs - 1)%nat ->
        nth i (vx out) NaN = Fin (nth i vxs 0) /\
        nth i (vy out) NaN = Fin (nth i vys 0).
Proof.
  intros data vxs vys Hvx Hvy Hlen mid state Hpx Hpy out i Hi.
  destruct (calculateFromVxVy_real data vxs vys Hvx Hvy Hlen)
    as (Lx & Ly & Hv).
  unfold mid in Hpx, Hpy; cbn [getCompleteTrajectoryData] in Hpx, Hpy.
  destruct (calculateFromPxPy_rows state) as (_ & _ & Hrows).
  rewrite Hpx, Hpy in Hrows. rewrite Lx in Hrows.
  destruct (Hrows i) as (Ex & Ey & _); [lia|].
  destruct (Hv i) as (Pxi & Pyi); [lia|].
  destruct (Hv (S i)) as (PxS & PyS); [lia|].
  unfold out; cbn [getCompleteTrajectoryData].
  rewrite Ex, Ey. unfold finite_diff.
  destruct (Z.ltb_spec (Z.of_nat i) (Z.of_nat (length vxs) - 1)); [|lia].
  rewrite !aget_succ, !aget_nat, Pxi, Pyi, PxS, PyS.
  rewrite !sumR_firstn_S by lia.
  simpl. unfold CONFIG.dt. split; f_equal; field.
Qed.

Lemma C2_velocity_position_roundtrip_witness :
  let mid :=
    getCompleteTrajectoryData
      (mkInputData [] [] [] [Fin 1; Fin 2; Fin 3] [Fin 4; Fin 5; Fin 6] [])
      velocity in
  let out :=
    getCompleteTrajectoryData
      (mkInputData (px mid) (py mid) [] [Fin 9; Fin 9; Fin 9] [NaN] [])
      position in
  nth 1 (vx out) NaN = Fin 2 /\ nth 1 (vy out) NaN = Fin 5.
Proof.
  intros mid.
  exact (C2_velocity_position_roundtrip
           (mkInputData [] [] [] [Fin 1; Fin 2; Fin 3]
                        [Fin 4; Fin 5; Fin 6] [])
           [1; 2; 3] [4; 5; 6] eq_refl eq_refl eq_refl
           (mkInputData (px mid) (py mid) [] [Fin 9; Fin 9; Fin 9] [NaN] [])
           eq_refl eq_refl 1%nat (le_n 2)).
Defined.

(** C3.  Velocity mode integrates the position forward: for driving
    signals [vx], [vy] of real numbers and equal length,
    [px[i] = x0 + dt * (vx[0] + ... + vx[i-1])] and
    [py[i] = y0 + dt * (vy[0] + ... + vy[i-1])] at every index, so that
    [px[0] = x0]; the seeds [x0], [y0] are the prior [px[0]], [py[0]] when
    present and [0] otherwise. *)
Theorem C3_velocity_integration :
  forall (data : InputData) (vxs vys : list R),
    vx data = map Fin vxs -> vy data = map Fin vys ->
    length vxs = length vys ->
    let out := getCompleteTrajectoryData data velocity in
    length (px out) = length vxs /\ length (py out) = length vxs /\
    forall i, (i < length vxs)%nat ->
      nth i (px out) NaN
        = Fin (seed (px data) + CONFIG.dt * sumR (firstn i vxs)) /\
      nth i (py out) NaN
        = Fin (seed (py data) + CONFIG.dt * sumR (firstn i vys)).
Proof.
  intros data vxs vys Hvx Hvy Hlen.
  exact (calculateFromVxVy_real data vxs vys Hvx Hvy Hlen).
Qed.

Lemma C3_velocity_integration_witness :
  let out := getCompleteTrajectoryData
               (mkInputData [Fin 2] [] [] [Fin 1; Fin 1; Fin 1]
                            [Fin 0; Fin 0; Fin 0] [])
               velocity in
  nth 2 (px out) NaN = Fin (2 + CONFIG.dt * sumR [1; 1]) /\
  nth 2 (py out) NaN = Fin (0 + CONFIG.dt * sumR [0; 0]).
Proof.
  exact (proj2 (proj2
    (C3_velocity_integration
       (mkInputData [Fin 2] [] [] [Fin 1; Fin 1; Fin 1]
                    [Fin 0; Fin 0; Fin 0] [])
       [1; 1; 1] [0; 0; 0] eq_refl eq_refl eq_refl)) 2%nat (le_n 3)).
Defined.

(** C4 (as the code has it).  In position mode, for [px], [py] of real
    numbers and equal length [N >= 2] and every index [i]: [vx[i]] and
    [vy[i]] are the forward difference [(x[i+1] - x[i]) / dt], the backward
    difference at the last index; [oz[i] = atan2 (vy[i], vx[i])] when
    [sqrt (vx[i]^2 + vy[i]^2) > 0.01] and otherwise [oz[i-1]] ([0] at
    [i = 0]); [wz[0] = 0] and, for [i > 0], [wz[i]] is the difference
    [oz[i] - oz[i-1]] brought into the closed interval [[-PI, PI]] -- less
    [2 PI] when above [PI], plus [2 PI] when below [-PI], and as it is
    otherwise, so that a difference of exactly [-PI] stays [-PI] --
    divided by [dt]. *)
Theorem C4_position_mode :
  forall (data : InputData) (xs ys : list R),
    px data = map Fin xs -> py data = map Fin ys ->
    length xs = length ys -> (2 <= length xs)%nat ->
    let out := getCompleteTrajectoryData data position in
    let N := length xs in
    forall i, (i < N)%nat ->
      nth i (vx out) NaN = Fin (diffR xs N i) /\
      nth i (vy out) NaN = Fin (diffR ys N i) /\
      exists a b : R,
        nth i (oz out) NaN = Fin a /\
        match i with O => b = 0 | S j => nth j (oz out) NaN = Fin b end /\
        a = (if Rlt_dec (1 / 100)
                  (sqrt (diffR xs N i * diffR xs N i
                         + diffR ys N i * diffR ys N i))
             then Js.atan2R (diffR ys N i) (diffR xs N i)
             else b) /\
        nth i (wz out) NaN
          = match i with
            | O => Fin 0
            | S _ => Fin (wrap_closed (a - b) / CONFIG.dt)
            end /\
        - PI <= wrap_closed (a - b) <= PI.
Proof.
  intros data xs ys Hx Hy Hlen HN.
  exact (calculateFromPxPy_real data xs ys Hx Hy Hlen HN).
Qed.

Lemma C4_position_mode_witness :
  let out := getCompleteTrajectoryData
               (mkInputData [Fin 0; Fin 1; Fin 3] [Fin 0; Fin 0; Fin 2]
                            [] [] [] [])
               position in
  nth 2 (vx out) NaN = Fin ((3 - 1) / CONFIG.dt) /\
  nth 2 (vy out) NaN = Fin ((2 - 0) / CONFIG.dt).
Proof.
  pose proof (C4_position_mode
                (mkInputData [Fin 0; Fin 1; Fin 3] [Fin 0; Fin 0; Fin 2]
                             [] [] [] [])
                [0; 1; 3] [0; 0; 2] eq_refl eq_refl eq_refl (le_S 2 2 (le_n 2))
                2%nat (le_n 3)) as (Hvx & Hvy & _).
  split; [exact Hvx | exact Hvy].
Defined.

(** C4, as stated, fails: a reversal along the x axis ([px = [1, 0, 1]],
    [py = [0, 0, 0]]) gives [oz = [PI, 0, ...]], a heading difference of
    exactly [-PI] at index 1, and [wz[1] = -PI / dt]; no value of
    [(-PI, PI]] divided by [dt] equals it. *)
Lemma C4_counterexample :
  let out := getCompleteTrajectoryData
               (mkInputData [Fin 1; Fin 0; Fin 1] [Fin 0; Fin 0; Fin 0]
                            [Fin 0; Fin 0; Fin 0] [Fin 0; Fin 0; Fin 0]
                            [Fin 0; Fin 0; Fin 0] [Fin 0; Fin 0; Fin 0])
               position in
  nth 0 (oz out) NaN = Fin PI /\
  nth 1 (oz out) NaN = Fin 0 /\
  nth 1 (wz out) NaN = Fin (- PI / CONFIG.dt) /\
  ~ (exists w : R,
       - PI < w <= PI /\ nth 1 (wz out) NaN = Fin (w / CONFIG.dt)).
Proof.
  intros out.
  pose proof (calculateFromPxPy_real
                (mkInputData [Fin 1; Fin 0; Fin 1] [Fin 0; Fin 0; Fin 0]
                             [Fin 0; Fin 0; Fin 0] [Fin 0; Fin 0; Fin 0]
                             [Fin 0; Fin 0; Fin 0] [Fin 0; Fin 0; Fin 0])
                [1; 0; 1] [0; 0; 0] eq_refl eq_refl eq_refl
                (le_S 2 2 (le_n 2))) as H.
  fold (getCompleteTrajectoryData
          (mkInputData [Fin 1; Fin 0; Fin 1] [Fin 0; Fin 0; Fin 0]
                       [Fin 0; Fin 0; Fin 0] [Fin 0; Fin 0; Fin 0]
                       [Fin 0; Fin 0; Fin 0] [Fin 0; Fin 0; Fin 0])
          position) in H.
  fold out in H. cbv zeta in H.
  assert (Dx0 : diffR [1; 0; 1] 3 0 = -10)
    by (unfold diffR, CONFIG.dt; simpl; field).
  assert (Dx1 : diffR [1; 0; 1] 3 1 = 10)
    by (unfold diffR, CONFIG.dt; simpl; field).
  assert (Dy0 : diffR [0; 0; 0] 3 0 = 0)
    by (unfold diffR, CONFIG.dt; simpl; field).
  assert (Dy1 : diffR [0; 0; 0] 3 1 = 0)
    by (unfold diffR, CONFIG.dt; simpl; field).
  destruct (H 0%nat) as (_ & _ & a0 & b0 & Ea0 & Eb0 & Ha0 & _); [simpl; lia|].
  destruct (H 1%nat) as (_ & _ & a1 & b1 & Ea1 & Eb1 & Ha1 & Ew1 & _);
    [simpl; lia|].
  simpl length in *.
  rewrite Dx0, Dy0, speed_x in Ha0. rewrite Dx1, Dy1, speed_x in Ha1.
  rewrite Rabs_left in Ha0 by lra. rewrite Rabs_right in Ha1 by lra.
  destruct (Rlt_dec (1 / 100) (- -10)) as [_|Hn]; [|lra].
  destruct (Rlt_dec (1 / 100) 10) as [_|Hn]; [|lra].
  rewrite atan2R_x_neg in Ha0 by lra. rewrite atan2R_x_pos in Ha1 by lra.
  subst a0 a1. rewrite Ea0 in Eb1. inversion Eb1 as [Eb]. subst b1.
  assert (Ew : wrap_closed (0 - PI) = - PI).
  { unfold wrap_closed. pose proof PI_RGT_0.
    destruct (Rlt_dec PI (0 - PI)); [lra|].
    destruct (Rlt_dec (0 - PI) (- PI)); lra. }
  rewrite Ew in Ew1.
  split; [exact Ea0|]. split; [exact Ea1|]. split; [exact Ew1|].
  intros (w & Hw & Ewz). rewrite Ew1 in Ewz. inversion Ewz as [E].
  unfold CONFIG.dt in E. lra.
Qed.

(** C5.  After a batch update (a point update is a batch of one) of a
    signal that the active mode drives -- the update runs the
    synchronization step itself -- the edited buffer holds exactly what the
    caller wrote, the other driving buffer is untouched, and the four other
    input buffers hold the values derived from the edited state; running
    the synchronization step once more still leaves both driving buffers
    as the caller left them. *)
Theorem C5_driving_signals_kept :
  forall (st : Store) (key : InputKey) (updates : list Update),
    In key (METHODS_inputs (methodAtom st)) ->
    let written := apply_updates (inputDataAtomFamily st key) updates in
    let edited := with_input st key written in
    let st1 := run (batchUpdateTimeSeriesAtom (DIn key) updates) st in
    let st2 := run syncOutputDataAtom st1 in
    inputDataAtomFamily st1 key = written /\
    (forall k, In k (METHODS_inputs (methodAtom st)) ->
       inputDataAtomFamily st1 k = edited k /\
       inputDataAtomFamily st2 k = edited k) /\
    (forall k, ~ In k (METHODS_inputs (methodAtom st)) ->
       inputDataAtomFamily st1 k
       = field (getCompleteTrajectoryData (state_of edited) (methodAtom st))
               k).
Proof.
  intros st key updates Hkey written edited st1 st2.
  set (st0 := run (set_input key written) st).
  assert (Hc : forall k, inputDataAtomFamily st0 k = edited k)
    by (intros k; reflexivity).
  assert (E1 : forall k,
            inputDataAtomFamily st1 k =
            if has (METHODS_inputs (methodAtom st)) k
            then edited k
            else field (getCompleteTrajectoryData (state_of edited)
                          (methodAtom st)) k).
  { intros k. unfold st1. rewrite batchUpdate_input_run.
    fold written. fold st0. apply (sync_after st0 edited Hc). }
  assert (Hm : methodAtom st1 = methodAtom st).
  { unfold st1. rewrite batchUpdate_input_run. fold written. fold st0.
    now destruct (syncOutputDataAtom_store st0) as (_ & _ & _ & ->). }
  assert (Hdrv : forall k, In k (METHODS_inputs (methodAtom st)) ->
            inputDataAtomFamily st1 k = edited k).
  { intros k Hk. rewrite E1. apply has_In in Hk. now rewrite Hk. }
  split; [|split].
  - rewrite (Hdrv key Hkey). unfold edited, with_input.
    now destruct key.
  - intros k Hk. split; [now apply Hdrv|].
    destruct (syncOutputDataAtom_store st1) as (Hin & _).
    unfold st2. rewrite Hin, Hm.
    pose proof Hk as Hk'. apply has_In in Hk'. rewrite Hk'.
    now apply Hdrv.
  - intros k Hk. rewrite E1.
    destruct (has (METHODS_inputs (methodAtom st)) k) eqn:Hh;
      [|reflexivity].
    apply has_In in Hh. contradiction.
Qed.

Lemma C5_driving_signals_kept_witness :
  let st := mkStore (fun _ => [Fin 0; Fin 0]) (fun _ => [Fin 0; Fin 0])
                    (fun _ => []) velocity in
  let st1 := run (batchUpdateTimeSeriesAtom
                    (DIn Kvx) [mkUpdate 1 (Fin 7)]) st in
  inputDataAtomFamily st1 Kvx = [Fin 0; Fin 7] /\
  inputDataAtomFamily st1 Kvy = [Fin 0; Fin 0].
Proof.
  intros st st1.
  destruct (C5_driving_signals_kept st Kvx [mkUpdate 1 (Fin 7)]
              (or_introl eq_refl)) as (H1 & H2 & _).
  split.
  - exact H1.
  - exact (proj1 (H2 Kvy (or_intror (or_introl eq_refl)))).
Defined.

(** C6.  A batch update of a derived signal ([ax], [ay], [cz] or [l1])
    only sets that output cell: the synchronization step is not entered,
    the six input cells and hence the derived state are unchanged.  A batch
    update of an input signal enters the synchronization step exactly once,
    and a run of the synchronization step enters it exactly once -- its own
    writes go directly to the cells and never start it again. *)
Theorem C6_output_write_does_not_sync :
  (forall (st : Store) (key : OutputKey) (updates : list Update),
     let m := batchUpdateTimeSeriesAtom (DOut key) updates in
     trace m st = [Ev_set_output key] /\
     sync_runs (trace m st) = 0%nat /\
     (forall k, inputDataAtomFamily (run m st) k = inputDataAtomFamily st k) /\
     completeTrajectoryDataAtom (run m st) = completeTrajectoryDataAtom st) /\
  (forall (st : Store) (key : InputKey) (updates : list Update),
     sync_runs (trace (batchUpdateTimeSeriesAtom (DIn key) updates) st)
     = 1%nat) /\
  (forall st : Store, sync_runs (trace syncOutputDataAtom st) = 1%nat).
Proof.
  split; [|split].
  - intros st key updates m.
    assert (Ht : trace m st = [Ev_set_output key])
      by (destruct key; reflexivity).
    split; [exact Ht|]. split; [now rewrite Ht|].
    assert (Hc : forall k,
              inputDataAtomFamily (run m st) k = inputDataAtomFamily st k)
      by (intros k; destruct key; reflexivity).
    split; [exact Hc|].
    apply completeTrajectoryDataAtom_cells; [exact Hc|].
    destruct key; reflexivity.
  - intros st key updates.
    unfold batchUpdateTimeSeriesAtom. cbn [existsb DataKey_eqb orb].
    rewrite !trace_bind, !sync_runs_app.
    rewrite syncOutputDataAtom_trace. reflexivity.
  - apply syncOutputDataAtom_trace.
Qed.

(** C7 (as the code has it).  Length normalization truncates an array to
    its first [timeSteps] values or pads it with zeros at the tail.  A
    document that is not an object or holds none of the six recognized
    arrays is rejected and the store is left as it was.  Otherwise every
    present array, normalized, is written to the cell of its signal and
    every absent one leaves its cell as it was; the synchronization step
    that import then runs keeps the cells of the two signals the active
    mode drives and overwrites the four others with the state derived from
    the cells so written.  So after import a driving signal is the
    normalized array when present and unchanged when absent, and a signal
    the mode does not drive holds its derived value, whether its array was
    present or absent. *)
Theorem C7_import :
  (forall (arr : list num) (n : nat),
     padOrTruncate arr n = firstn n arr ++ repeat (Fin 0) (n - length arr)) /\
  (forall (st : Store) (doc : Json),
     validateImportData doc = false ->
     importData doc st = (Rejected, st, [])) /\
  (forall fields : PartialInputData,
     validateImportData (JObject fields) = false <->
     forall k, fields k = None) /\
  (forall (st : Store) (fields : PartialInputData),
     validateImportData (JObject fields) = true ->
     let normalized : PartialInputData :=
       fun k => option_map (fun arr => padOrTruncate arr CONFIG.timeSteps)
                           (fields k) in
     let cells := merged st normalized in
     let st' := run (importData (JObject fields)) st in
     result (importData (JObject fields)) st = Imported /\
     forall k,
       inputDataAtomFamily st' k =
       if has (METHODS_inputs (methodAtom st)) k
       then cells k
       else field (getCompleteTrajectoryData (state_of cells) (methodAtom st))
                  k).
Proof.
  split; [|split; [|split]].
  - apply padOrTruncate_spec.
  - intros st doc Hv. unfold importData. now rewrite Hv.
  - apply validateImportData_false.
  - intros st fields Hv normalized cells st'.
    pose proof (importData_run fields st Hv) as E.
    unfold st', run, result. rewrite E. cbn [fst snd].
    split; [reflexivity|].
    apply importTrajectoryAtom_store.
Qed.

Lemma C7_import_witness :
  let st := mkStore (fun _ => [Fin 1; Fin 2]) (fun _ => [Fin 0; Fin 0])
                    (fun _ => []) velocity in
  let fields : PartialInputData :=
    fun k => match k with Kvx => Some [Fin 3] | _ => None end in
  importData (JObject (fun _ => None)) st = (Rejected, st, []) /\
  inputDataAtomFamily (run (importData (JObject fields)) st) Kvx
  = padOrTruncate [Fin 3] CONFIG.timeSteps /\
  inputDataAtomFamily (run (importData (JObject fields)) st) Kvy
  = [Fin 1; Fin 2].
Proof.
  intros st fields.
  destruct C7_import as (_ & Hrej & _ & Himp).
  split; [|split].
  - apply Hrej. reflexivity.
  - exact (proj2 (Himp st fields eq_refl) Kvx).
  - exact (proj2 (Himp st fields eq_refl) Kvy).
Defined.

(** C7, as stated, fails for the signals the active mode does not drive.
    In position mode, from a store whose buffers are all zeros: importing
    a document with only [vx = [5]] does not leave the normalized array in
    [vx] (it is re-derived from [px], and is zero again); and importing a
    document with only [px = [1]] changes [vx], which the document does not
    contain (its first entry becomes [(0 - 1) / dt = -10]). *)
Lemma C7_counterexample :
  let zeros := repeat (Fin 0) CONFIG.timeSteps in
  let st := mkStore (fun _ => zeros) (fun _ => zeros) (fun _ => []) position in
  (let doc := JObject (fun k => match k with
                                | Kvx => Some [Fin 5]
                                | _ => None
                                end) in
   let st' := run (importData doc) st in
   nth 0 (padOrTruncate [Fin 5] CONFIG.timeSteps) NaN = Fin 5 /\
   nth 0 (inputDataAtomFamily st' Kvx) NaN = Fin 0 /\
   inputDataAtomFamily st' Kvx <> padOrTruncate [Fin 5] CONFIG.timeSteps) /\
  (let doc := JObject (fun k => match k with
                                | Kpx => Some [Fin 1]
                                | _ => None
                                end) in
   let st' := run (importData doc) st in
   nth 0 (inputDataAtomFamily st Kvx) NaN = Fin 0 /\
   nth 0 (inputDataAtomFamily st' Kvx) NaN = Fin (-10) /\
   inputDataAtomFamily st' Kvx <> inputDataAtomFamily st Kvx).
Proof.
  intros zeros st.
  assert (Hneq : forall a b : R, a <> b -> Fin a <> Fin b).
  { intros a b Hab E. inversion E. contradiction. }
  assert (Hfirst : forall fields : PartialInputData,
            validateImportData (JObject fields) = true ->
            let cells :=
              merged st (fun k => option_map
                                    (fun arr => padOrTruncate arr CONFIG.timeSteps)
                                    (fields k)) in
            length (cells Kpx) = CONFIG.timeSteps ->
            nth 0 (inputDataAtomFamily (run (importData (JObject fields)) st)
                     Kvx) NaN
            = ((nth 1 (cells Kpx) NaN - nth 0 (cells Kpx) NaN) / dt)%J).
  { intros fields Hv cells HL.
    pose proof (importData_run fields st Hv) as E.
    unfold run at 1. rewrite E. cbn [fst snd].
    rewrite importTrajectoryAtom_store. fold cells.
    cbn [methodAtom st has METHODS_inputs existsb InputKey_eqb orb field
         getCompleteTrajectoryData].
    destruct (calculateFromPxPy_rows (state_of cells)) as (_ & _ & Hrows).
    cbn [px state_of] in Hrows. rewrite HL in Hrows.
    destruct (Hrows 0%nat) as (-> & _); [unfold CONFIG.timeSteps; lia|].
    unfold finite_diff.
    destruct (Z.ltb_spec (Z.of_nat 0) (Z.of_nat CONFIG.timeSteps - 1));
      [|unfold CONFIG.timeSteps in *; lia].
    rewrite aget_succ, aget_nat. reflexivity. }
  split.
  - intros doc st'. split; [reflexivity|].
    assert (E0 : nth 0 (inputDataAtomFamily st' Kvx) NaN = Fin 0).
    { unfold st', doc. rewrite Hfirst.
      - cbn [merged option_map]. unfold zeros. simpl. f_equal.
        unfold CONFIG.dt. field.
      - reflexivity.
      - cbn [merged option_map]. apply repeat_length. }
    split; [exact E0|].
    intros E. rewrite E in E0. simpl in E0.
    revert E0. apply Hneq. lra.
  - intros doc st'. split; [reflexivity|].
    assert (E0 : nth 0 (inputDataAtomFamily st' Kvx) NaN = Fin (-10)).
    { unfold st', doc. rewrite Hfirst.
      - cbn [merged option_map]. simpl. f_equal.
        unfold CONFIG.dt. field.
      - reflexivity.
      - cbn [merged option_map]. rewrite padOrTruncate_spec.
        rewrite length_app, repeat_length. reflexivity. }
    split; [exact E0|].
    intros E. rewrite E in E0. simpl in E0.
    revert E0. apply Hneq. lra.
Qed.

(** C8.  The tracking error of the metrics engine: (1) without ground truth
    [l1] is all zeros, for every state; (2) with the state itself (real
    numbers, [px] and [py] of equal length) as ground truth, [l1] is all
    zeros; (3) with a ground truth of real numbers whose [px] and [py] have
    equal length, [l1[i]] is the Euclidean distance
    [sqrt ((px[i]-gtPx[i])^2 + (py[i]-gtPy[i])^2)] at every index below the
    ground truth's length and [0] at every index at or beyond it. *)
Theorem C8_tracking_error :
  (forall data : InputData,
     l1 (calculateOutputData data None)
     = repeat (Fin 0) (length (px data))) /\
  (forall (data : InputData) (xs ys : list R),
     px data = map Fin xs -> py data = map Fin ys ->
     length xs = length ys ->
     l1 (calculateOutputData data (Some data))
     = repeat (Fin 0) (length (px data))) /\
  (forall (data gt : InputData) (xs ys gxs gys : list R),
     px data = map Fin xs -> py data = map Fin ys ->
     px gt = map Fin gxs -> py gt = map Fin gys ->
     length xs = length ys -> length gxs = length gys ->
     forall i, (i < length xs)%nat ->
       nth i (l1 (calculateOutputData data (Some gt))) NaN
       = if (i <? length gxs)%nat
         then Fin (sqrt ((nth i xs 0 - nth i gxs 0) * (nth i xs 0 - nth i gxs 0)
                         + (nth i ys 0 - nth i gys 0) * (nth i ys 0 - nth i gys 0)))
         else Fin 0).
Proof.
  split; [|split].
  - intros data.
    destruct (calculateOutputData_rows data None) as ((_ & _ & _ & HL) & Hrows).
    apply list_eq_nth.
    + now rewrite repeat_length.
    + intros j Hj. rewrite HL in Hj.
      destruct (Hrows j Hj) as (_ & _ & _ & ->).
      now rewrite nth_repeat_lt.
  - intros data xs ys Hx Hy Hlen.
    destruct (calculateOutputData_rows data (Some data))
      as ((_ & _ & _ & HL) & Hrows).
    apply list_eq_nth.
    + now rewrite repeat_length.
    + intros j Hj. rewrite HL in Hj.
      destruct (Hrows j Hj) as (_ & _ & _ & ->).
      rewrite nth_repeat_lt by exact Hj.
      unfold tracking_error.
      destruct (Z.ltb_spec (Z.of_nat j) (Z.of_nat (length (px data))));
        [|reflexivity].
      rewrite Hx, Hy in *. rewrite length_map in Hj.
      rewrite !aget_map_Fin by lia. simpl.
      replace ((nth j xs 0 - nth j xs 0) * (nth j xs 0 - nth j xs 0)
               + (nth j ys 0 - nth j ys 0) * (nth j ys 0 - nth j ys 0))
        with 0 by ring.
      now rewrite sqrt_0.
  - intros data gt xs ys gxs gys Hx Hy Hgx Hgy Hlen Hglen i Hi.
    destruct (calculateOutputData_rows data (Some gt)) as (_ & Hrows).
    destruct (Hrows i) as (_ & _ & _ & ->).
    { now rewrite Hx, length_map. }
    unfold tracking_error. rewrite Hgx, length_map.
    destruct (Nat.ltb_spec i (length gxs)) as [Hlt|Hge].
    + destruct (Z.ltb_spec (Z.of_nat i) (Z.of_nat (length gxs))); [|lia].
      rewrite Hx, Hy, Hgy. rewrite !aget_map_Fin by lia. reflexivity.
    + destruct (Z.ltb_spec (Z.of_nat i) (Z.of_nat (length gxs))); [lia|].
      reflexivity.
Qed.

Lemma C8_tracking_error_witness :
  nth 0 (l1 (calculateOutputData
               (mkInputData [Fin 3] [Fin 0] [Fin 0] [Fin 0] [Fin 0] [Fin 0])
               (Some (mkInputData [Fin 0] [Fin 4] [] [] [] [])))) NaN
  = Fin (sqrt ((3 - 0) * (3 - 0) + (0 - 4) * (0 - 4))).
Proof.
  destruct C8_tracking_error as (_ & _ & H).
  exact (H (mkInputData [Fin 3] [Fin 0] [Fin 0] [Fin 0] [Fin 0] [Fin 0])
           (mkInputData [Fin 0] [Fin 4] [] [] [] [])
           [3] [0] [0] [4]
           eq_refl eq_refl eq_refl eq_refl eq_refl eq_refl O (le_n 1)).
Defined.

(** C9.  The metrics engine reads the ground truth only through [px] and
    [py]: two ground truths that agree on these two arrays give the same
    four metrics, whatever their [oz], [vx], [vy] and [wz]. *)
Theorem C9_ground_truth_noninterference :
  forall (data gt1 gt2 : InputData),
    px gt1 = px gt2 -> py gt1 = py gt2 ->
    calculateOutputData data (Some gt1) = calculateOutputData data (Some gt2).
Proof.
  intros data gt1 gt2 Hx Hy.
  assert (E : forall i s,
            calculateOutputData_body data (Some gt1) i s
            = calculateOutputData_body data (Some gt2) i s).
  { intros i s. unfold calculateOutputData_body. now rewrite Hx, Hy. }
  unfold calculateOutputData.
  now rewrite (for_loop_ext _ _ _ _ E).
Qed.

Lemma C9_ground_truth_noninterference_witness :
  calculateOutputData
    (mkInputData [Fin 1] [Fin 2] [Fin 0] [Fin 3] [Fin 4] [Fin 5])
    (Some (mkInputData [Fin 7] [Fin 8] [Fin 1] [Fin 1] [Fin 1] [Fin 1]))
  = calculateOutputData
    (mkInputData [Fin 1] [Fin 2] [Fin 0] [Fin 3] [Fin 4] [Fin 5])
    (Some (mkInputData [Fin 7] [Fin 8] [NaN; Fin 2] [] [Fin 9] [Fin 6])).
Proof.
  apply C9_ground_truth_noninterference; reflexivity.
Defined.


(* ------------------------------------------------------------------ *)
(** ** Integral mode on binary64 numbers *)

Section Binary64.

Import PrimFloat.

(** A value above [Math.PI] that the subtraction gives back is never
    brought below it. *)
Lemma while_gt_PI_stuck (theta : float) :
  ltb F64.Math_PI theta = true ->
  sub theta (mul 2%float F64.Math_PI) = theta ->
  forall fuel, F64.while_gt_PI fuel theta = None.
Proof.
  intros Hgt Hfix fuel. induction fuel as [|fuel IH].
  - reflexivity.
  - cbn [F64.while_gt_PI]. now rewrite Hgt, Hfix.
Qed.

Lemma for_loop_None {S : Type} (body : nat -> S -> option S) (l : list nat) :
  fold_left (fun s i => match s with Some s' => body i s' | None => None end)
            l None = None.
Proof. induction l as [|i l IH]; [reflexivity | exact IH]. Qed.

(** Once an iteration fails to return, so does the loop. *)
Lemma for_loop_first_None {S : Type} (n : nat) (body : nat -> S -> option S)
    (s0 : S) :
  body 0%nat s0 = None -> F64.for_loop (Datatypes.S n) body s0 = None.
Proof.
  intros H. unfold F64.for_loop. cbn [seq fold_left]. rewrite H.
  apply for_loop_None.
Qed.

(** On ordinary values the loops exit at once and the function returns:
    from rest, two steps of unit speed without turning. *)
Example integral_mode_returns (tan : float -> float) :
  option_map F64.oz
    (F64.calculateFromVxWz tan 1
       (F64.mkInputData [] [] [] [1; 1]%float [] [0; 0]%float))
  = Some [0; 0]%float.
Proof. reflexivity. Qed.

(** C10.  Integral mode does not return on every input.  With the seed
    [oz[0] = 1e17] (and [wz = 0]), or with the driving [wz[0] = 1e18] (so
    that [theta] is [1e18 * 0.1] after the first step), the loop
    [while (theta > Math.PI) theta -= 2 * Math.PI] of the first iteration
    never reaches its exit test: whatever number of iterations it is
    given, [calculateFromVxWz] has not returned. *)
Theorem C10_integral_mode_diverges :
  forall (tan : float -> float) (fuel : nat),
    F64.calculateFromVxWz tan fuel
      (F64.mkInputData [] [] [1e17]%float [1; 1]%float [] [0; 0]%float)
    = None /\
    F64.calculateFromVxWz tan fuel
      (F64.mkInputData [] [] [] [1; 1]%float [] [1e18; 0]%float)
    = None.
Proof.
  intros tan fuel. split.
  - unfold F64.calculateFromVxWz. cbn [F64.vx length].
    rewrite for_loop_first_None; [reflexivity|].
    unfold F64.calculateFromVxWz_body.
    rewrite (while_gt_PI_stuck 1e17%float); reflexivity.
  - unfold F64.calculateFromVxWz. cbn [F64.vx length].
    rewrite for_loop_first_None; [reflexivity|].
    unfold F64.calculateFromVxWz_body.
    rewrite (while_gt_PI_stuck (mul 1e18 F64.dt)%float); reflexivity.
Qed.

End Binary64.

(* ------------------------------------------------------------------ *)
(** * Further properties *)

(** ** What a derivation reads *)

Lemma InputData_eta (d : InputData) :
  mkInputData (px d) (py d) (oz d) (vx d) (vy d) (wz d) = d.
Proof. now destruct d. Qed.

Lemma for_loop_0 {S : Type} (body : nat -> S -> S) (s0 : S) :
  for_loop 0 body s0 = s0.
Proof. reflexivity. Qed.

Lemma or_or_0 (a : num) : Js.or (Js.or a (Fin 0)) (Fin 0) = Js.or a (Fin 0).
Proof.
  unfold Js.or. destruct (Js.truthy a) eqn:E; [now rewrite E|].
  simpl. destruct (Req_dec_T 0 0); [reflexivity | contradiction].
Qed.

Lemma calculateFromPxPy_reads (d1 d2 : InputData) :
  px d1 = px d2 -> py d1 = py d2 ->
  oz (calculateFromPxPy d1) = oz (calculateFromPxPy d2) /\
  vx (calculateFromPxPy d1) = vx (calculateFromPxPy d2) /\
  vy (calculateFromPxPy d1) = vy (calculateFromPxPy d2) /\
  wz (calculateFromPxPy d1) = wz (calculateFromPxPy d2).
Proof.
  intros Hx Hy. unfold calculateFromPxPy. cbn [oz vx vy wz].
  rewrite Hx.
  rewrite (for_loop_ext _ (calculateFromPxPy_body d1 (length (px d2)))
             (calculateFromPxPy_body d2 (length (px d2)))).
  - auto.
  - intros i s. unfold calculateFromPxPy_body. now rewrite Hx, Hy.
Qed.

Lemma calculateFromVxVy_reads (d1 d2 : InputData) :
  vx d1 = vx d2 -> vy d1 = vy d2 ->
  length (vx d1) = 0%nat \/
  (Js.or (px d1).[0] (Fin 0) = Js.or (px d2).[0] (Fin 0) /\
   Js.or (py d1).[0] (Fin 0) = Js.or (py d2).[0] (Fin 0)) ->
  px (calculateFromVxVy d1) = px (calculateFromVxVy d2) /\
  py (calculateFromVxVy d1) = py (calculateFromVxVy d2) /\
  oz (calculateFromVxVy d1) = oz (calculateFromVxVy d2) /\
  wz (calculateFromVxVy d1) = wz (calculateFromVxVy d2).
Proof.
  intros Hx Hy Hs. unfold calculateFromVxVy. cbn [px py oz wz].
  rewrite <- Hx.
  destruct Hs as [H0 | [Sx Sy]].
  - rewrite H0, !for_loop_0. auto.
  - rewrite Sx, Sy.
    rewrite (for_loop_ext _ (calculateFromVxVy_body d1)
               (calculateFromVxVy_body d2)).
    + auto.
    + intros i s. unfold calculateFromVxVy_body. now rewrite Hx, Hy.
Qed.

Lemma calculateFromVxWz_reads (d1 d2 : InputData) :
  vx d1 = vx d2 -> wz d1 = wz d2 ->
  length (vx d1) = 0%nat \/
  (Js.or (px d1).[0] (Fin 0) = Js.or (px d2).[0] (Fin 0) /\
   Js.or (py d1).[0] (Fin 0) = Js.or (py d2).[0] (Fin 0) /\
   Js.or (oz d1).[0] (Fin 0) = Js.or (oz d2).[0] (Fin 0)) ->
  px (calculateFromVxWz d1) = px (calculateFromVxWz d2) /\
  py (calculateFromVxWz d1) = py (calculateFromVxWz d2) /\
  oz (calculateFromVxWz d1) = oz (calculateFromVxWz d2) /\
  vy (calculateFromVxWz d1) = vy (calculateFromVxWz d2).
Proof.
  intros Hx Hw Hs. unfold calculateFromVxWz. cbn [px py oz vy].
  rewrite <- Hx.
  destruct Hs as [H0 | (Sx & Sy & So)].
  - rewrite H0, !for_loop_0. auto.
  - rewrite Sx, Sy, So.
    rewrite (for_loop_ext _ (calculateFromVxWz_body d1)
               (calculateFromVxWz_body d2)).
    + auto.
    + intros i s. unfold calculateFromVxWz_body. now rewrite Hx, Hw.
Qed.

Lemma calculateFromPxOz_reads (d1 d2 : InputData) :
  px d1 = px d2 -> oz d1 = oz d2 ->
  length (px d1) = 0%nat \/
  Js.or (py d1).[0] (Fin 0) = Js.or (py d2).[0] (Fin 0) ->
  py (calculateFromPxOz d1) = py (calculateFromPxOz d2) /\
  vx (calculateFromPxOz d1) = vx (calculateFromPxOz d2) /\
  vy (calculateFromPxOz d1) = vy (calculateFromPxOz d2) /\
  wz (calculateFromPxOz d1) = wz (calculateFromPxOz d2).
Proof.
  intros Hx Ho Hs. unfold calculateFromPxOz. cbn [py vx vy wz].
  rewrite <- Hx.
  destruct Hs as [H0 | Sy].
  - rewrite H0, !for_loop_0. auto.
  - rewrite Sy.
    rewrite (for_loop_ext _ (calculateFromPxOz_body d1 (length (px d1)))
               (calculateFromPxOz_body d2 (length (px d1)))).
    + auto.
    + intros i s. unfold calculateFromPxOz_body. now rewrite Hx, Ho.
Qed.

(** X1.  A derivation reads its input only through the two signals the
    mode drives and the seeds of its integrations: two states that agree on
    the driving signals and on the seed (the first entry, [0] when it is
    missing or falsy) of every integrated signal are derived to the same
    state. *)
Theorem derive_reads_driving_and_seeds :
  forall (mode : Methods) (d1 d2 : InputData),
    (forall key, In key (METHODS_inputs mode) -> field d1 key = field d2 key) ->
    (forall key, In key (integrated mode) ->
       seed (field d1 key) = seed (field d2 key)) ->
    getCompleteTrajectoryData d1 mode = getCompleteTrajectoryData d2 mode.
Proof.
  intros mode d1 d2 Hd Hs.
  rewrite <- (InputData_eta (getCompleteTrajectoryData d1 mode)).
  rewrite <- (InputData_eta (getCompleteTrajectoryData d2 mode)).
  destruct mode; cbn [getCompleteTrajectoryData].
  - pose proof (Hd Kpx (or_introl eq_refl)) as Hx.
    pose proof (Hd Kpy (or_intror (or_introl eq_refl))) as Hy.
    cbn [field] in Hx, Hy.
    destruct (calculateFromPxPy_reads d1 d2 Hx Hy) as (-> & -> & -> & ->).
    change (px (calculateFromPxPy d1)) with (px d1).
    change (py (calculateFromPxPy d1)) with (py d1).
    change (px (calculateFromPxPy d2)) with (px d2).
    change (py (calculateFromPxPy d2)) with (py d2).
    now rewrite Hx, Hy.
  - pose proof (Hd Kvx (or_introl eq_refl)) as Hx.
    pose proof (Hd Kvy (or_intror (or_introl eq_refl))) as Hy.
    cbn [field] in Hx, Hy.
    destruct (calculateFromVxVy_reads d1 d2 Hx Hy) as (-> & -> & -> & ->).
    { right. rewrite !or_seed.
      pose proof (Hs Kpx (or_introl eq_refl)) as S1.
      pose proof (Hs Kpy (or_intror (or_introl eq_refl))) as S2.
      cbn [field] in S1, S2. now rewrite S1, S2. }
    change (vx (calculateFromVxVy d1)) with (vx d1).
    change (vy (calculateFromVxVy d1)) with (vy d1).
    change (vx (calculateFromVxVy d2)) with (vx d2).
    change (vy (calculateFromVxVy d2)) with (vy d2).
    now rewrite Hx, Hy.
  - pose proof (Hd Kvx (or_introl eq_refl)) as Hx.
    pose proof (Hd Kwz (or_intror (or_introl eq_refl))) as Hw.
    cbn [field] in Hx, Hw.
    destruct (calculateFromVxWz_reads d1 d2 Hx Hw) as (-> & -> & -> & ->).
    { right. rewrite !or_seed.
      pose proof (Hs Kpx (or_introl eq_refl)) as S1.
      pose proof (Hs Kpy (or_intror (or_introl eq_refl))) as S2.
      pose proof (Hs Koz (or_intror (or_intror (or_introl eq_refl)))) as S3.
      cbn [field] in S1, S2, S3. now rewrite S1, S2, S3. }
    change (vx (calculateFromVxWz d1)) with (vx d1).
    change (wz (calculateFromVxWz d1)) with (wz d1).
    change (vx (calculateFromVxWz d2)) with (vx d2).
    change (wz (calculateFromVxWz d2)) with (wz d2).
    now rewrite Hx, Hw.
  - pose proof (Hd Kpx (or_introl eq_refl)) as Hx.
    pose proof (Hd Koz (or_intror (or_introl eq_refl))) as Ho.
    cbn [field] in Hx, Ho.
    destruct (calculateFromPxOz_reads d1 d2 Hx Ho) as (-> & -> & -> & ->).
    { right. rewrite !or_seed.
      pose proof (Hs Kpy (or_introl eq_refl)) as S1.
      cbn [field] in S1. now rewrite S1. }
    change (px (calculateFromPxOz d1)) with (px d1).
    change (oz (calculateFromPxOz d1)) with (oz d1).
    change (px (calculateFromPxOz d2)) with (px d2).
    change (oz (calculateFromPxOz d2)) with (oz d2).
    now rewrite Hx, Ho.
Qed.

Lemma derive_reads_driving_and_seeds_witness :
  getCompleteTrajectoryData
    (mkInputData [Fin 1; Fin 9] [] [Fin 3] [Fin 1; Fin 2] [Fin 0; Fin 0]
                 [Fin 5])
    velocity
  = getCompleteTrajectoryData
      (mkInputData [Fin 1] [NaN] [] [Fin 1; Fin 2] [Fin 0; Fin 0] [])
      velocity.
Proof.
  apply derive_reads_driving_and_seeds;
    intros key H; simpl in H; destruct H as [<-|[<-|[]]]; reflexivity.
Defined.

Lemma aget_0_nth (a : list num) : a.[0] = nth 0 a NaN.
Proof. reflexivity. Qed.

(** The seeds of a derived state are the seeds it was derived from. *)
Lemma derived_seed (d : InputData) (mode : Methods) (key : InputKey) :
  In key (integrated mode) ->
  length (field d (primary mode)) = 0%nat \/
  Js.or (field (getCompleteTrajectoryData d mode) key).[0] (Fin 0)
  = Js.or (field d key).[0] (Fin 0).
Proof.
  intros Hin.
  destruct (length (field d (primary mode))) eqn:EN; [now left | right].
  rewrite aget_0_nth, (seeded_outputs d mode key Hin) by lia.
  rewrite <- or_seed. apply or_or_0.
Qed.

Lemma derive_idempotent_aux :
  forall (mode : Methods) (d : InputData),
    getCompleteTrajectoryData (getCompleteTrajectoryData d mode) mode
    = getCompleteTrajectoryData d mode.
Proof.
  intros mode d.
  set (out := getCompleteTrajectoryData d mode).
  rewrite <- (InputData_eta (getCompleteTrajectoryData out mode)).
  rewrite <- (InputData_eta out) at 7.
  destruct mode; cbn [getCompleteTrajectoryData] in *.
  - destruct (calculateFromPxPy_reads out d eq_refl eq_refl)
      as (-> & -> & -> & ->).
    reflexivity.
  - destruct (calculateFromVxVy_reads out d eq_refl eq_refl)
      as (-> & -> & -> & ->); [|reflexivity].
    destruct (derived_seed d velocity Kpx) as [H0|Hx]; [simpl; auto| |].
    { now left. }
    destruct (derived_seed d velocity Kpy) as [H0|Hy]; [simpl; auto| |].
    { now left. }
    right. split; assumption.
  - destruct (calculateFromVxWz_reads out d eq_refl eq_refl)
      as (-> & -> & -> & ->); [|reflexivity].
    destruct (derived_seed d integral Kpx) as [H0|Hx]; [simpl; auto| |].
    { now left. }
    destruct (derived_seed d integral Kpy) as [H0|Hy]; [simpl; auto| |].
    { now left. }
    destruct (derived_seed d integral Koz) as [H0|Ho]; [simpl; auto| |].
    { now left. }
    right. repeat split; assumption.
  - destruct (calculateFromPxOz_reads out d eq_refl eq_refl)
      as (-> & -> & -> & ->); [|reflexivity].
    destruct (derived_seed d differential Kpy) as [H0|Hy]; [simpl; auto| |].
    { now left. }
    right. assumption.
Qed.

(** X2.  Deriving is idempotent: deriving a derived state again, in the
    same mode, gives the same state, for every mode and every input. *)
Theorem derive_idempotent :
  forall (mode : Methods) (d : InputData),
    getCompleteTrajectoryData (getCompleteTrajectoryData d mode) mode
    = getCompleteTrajectoryData d mode.
Proof. exact derive_idempotent_aux. Qed.

(** ** The store after a synchronization step *)

Lemma driving_passthrough (d : InputData) (mode : Methods) (key : InputKey) :
  In key (METHODS_inputs mode) ->
  field (getCompleteTrajectoryData d mode) key = field d key.
Proof.
  intros Hin. destruct mode; simpl in Hin;
    destruct Hin as [<-|[<-|[]]]; reflexivity.
Qed.

Lemma sync_cells (st : Store) (k : InputKey) :
  inputDataAtomFamily (run syncOutputDataAtom st) k
  = field (completeTrajectoryDataAtom st) k.
Proof.
  destruct (syncOutputDataAtom_store st) as (Hin & _). rewrite Hin.
  destruct (has (METHODS_inputs (methodAtom st)) k) eqn:Hh; [|reflexivity].
  apply has_In in Hh. unfold completeTrajectoryDataAtom.
  rewrite (driving_passthrough (inputDataAtom st) (methodAtom st) k Hh).
  now destruct k.
Qed.

Lemma sync_inputDataAtom (st : Store) :
  inputDataAtom (run syncOutputDataAtom st) = completeTrajectoryDataAtom st.
Proof.
  unfold inputDataAtom. rewrite !sync_cells. apply InputData_eta.
Qed.

Lemma sync_complete (st : Store) :
  completeTrajectoryDataAtom (run syncOutputDataAtom st)
  = completeTrajectoryDataAtom st.
Proof.
  unfold completeTrajectoryDataAtom at 1. rewrite sync_inputDataAtom.
  destruct (syncOutputDataAtom_store st) as (_ & _ & _ & ->).
  apply derive_idempotent_aux.
Qed.

Lemma gtDataAtom_cells (st st' : Store) :
  (forall k, gtAtomFamily st' k = gtAtomFamily st k) ->
  gtDataAtom st' = gtDataAtom st.
Proof. intros H. unfold gtDataAtom. now rewrite !H. Qed.

Lemma sync_outputDataInternal (st : Store) :
  outputDataInternalAtom (run syncOutputDataAtom st)
  = outputDataInternalAtom st.
Proof.
  unfold outputDataInternalAtom, hasGroundTruthAtom.
  destruct (syncOutputDataAtom_store st) as (_ & _ & Hgt & _).
  now rewrite sync_complete, (gtDataAtom_cells _ _ Hgt).
Qed.

(** X3.  After the synchronization step the six input cells are exactly
    the derived complete state, deriving again gives the same state, the
    four output cells are the metrics of that state, and a second
    synchronization step changes no input cell and no output cell. *)
Theorem sync_reaches_fixed_point :
  forall st : Store,
    let st1 := run syncOutputDataAtom st in
    let st2 := run syncOutputDataAtom st1 in
    inputDataAtom st1 = completeTrajectoryDataAtom st /\
    completeTrajectoryDataAtom st1 = completeTrajectoryDataAtom st /\
    (forall k, outputDataAtomFamily st1 k
               = out_field (calculateOutputData (inputDataAtom st1)
                              (if hasGroundTruthAtom st1
                               then Some (gtDataAtom st1) else None)) k) /\
    (forall k, inputDataAtomFamily st2 k = inputDataAtomFamily st1 k) /\
    (forall k, outputDataAtomFamily st2 k = outputDataAtomFamily st1 k).
Proof.
  intros st st1 st2.
  pose proof (sync_inputDataAtom st) as E1.
  pose proof (sync_complete st) as E2.
  pose proof (sync_outputDataInternal st) as E3.
  fold st1 in E1, E2, E3.
  destruct (syncOutputDataAtom_store st) as (_ & Ho & _).
  destruct (syncOutputDataAtom_store st1) as (_ & Ho1 & _).
  fold st1 in Ho. fold st2 in Ho1.
  split; [exact E1|]. split; [exact E2|]. split; [|split].
  - intros k. rewrite Ho, <- E3. unfold outputDataInternalAtom.
    now rewrite E2, E1.
  - intros k. unfold st2. rewrite sync_cells. fold st1. rewrite E2.
    unfold st1. now rewrite sync_cells.
  - intros k. now rewrite Ho1, Ho, E3.
Qed.

(** ** Ground truth *)

Lemma setGroundTruthAtom_store (st : Store) :
  let st' := run setGroundTruthAtom st in
  (forall k, gtAtomFamily st' k = inputDataAtomFamily st k) /\
  (forall k, inputDataAtomFamily st' k = inputDataAtomFamily st k) /\
  (forall k, outputDataAtomFamily st' k = outputDataAtomFamily st k) /\
  methodAtom st' = methodAtom st /\
  sync_runs (trace setGroundTruthAtom st) = 0%nat.
Proof.
  destruct st as [inp outp gt mode].
  repeat split; try (intros k; destruct k); reflexivity.
Qed.

Lemma batchUpdate_output_store (key : OutputKey) (updates : list Update)
    (st : Store) :
  let st' := run (batchUpdateTimeSeriesAtom (DOut key) updates) st in
  (forall k, gtAtomFamily st' k = gtAtomFamily st k) /\
  methodAtom st' = methodAtom st.
Proof. destruct key; repeat split. Qed.

Lemma batchUpdate_input_frame (key : InputKey) (updates : list Update)
    (st : Store) :
  let st' := run (batchUpdateTimeSeriesAtom (DIn key) updates) st in
  (forall k, gtAtomFamily st' k = gtAtomFamily st k) /\
  methodAtom st' = methodAtom st.
Proof.
  intros st'. unfold st'. rewrite batchUpdate_input_run.
  set (st0 := run (set_input key _) st).
  destruct (syncOutputDataAtom_store st0) as (_ & _ & Hgt & Hm).
  split; [intros k; rewrite Hgt; reflexivity | rewrite Hm; reflexivity].
Qed.

Lemma import_loop_frame (data : PartialInputData) (st : Store) :
  let st1 := run (for_each inputKeys (fun key =>
                    match data key with
                    | Some arr => set_input key arr
                    | None => ret tt
                    end)) st in
  forall k, gtAtomFamily st1 k = gtAtomFamily st k.
Proof.
  unfold run. cbn.
  destruct (data Kpx), (data Kpy), (data Koz),
           (data Kvx), (data Kvy), (data Kwz); reflexivity.
Qed.

Lemma importData_frame (doc : Json) (st : Store) :
  let st' := run (importData doc) st in
  (forall k, gtAtomFamily st' k = gtAtomFamily st k) /\
  methodAtom st' = methodAtom st.
Proof.
  intros st'. unfold st'.
  destruct (validateImportData doc) eqn:Hv.
  - destruct doc as [|fields]; [discriminate Hv|].
    unfold run at 1 2. rewrite (importData_run fields st Hv). cbn [fst snd].
    unfold importTrajectoryAtom. rewrite run_bind.
    match goal with |- context [run syncOutputDataAtom ?s] => set (st1 := s) end.
    destruct (syncOutputDataAtom_store st1) as (_ & _ & Hgt & Hm).
    split.
    + intros k. rewrite Hgt. unfold st1. apply import_loop_frame.
    + rewrite Hm. unfold st1.
      now destruct (import_loop_store
                      (fun key => option_map
                         (fun arr => padOrTruncate arr CONFIG.timeSteps)
                         (fields key)) st) as (_ & ->).
  - unfold importData. rewrite Hv. split; reflexivity.
Qed.

(** X4.  Taking the ground-truth snapshot copies the six input cells into
    the ground truth and touches nothing else (no input cell, no output
    cell, not the mode, and the synchronization step is not entered); a
    ground truth is then present exactly when [px] is not empty.  The
    synchronization step, every batch update and every import leave the
    ground truth as it is. *)
Theorem ground_truth_lifecycle :
  forall st : Store,
    (let st' := run setGroundTruthAtom st in
     gtDataAtom st' = inputDataAtom st /\
     inputDataAtom st' = inputDataAtom st /\
     (forall k, outputDataAtomFamily st' k = outputDataAtomFamily st k) /\
     methodAtom st' = methodAtom st /\
     sync_runs (trace setGroundTruthAtom st) = 0%nat /\
     hasGroundTruthAtom st' = (0 <? length (inputDataAtomFamily st Kpx))%nat) /\
    gtDataAtom (run syncOutputDataAtom st) = gtDataAtom st /\
    (forall key updates,
       gtDataAtom (run (batchUpdateTimeSeriesAtom key updates) st)
       = gtDataAtom st) /\
    (forall doc, gtDataAtom (run (importData doc) st) = gtDataAtom st).
Proof.
  intros st. split; [|split; [|split]].
  - intros st'.
    destruct (setGroundTruthAtom_store st) as (Hg & Hi & Ho & Hm & Ht).
    fold st' in Hg, Hi, Ho, Hm.
    assert (Eg : gtDataAtom st' = inputDataAtom st).
    { unfold gtDataAtom, inputDataAtom. now rewrite !Hg. }
    split; [exact Eg|]. split.
    { unfold inputDataAtom. now rewrite !Hi. }
    split; [exact Ho|]. split; [exact Hm|]. split; [exact Ht|].
    unfold hasGroundTruthAtom. now rewrite Eg.
  - apply gtDataAtom_cells.
    now destruct (syncOutputDataAtom_store st) as (_ & _ & Hgt & _).
  - intros [key|key] updates; apply gtDataAtom_cells.
    + now destruct (batchUpdate_input_frame key updates st).
    + now destruct (batchUpdate_output_store key updates st).
  - intros doc. apply gtDataAtom_cells.
    now destruct (importData_frame doc st).
Qed.

(** ** Metrics *)

Lemma l1_without_ground_truth (data : InputData) :
  l1 (calculateOutputData data None) = repeat (Fin 0) (length (px data)).
Proof.
  destruct (calculateOutputData_rows data None) as ((_ & _ & _ & HL) & Hrows).
  apply list_eq_nth.
  - now rewrite repeat_length.
  - intros j Hj. rewrite HL in Hj.
    destruct (Hrows j Hj) as (_ & _ & _ & ->).
    now rewrite nth_repeat_lt.
Qed.

Lemma l1_against_itself (data : InputData) (xs ys : list R) :
  px data = map Fin xs -> py data = map Fin ys -> length xs = length ys ->
  l1 (calculateOutputData data (Some data)) = repeat (Fin 0) (length xs).
Proof.
  intros Hx Hy Hlen.
  destruct (calculateOutputData_rows data (Some data))
    as ((_ & _ & _ & HL) & Hrows).
  rewrite Hx, length_map in HL, Hrows.
  apply list_eq_nth.
  - now rewrite repeat_length.
  - intros j Hj. rewrite HL in Hj.
    destruct (Hrows j Hj) as (_ & _ & _ & ->).
    rewrite nth_repeat_lt by exact Hj.
    unfold tracking_error. rewrite Hx, length_map.
    destruct (Z.ltb_spec (Z.of_nat j) (Z.of_nat (length xs))); [|reflexivity].
    rewrite Hy. rewrite !aget_map_Fin by lia. simpl.
    replace ((nth j xs 0 - nth j xs 0) * (nth j xs 0 - nth j xs 0)
             + (nth j ys 0 - nth j ys 0) * (nth j ys 0 - nth j ys 0))
      with 0 by ring.
    now rewrite sqrt_0.
Qed.

(** X5.  A snapshot taken right after a synchronization step is the derived
    state itself, so the tracking error recomputed from the store is zero
    at every index (for a derived state whose [px] and [py] are real
    numbers of equal length), and the next synchronization step writes
    these zeros to the [l1] cell. *)
Theorem snapshot_after_sync_has_zero_error :
  forall (st : Store) (xs ys : list R),
    px (completeTrajectoryDataAtom st) = map Fin xs ->
    py (completeTrajectoryDataAtom st) = map Fin ys ->
    length xs = length ys ->
    let st2 := run setGroundTruthAtom (run syncOutputDataAtom st) in
    gtDataAtom st2 = completeTrajectoryDataAtom st /\
    l1 (outputDataInternalAtom st2) = repeat (Fin 0) (length xs) /\
    outputDataAtomFamily (run syncOutputDataAtom st2) Kl1
    = repeat (Fin 0) (length xs).
Proof.
  intros st xs ys Hx Hy Hlen st2.
  set (st1 := run syncOutputDataAtom st) in *.
  destruct (setGroundTruthAtom_store st1) as (Hg & Hi & _ & Hm & _).
  fold st2 in Hg, Hi, Hm.
  assert (Eg : gtDataAtom st2 = completeTrajectoryDataAtom st).
  { unfold gtDataAtom. rewrite !Hg.
    change (inputDataAtom st1 = completeTrajectoryDataAtom st).
    apply sync_inputDataAtom. }
  assert (Ec : completeTrajectoryDataAtom st2 = completeTrajectoryDataAtom st).
  { rewrite (completeTrajectoryDataAtom_cells st1 st2 Hi Hm).
    apply sync_complete. }
  assert (El : l1 (outputDataInternalAtom st2) = repeat (Fin 0) (length xs)).
  { unfold outputDataInternalAtom. rewrite Ec.
    destruct (hasGroundTruthAtom st2).
    - rewrite Eg. now apply (l1_against_itself _ xs ys).
    - rewrite l1_without_ground_truth. now rewrite Hx, length_map. }
  split; [exact Eg|]. split; [exact El|].
  destruct (syncOutputDataAtom_store st2) as (_ & Ho & _).
  rewrite Ho. exact El.
Qed.

Lemma snapshot_after_sync_has_zero_error_witness :
  let st := mkStore (fun k => match k with
                              | Kpx => [Fin 1; Fin 2]
                              | Kpy => [Fin 0; Fin 1]
                              | _ => [Fin 0; Fin 0]
                              end)
                    (fun _ => []) (fun _ => []) position in
  l1 (outputDataInternalAtom
        (run setGroundTruthAtom (run syncOutputDataAtom st)))
  = repeat (Fin 0) 2.
Proof.
  intros st.
  exact (proj1 (proj2 (snapshot_after_sync_has_zero_error st [1; 2] [0; 1]
                         eq_refl eq_refl eq_refl))).
Defined.

Lemma curvature_real (data : InputData) (vxs vys wzs : list R) (i : nat) :
  vx data = map Fin vxs -> vy data = map Fin vys -> wz data = map Fin wzs ->
  (i < length vxs)%nat -> (i < length vys)%nat -> (i < length wzs)%nat ->
  curvature data i =
  Fin (if Rlt_dec (1 / 10)
            (sqrt (nth i vxs 0 * nth i vxs 0 + nth i vys 0 * nth i vys 0))
       then nth i wzs 0
            / sqrt (nth i vxs 0 * nth i vxs 0 + nth i vys 0 * nth i vys 0)
       else 0).
Proof.
  intros Hx Hy Hw H1 H2 H3. unfold curvature. cbv zeta.
  rewrite Hx, Hy, Hw, !aget_map_Fin by assumption. simpl.
  destruct (Rlt_dec _ _); reflexivity.
Qed.

Lemma accel_real (vs : list R) (i : nat) :
  (i < length vs)%nat ->
  accel (map Fin vs) i =
  Fin (match i with O => 0 | S j => (nth i vs 0 - nth j vs 0) / CONFIG.dt end).
Proof.
  intros Hi. unfold accel. destruct i as [|j]; [reflexivity|].
  rewrite aget_pred, aget_nat, !nth_map_Fin by lia. reflexivity.
Qed.

(** X6.  The metrics of a state whose velocities and yaw rate are real
    numbers, all of the length [N] of [px]: the four outputs have length
    [N]; [ax[0] = ay[0] = 0] and [ax[i] = (vx[i] - vx[i-1]) / dt], [ay]
    alike; [cz[i] = wz[i] / v] with [v = sqrt (vx[i]^2 + vy[i]^2)] when
    [v > 0.1] and [0] otherwise, so that [|cz[i]| <= 10 |wz[i]|]. *)
Theorem metrics_acceleration_and_curvature :
  forall (data : InputData) (gtData : option InputData)
         (vxs vys wzs : list R),
    vx data = map Fin vxs -> vy data = map Fin vys -> wz data = map Fin wzs ->
    length vxs = length (px data) -> length vys = length (px data) ->
    length wzs = length (px data) ->
    let out := calculateOutputData data gtData in
    let N := length (px data) in
    (length (ax out) = N /\ length (ay out) = N /\
     length (cz out) = N /\ length (l1 out) = N) /\
    forall i, (i < N)%nat ->
      let v := sqrt (nth i vxs 0 * nth i vxs 0 + nth i vys 0 * nth i vys 0) in
      nth i (ax out) NaN
        = Fin (match i with
               | O => 0
               | S j => (nth i vxs 0 - nth j vxs 0) / CONFIG.dt
               end) /\
      nth i (ay out) NaN
        = Fin (match i with
               | O => 0
               | S j => (nth i vys 0 - nth j vys 0) / CONFIG.dt
               end) /\
      exists c : R,
        nth i (cz out) NaN = Fin c /\
        c = (if Rlt_dec (1 / 10) v then nth i wzs 0 / v else 0) /\
        Rabs c <= 10 * Rabs (nth i wzs 0).
Proof.
  intros data gtData vxs vys wzs Hx Hy Hw L1 L2 L3 out N.
  destruct (calculateOutputData_rows data gtData) as (HL & Hrows).
  split; [exact HL|]. intros i Hi v. unfold out.
  destruct (Hrows i Hi) as (-> & -> & -> & _).
  rewrite Hx, Hy, !accel_real by lia.
  split; [reflexivity|]. split; [reflexivity|].
  rewrite (curvature_real data vxs vys wzs) by (assumption || lia).
  fold v. eexists; split; [reflexivity|]. split; [reflexivity|].
  destruct (Rlt_dec (1 / 10) v) as [Hv|Hv].
  - unfold Rdiv. rewrite Rabs_mult.
    assert (0 < / v) by (apply Rinv_0_lt_compat; lra).
    rewrite (Rabs_right (/ v)) by lra.
    assert (/ v < 10).
    { replace 10 with (/ (1 / 10)) by field.
      apply Rinv_lt_contravar; lra. }
    pose proof (Rabs_pos (nth i wzs 0)). nra.
  - rewrite Rabs_R0. pose proof (Rabs_pos (nth i wzs 0)). lra.
Qed.

Lemma metrics_acceleration_and_curvature_witness :
  nth 1 (ax (calculateOutputData
               (mkInputData [Fin 0; Fin 0] [Fin 0; Fin 0] []
                            [Fin 1; Fin 3] [Fin 0; Fin 0] [Fin 2; Fin 2])
               None)) NaN
  = Fin ((3 - 1) / CONFIG.dt).
Proof.
  destruct (metrics_acceleration_and_curvature
              (mkInputData [Fin 0; Fin 0] [Fin 0; Fin 0] []
                           [Fin 1; Fin 3] [Fin 0; Fin 0] [Fin 2; Fin 2])
              None [1; 3] [0; 0] [2; 2]
              eq_refl eq_refl eq_refl eq_refl eq_refl eq_refl) as (_ & H).
  exact (proj1 (H 1%nat (le_n 2))).
Defined.

(** ** Yaw rate *)

Lemma in_oc_fin (a : num) : in_oc a -> is_fin a.
Proof. intros (r & -> & _). now exists r. Qed.

Lemma div_dt_bound (w : R) :
  - PI <= w <= PI ->
  - PI / CONFIG.dt <= w / CONFIG.dt <= PI / CONFIG.dt.
Proof. intros H. unfold CONFIG.dt. lra. Qed.

(** A yaw rate computed from two numbers is a number of magnitude at most
    [PI / dt]. *)
Lemma yaw_rate_bounded (i : nat) (a b : num) :
  is_fin a -> (match i with O => True | S _ => is_fin b end) ->
  exists w, yaw_rate i a b = Fin w /\
            - PI / CONFIG.dt <= w <= PI / CONFIG.dt.
Proof.
  intros [x ->] Hb. destruct i as [|j].
  - exists 0. split; [reflexivity|]. pose proof PI_RGT_0.
    unfold CONFIG.dt. lra.
  - destruct Hb as [y ->]. simpl. eexists; split; [reflexivity|].
    pose proof (div_dt_bound _ (normalizeR_range (x - y))). lra.
Qed.

Lemma yaw_bound_position (data : InputData) (i : nat) :
  (i < length (wz (calculateFromPxPy data)))%nat ->
  exists w, nth i (wz (calculateFromPxPy data)) NaN = Fin w /\
            - PI / CONFIG.dt <= w <= PI / CONFIG.dt.
Proof.
  destruct (calculateFromPxPy_rows data) as (_ & (_ & _ & Lo & Lw) & Hrows).
  rewrite Lw. intros Hi. destruct (Hrows i Hi) as (_ & _ & _ & ->).
  destruct (yaw_rate_bounded i
              (nth i (oz (calculateFromPxPy data)) NaN)
              (nth (pred i) (oz (calculateFromPxPy data)) NaN))
    as (w & E & Hw).
  - apply in_oc_fin, oz_position_in_oc. now rewrite Lo.
  - destruct i; [exact I|]. apply in_oc_fin, oz_position_in_oc.
    rewrite Lo. simpl. lia.
  - exists w. split; [exact E | lra].
Qed.

Lemma yaw_bound_velocity (data : InputData) (i : nat) :
  (i < length (wz (calculateFromVxVy data)))%nat ->
  exists w, nth i (wz (calculateFromVxVy data)) NaN = Fin w /\
            - PI / CONFIG.dt <= w <= PI / CONFIG.dt.
Proof.
  destruct (calculateFromVxVy_rows data) as (_ & (_ & _ & Lo & Lw) & Hrows).
  rewrite Lw. intros Hi. destruct (Hrows i Hi) as (_ & _ & _ & ->).
  destruct (yaw_rate_bounded i
              (nth i (oz (calculateFromVxVy data)) NaN)
              (nth (pred i) (oz (calculateFromVxVy data)) NaN))
    as (w & E & Hw).
  - apply in_oc_fin, oz_velocity_in_oc. now rewrite Lo.
  - destruct i; [exact I|]. apply in_oc_fin, oz_velocity_in_oc.
    rewrite Lo. simpl. lia.
  - exists w. split; [exact E | lra].
Qed.

Lemma yaw_bound_differential (data : InputData) (ozs : list R) (i : nat) :
  oz data = map Fin ozs -> length ozs = length (px data) ->
  (i < length (wz (calculateFromPxOz data)))%nat ->
  exists w, nth i (wz (calculateFromPxOz data)) NaN = Fin w /\
            - PI / CONFIG.dt <= w <= PI / CONFIG.dt.
Proof.
  intros Ho Hl.
  destruct (calculateFromPxOz_rows data) as (_ & (_ & _ & _ & Lw) & Hrows).
  rewrite Lw. intros Hi. destruct (Hrows i Hi) as (_ & _ & _ & ->).
  destruct (yaw_rate_bounded i (oz data).[Z.of_nat i]
              (oz data).[Z.of_nat i - 1]) as (w & E & Hw).
  - rewrite Ho, aget_map_Fin by lia. now eexists.
  - destruct i as [|j]; [exact I|].
    rewrite aget_pred, Ho, nth_map_Fin by lia. now eexists.
  - exists w. split; [exact E | lra].
Qed.

(** X7.  The yaw rate never exceeds half a turn per time step: in position
    and velocity mode, for every input, and in differential mode for a
    driving [oz] of real numbers as long as [px], every [wz[i]] of the
    output is a number with [|wz[i]| <= PI / dt]. *)
Theorem yaw_rate_is_bounded :
  (forall (data : InputData) (mode : Methods),
     mode = position \/ mode = velocity ->
     let out := getCompleteTrajectoryData data mode in
     forall i, (i < length (wz out))%nat ->
       exists w, nth i (wz out) NaN = Fin w /\
                 - PI / CONFIG.dt <= w <= PI / CONFIG.dt) /\
  (forall (data : InputData) (ozs : list R),
     oz data = map Fin ozs -> length ozs = length (px data) ->
     let out := getCompleteTrajectoryData data differential in
     forall i, (i < length (wz out))%nat ->
       exists w, nth i (wz out) NaN = Fin w /\
                 - PI / CONFIG.dt <= w <= PI / CONFIG.dt).
Proof.
  split.
  - intros data mode [-> | ->] out i Hi.
    + now apply yaw_bound_position.
    + now apply yaw_bound_velocity.
  - intros data ozs Ho Hl out i Hi.
    now apply (yaw_bound_differential data ozs).
Qed.

Lemma yaw_rate_is_bounded_witness :
  let out := getCompleteTrajectoryData
               (mkInputData [Fin 0; Fin 1] [Fin 0; Fin 0] [] [] [] [])
               position in
  exists w, nth 1 (wz out) NaN = Fin w /\
            - PI / CONFIG.dt <= w <= PI / CONFIG.dt.
Proof.
  intros out.
  apply (proj1 yaw_rate_is_bounded
           (mkInputData [Fin 0; Fin 1] [Fin 0; Fin 0] [] [] [] [])
           position (or_introl eq_refl)).
  destruct (calculateFromPxPy_rows
              (mkInputData [Fin 0; Fin 1] [Fin 0; Fin 0] [] [] [] []))
    as (_ & (_ & _ & _ & L) & _).
  cbn [getCompleteTrajectoryData]. rewrite L. simpl. lia.
Defined.

(** ** From position mode to velocity mode *)

(** Integrating the forward differences of a buffer gives the buffer
    back. *)
Lemma integ_of_differences (xs : list R) (f : nat -> num) (i : nat) :
  (i < length xs)%nat ->
  (forall j, (S j < length xs)%nat ->
     f j = Fin ((nth (S j) xs 0 - nth j xs 0) / CONFIG.dt)) ->
  integ (Fin (seed (map Fin xs))) f i = Fin (nth i xs 0).
Proof.
  intros Hi Hf. induction i as [|i IH].
  - simpl. destruct xs; [simpl in Hi; lia | reflexivity].
  - cbn [integ]. rewrite IH by lia. rewrite Hf by lia. simpl. f_equal.
    unfold CONFIG.dt. field.
Qed.

Lemma finite_diff_forward (xs : list R) (j : nat) :
  (S j < length xs)%nat ->
  finite_diff (map Fin xs) (length xs) j
  = Fin ((nth (S j) xs 0 - nth j xs 0) / CONFIG.dt).
Proof.
  intros Hj. unfold finite_diff.
  destruct (Z.ltb_spec (Z.of_nat j) (Z.of_nat (length xs) - 1)); [|lia].
  rewrite aget_succ, aget_nat, !nth_map_Fin by lia. reflexivity.
Qed.

(** Two orientation arrays filled by the same carry-forward rule from the
    same velocities are equal. *)
Lemma heading_rows_unique (o1 o2 : list num) (f g : nat -> num) (N : nat) :
  length o1 = N -> length o2 = N ->
  (forall j, (j < N)%nat ->
     nth j o1 NaN = heading (f j) (g j) j (nth (pred j) o1 NaN)) ->
  (forall j, (j < N)%nat ->
     nth j o2 NaN = heading (f j) (g j) j (nth (pred j) o2 NaN)) ->
  o1 = o2.
Proof.
  intros L1 L2 H1 H2. apply list_eq_nth; [congruence|].
  rewrite L1. intros j. induction j as [|j IH]; intros Hj.
  - rewrite H1, H2 by exact Hj. unfold heading.
    destruct (Js.gt _ _); reflexivity.
  - rewrite H1, H2 by exact Hj. simpl pred. now rewrite IH by lia.
Qed.

Lemma position_then_velocity (data : InputData) (xs ys : list R) :
  px data = map Fin xs -> py data = map Fin ys -> length xs = length ys ->
  calculateFromVxVy (calculateFromPxPy data) = calculateFromPxPy data.
Proof.
  intros Hx Hy Hlen.
  set (p := calculateFromPxPy data).
  destruct (calculateFromPxPy_rows data)
    as ((Ppx & Ppy) & (Lvx & Lvy & Loz & Lwz) & Prow).
  fold p in Ppx, Ppy, Lvx, Lvy, Loz, Lwz, Prow.
  rewrite Hx, length_map in Lvx, Lvy, Loz, Lwz, Prow.
  destruct (calculateFromVxVy_rows p)
    as ((Vvx & Vvy) & (Mpx & Mpy & Moz & Mwz) & Vrow).
  rewrite Lvx in Mpx, Mpy, Moz, Mwz, Vrow.
  set (v := calculateFromVxVy p) in *.
  assert (Epx : px v = px p).
  { rewrite Ppx, Hx. apply list_eq_nth.
    - now rewrite length_map.
    - intros j Hj. rewrite Mpx in Hj.
      destruct (Vrow j Hj) as (-> & _).
      rewrite or_seed, Ppx, Hx, nth_map_Fin by exact Hj.
      apply integ_of_differences; [exact Hj|].
      intros k Hk. rewrite aget_nat.
      destruct (Prow k) as (-> & _); [lia|].
      now apply finite_diff_forward. }
  assert (Epy : py v = py p).
  { rewrite Ppy, Hy. apply list_eq_nth.
    - rewrite length_map. lia.
    - intros j Hj. rewrite Mpy in Hj.
      destruct (Vrow j Hj) as (_ & -> & _).
      rewrite or_seed, Ppy, Hy, nth_map_Fin by lia.
      apply integ_of_differences; [lia|].
      intros k Hk. rewrite aget_nat.
      destruct (Prow k) as (_ & -> & _); [lia|].
      rewrite Hy. rewrite Hlen. apply finite_diff_forward. lia. }
  assert (Eoz : oz v = oz p).
  { apply (heading_rows_unique _ _
             (fun j => nth j (vx p) NaN) (fun j => nth j (vy p) NaN)
             (length xs)); try assumption.
    - intros j Hj. destruct (Vrow j Hj) as (_ & _ & E & _).
      now rewrite !aget_nat in E.
    - intros j Hj. now destruct (Prow j Hj) as (_ & _ & E & _). }
  assert (Ewz : wz v = wz p).
  { apply list_eq_nth; [congruence|]. rewrite Mwz. intros j Hj.
    destruct (Vrow j Hj) as (_ & _ & _ & ->).
    destruct (Prow j Hj) as (_ & _ & _ & ->).
    now rewrite Eoz. }
  rewrite <- (InputData_eta v), <- (InputData_eta p).
  now rewrite Epx, Epy, Eoz, Ewz, Vvx, Vvy.
Qed.

(** X8.  A state derived in position mode from [px], [py] of real numbers
    and equal length is what velocity mode derives from it: integrating its
    velocities gives back [px] and [py] at every index, and the
    orientation and yaw rate come out the same. *)
Theorem position_state_is_velocity_consistent :
  forall (data : InputData) (xs ys : list R),
    px data = map Fin xs -> py data = map Fin ys -> length xs = length ys ->
    getCompleteTrajectoryData
      (getCompleteTrajectoryData data position) velocity
    = getCompleteTrajectoryData data position.
Proof. exact position_then_velocity. Qed.

Lemma position_state_is_velocity_consistent_witness :
  getCompleteTrajectoryData
    (getCompleteTrajectoryData
       (mkInputData [Fin 0; Fin 1; Fin 3] [Fin 0; Fin 0; Fin 2] [] [] [] [])
       position) velocity
  = getCompleteTrajectoryData
      (mkInputData [Fin 0; Fin 1; Fin 3] [Fin 0; Fin 0; Fin 2] [] [] [] [])
      position.
Proof.
  exact (position_state_is_velocity_consistent
           (mkInputData [Fin 0; Fin 1; Fin 3] [Fin 0; Fin 0; Fin 2]
                        [] [] [] [])
           [0; 1; 3] [0; 0; 2] eq_refl eq_refl eq_refl).
Defined.

(** ** Closed forms on real driving signals *)

Lemma all_fin_map (l : list num) :
  (forall i, (i < length l)%nat -> is_fin (nth i l NaN)) ->
  exists rs : list R, l = map Fin rs.
Proof.
  induction l as [|a t IH]; intros H.
  - now exists [].
  - destruct (H O) as [r Er]; [simpl; lia|]. simpl in Er. subst a.
    destruct IH as [rs ->].
    + intros i Hi. apply (H (S i)). simpl. lia.
    + now exists (r :: rs).
Qed.

Lemma calculateFromVxVy_heading_real (data : InputData) (vxs vys : list R) :
  vx data = map Fin vxs -> vy data = map Fin vys ->
  length vxs = length vys ->
  let out := calculateFromVxVy data in
  forall i, (i < length vxs)%nat ->
    exists a b : R,
      nth i (oz out) NaN = Fin a /\
      match i with O => b = 0 | S j => nth j (oz out) NaN = Fin b end /\
      a = (if Rlt_dec (1 / 100)
                (sqrt (nth i vxs 0 * nth i vxs 0 + nth i vys 0 * nth i vys 0))
           then Js.atan2R (nth i vys 0) (nth i vxs 0)
           else b) /\
      nth i (wz out) NaN
        = match i with
          | O => Fin 0
          | S _ => Fin (wrap_closed (a - b) / CONFIG.dt)
          end /\
      - PI <= wrap_closed (a - b) <= PI.
Proof.
  intros Hx Hy Hlen out i Hi.
  destruct (calculateFromVxVy_rows data) as (_ & (_ & _ & Loz & _) & Hrows).
  rewrite Hx, length_map in Loz, Hrows. fold out in Loz, Hrows.
  destruct (Hrows i Hi) as (_ & _ & Eoz & Ewz).
  rewrite Hy, !aget_map_Fin in Eoz by lia.
  assert (Hoc : forall j, (j < length vxs)%nat -> in_oc (nth j (oz out) NaN)).
  { intros j Hj. apply oz_velocity_in_oc. fold out. rewrite Loz. exact Hj. }
  destruct (Hoc i Hi) as (a & Ea & Ra).
  rewrite heading_real in Eoz.
  destruct i as [|j].
  - exists a, 0. split; [exact Ea|]. split; [reflexivity|]. split.
    + rewrite Ea in Eoz. destruct (Rlt_dec _ _); now inversion Eoz.
    + split; [exact Ewz|]. apply wrap_closed_range.
      pose proof PI_RGT_0. lra.
  - destruct (Hoc j) as (b & Eb & Rb); [lia|].
    exists a, b. split; [exact Ea|]. split; [exact Eb|]. split.
    + simpl pred in Eoz. rewrite Ea, Eb in Eoz.
      destruct (Rlt_dec _ _); now inversion Eoz.
    + split.
      * rewrite Ewz. simpl pred. rewrite Ea, Eb. now apply yaw_rate_real.
      * apply wrap_closed_range. lra.
Qed.

(** X9.  Velocity mode derives the orientation from the driving velocities
    (real numbers, equal length): [oz[i] = atan2 (vy[i], vx[i])] when
    [sqrt (vx[i]^2 + vy[i]^2) > 0.01], otherwise [oz[i-1]] ([0] at
    [i = 0]); [wz[0] = 0] and, for [i > 0], [wz[i]] is [oz[i] - oz[i-1]]
    brought into [[-PI, PI]] by at most one turn, over [dt]. *)
Theorem velocity_mode_orientation :
  forall (data : InputData) (vxs vys : list R),
    vx data = map Fin vxs -> vy data = map Fin vys ->
    length vxs = length vys ->
    let out := getCompleteTrajectoryData data velocity in
    forall i, (i < length vxs)%nat ->
      exists a b : R,
        nth i (oz out) NaN = Fin a /\
        match i with O => b = 0 | S j => nth j (oz out) NaN = Fin b end /\
        a = (if Rlt_dec (1 / 100)
                  (sqrt (nth i vxs 0 * nth i vxs 0
                         + nth i vys 0 * nth i vys 0))
             then Js.atan2R (nth i vys 0) (nth i vxs 0)
             else b) /\
        nth i (wz out) NaN
          = match i with
            | O => Fin 0
            | S _ => Fin (wrap_closed (a - b) / CONFIG.dt)
            end /\
        - PI <= wrap_closed (a - b) <= PI.
Proof. exact calculateFromVxVy_heading_real. Qed.

Lemma velocity_mode_orientation_witness :
  exists a : R,
    nth 1 (oz (getCompleteTrajectoryData
                 (mkInputData [] [] [] [Fin 1; Fin 0] [Fin 0; Fin 1] [])
                 velocity)) NaN = Fin a.
Proof.
  destruct (velocity_mode_orientation
              (mkInputData [] [] [] [Fin 1; Fin 0] [Fin 0; Fin 1] [])
              [1; 0] [0; 1] eq_refl eq_refl eq_refl 1%nat (le_n 2))
    as (a & b & Ea & _).
  exists a. exact Ea.
Defined.

Lemma nth_map_seq (f : nat -> R) (N i : nat) :
  (i < N)%nat -> nth i (map f (seq 0 N)) 0 = f i.
Proof.
  intros Hi. rewrite (nth_indep _ 0 (f 0%nat)) by (now rewrite length_map, length_seq).
  rewrite (map_nth f (seq 0 N) 0%nat i). now rewrite seq_nth.
Qed.

Lemma calculateFromPxOz_real (data : InputData) (xs ozs : list R) :
  px data = map Fin xs -> oz data = map Fin ozs ->
  length xs = length ozs -> (2 <= length xs)%nat ->
  let out := calculateFromPxOz data in
  let N := length xs in
  exists vys : list R,
    vy out = map Fin vys /\ length vys = N /\
    forall i, (i < N)%nat ->
      nth i (vx out) NaN = Fin (diffR xs N i) /\
      nth i vys 0 = diffR xs N i * tan (nth i ozs 0) /\
      nth i (py out) NaN
        = Fin (seed (py data) + CONFIG.dt * sumR (firstn i vys)) /\
      exists w : R,
        nth i (wz out) NaN = Fin w /\
        match i with
        | O => w = 0
        | S j => - PI <= w * CONFIG.dt <= PI /\
                 exists k : Z,
                   w * CONFIG.dt
                   = nth i ozs 0 - nth j ozs 0 + 2 * PI * IZR k
        end.
Proof.
  intros Hx Ho Hlen HN out N.
  destruct (calculateFromPxOz_rows data) as (_ & (_ & _ & Lvy & _) & Hrows).
  rewrite Hx, length_map in Lvy, Hrows. fold out N in Lvy, Hrows.
  set (vys := map (fun j => diffR xs N j * tan (nth j ozs 0)) (seq 0 N)).
  assert (Lv : length vys = N) by (unfold vys; now rewrite length_map, length_seq).
  assert (Hvy : forall j, (j < N)%nat -> vy_PxOz data j = Fin (nth j vys 0)).
  { intros j Hj. unfold vy_PxOz, vys. rewrite nth_map_seq by exact Hj.
    rewrite Hx, length_map, finite_diff_real by (assumption || lia).
    rewrite Ho, aget_map_Fin by (unfold N in Hj; lia). reflexivity. }
  exists vys. split; [|split; [exact Lv|]].
  - apply list_eq_nth.
    + now rewrite length_map, Lv.
    + intros j Hj. rewrite Lvy in Hj.
      destruct (Hrows j Hj) as (_ & _ & -> & _).
      rewrite nth_map_Fin by lia. now apply Hvy.
  - intros i Hi. destruct (Hrows i Hi) as (Epy & Evx & _ & Ewz).
    rewrite finite_diff_real in Evx by (assumption || lia).
    split; [exact Evx|]. split.
    { unfold vys. now rewrite nth_map_seq. }
    split.
    { rewrite Epy, or_seed. apply integ_sum; [lia|].
      intros j Hj. apply Hvy. lia. }
    rewrite Ewz. destruct i as [|j].
    + exists 0. split; reflexivity.
    + rewrite aget_pred, aget_nat, Ho, !nth_map_Fin by (unfold N in Hi; lia).
      simpl. eexists; split; [reflexivity|].
      replace (normalizeR (nth (S j) ozs 0 - nth j ozs 0) / CONFIG.dt
               * CONFIG.dt)
        with (normalizeR (nth (S j) ozs 0 - nth j ozs 0))
        by (unfold CONFIG.dt; field).
      split; [apply normalizeR_range | apply normalizeR_turns].
Qed.

(** X10.  Differential mode on [px], [oz] of real numbers and equal length
    [N >= 2]: [vx[i]] is the forward difference of [px] (backward at the
    last index); [vy[i] = vx[i] * tan (oz[i])]; [py[i]] is the seed (the
    prior [py[0]], [0] when missing or falsy) plus [dt] times
    [vy[0] + ... + vy[i-1]]; [wz[0] = 0] and, for [i > 0], [wz[i] * dt]
    lies in [[-PI, PI]] and differs from [oz[i] - oz[i-1]] by a whole
    number of turns. *)
Theorem differential_mode_closed_form :
  forall (data : InputData) (xs ozs : list R),
    px data = map Fin xs -> oz data = map Fin ozs ->
    length xs = length ozs -> (2 <= length xs)%nat ->
    let out := getCompleteTrajectoryData data differential in
    let N := length xs in
    exists vys : list R,
      vy out = map Fin vys /\ length vys = N /\
      forall i, (i < N)%nat ->
        nth i (vx out) NaN = Fin (diffR xs N i) /\
        nth i vys 0 = diffR xs N i * tan (nth i ozs 0) /\
        nth i (py out) NaN
          = Fin (seed (py data) + CONFIG.dt * sumR (firstn i vys)) /\
        exists w : R,
          nth i (wz out) NaN = Fin w /\
          match i with
          | O => w = 0
          | S j => - PI <= w * CONFIG.dt <= PI /\
                   exists k : Z,
                     w * CONFIG.dt
                     = nth i ozs 0 - nth j ozs 0 + 2 * PI * IZR k
          end.
Proof. exact calculateFromPxOz_real. Qed.

Lemma differential_mode_closed_form_witness :
  exists vys : list R,
    vy (getCompleteTrajectoryData
          (mkInputData [Fin 0; Fin 1] [] [Fin 0; Fin 0] [] [] [])
          differential) = map Fin vys /\
    length vys = 2%nat.
Proof.
  destruct (differential_mode_closed_form
              (mkInputData [Fin 0; Fin 1] [] [Fin 0; Fin 0] [] [] [])
              [0; 1] [0; 0] eq_refl eq_refl eq_refl (le_n 2))
    as (vys & E & L & _).
  exists vys. split; [exact E | exact L].
Defined.

Lemma calculateFromVxWz_real (data : InputData) (vxs wzs : list R) :
  vx data = map Fin vxs -> wz data = map Fin wzs ->
  length vxs = length wzs ->
  let out := calculateFromVxWz data in
  let N := length vxs in
  exists ozs vys : list R,
    oz out = map Fin ozs /\ vy out = map Fin vys /\
    length ozs = N /\ length vys = N /\
    forall i, (i < N)%nat ->
      nth i (px out) NaN
        = Fin (seed (px data) + CONFIG.dt * sumR (firstn i vxs)) /\
      nth i (py out) NaN
        = Fin (seed (py data) + CONFIG.dt * sumR (firstn i vys)) /\
      nth i vys 0 = nth i vxs 0 * tan (nth i ozs 0) /\
      match i with
      | O => nth 0 ozs 0 = seed (oz data)
      | S j => - PI <= nth i ozs 0 <= PI /\
               exists k : Z,
                 nth i ozs 0
                 = nth j ozs 0 + nth j wzs 0 * CONFIG.dt + 2 * PI * IZR k
      end.
Proof.
  intros Hx Hw Hlen out N.
  destruct (calculateFromVxWz_rows data)
    as (_ & (_ & _ & Loz & Lvy) & Hrows).
  rewrite Hx, length_map in Loz, Lvy, Hrows. fold out N in Loz, Lvy, Hrows.
  assert (Hth : forall j, (j < N)%nat -> is_fin (theta_at data j)).
  { intros j Hj. apply (theta_at_fin data wzs j Hw). unfold N in Hj. lia. }
  destruct (all_fin_map (oz out)) as [ozs Eoz].
  { intros i Hi. rewrite Loz in Hi.
    destruct (Hrows i Hi) as (_ & _ & -> & _). now apply Hth. }
  assert (Lo : length ozs = N).
  { rewrite <- Loz, Eoz. now rewrite length_map. }
  assert (Hoz : forall j, (j < N)%nat -> theta_at data j = Fin (nth j ozs 0)).
  { intros j Hj. destruct (Hrows j Hj) as (_ & _ & <- & _).
    rewrite Eoz. apply nth_map_Fin. lia. }
  set (vys := map (fun j => nth j vxs 0 * tan (nth j ozs 0)) (seq 0 N)).
  assert (Lv : length vys = N) by (unfold vys; now rewrite length_map, length_seq).
  assert (Hvy : forall j, (j < N)%nat -> vy_VxWz data j = Fin (nth j vys 0)).
  { intros j Hj. unfold vy_VxWz, vys. rewrite nth_map_seq by exact Hj.
    rewrite Hoz by exact Hj. rewrite Hx, aget_map_Fin by exact Hj.
    reflexivity. }
  exists ozs, vys. split; [exact Eoz|]. split; [|split; [exact Lo|split; [exact Lv|]]].
  - apply list_eq_nth.
    + now rewrite length_map, Lv.
    + intros j Hj. rewrite Lvy in Hj.
      destruct (Hrows j Hj) as (_ & _ & _ & ->).
      rewrite nth_map_Fin by lia. now apply Hvy.
  - intros i Hi. destruct (Hrows i Hi) as (Epx & Epy & _ & _).
    split.
    { rewrite Epx, or_seed. apply integ_sum; [exact (Nat.lt_le_incl _ _ Hi)|].
      intros j Hj. rewrite aget_map_Fin by (unfold N in Hi; lia). reflexivity. }
    split.
    { rewrite Epy, or_seed. apply integ_sum; [lia|].
      intros j Hj. apply Hvy. lia. }
    split.
    { unfold vys. now rewrite nth_map_seq. }
    destruct i as [|j].
    + pose proof (Hoz O Hi) as E0. cbn [theta_at] in E0.
      rewrite or_seed in E0. now inversion E0.
    + pose proof (Hoz (S j) Hi) as ES. cbn [theta_at] in ES.
      rewrite Hoz in ES by lia.
      rewrite Hw, aget_map_Fin in ES by (unfold N in Hi; lia).
      simpl in ES. injection ES as E. rewrite <- E.
      split; [apply normalizeR_range | apply normalizeR_turns].
Qed.

(** X11.  Integral mode on [vx], [wz] of real numbers and equal length:
    every output is a number; [px[i]] and [py[i]] are their seeds plus [dt]
    times the sum of the earlier [vx], respectively [vy];
    [vy[i] = vx[i] * tan (oz[i])]; [oz[0]] is the seed and every later
    [oz[i]] lies in [[-PI, PI]] and differs from
    [oz[i-1] + wz[i-1] * dt] by a whole number of turns. *)
Theorem integral_mode_closed_form :
  forall (data : InputData) (vxs wzs : list R),
    vx data = map Fin vxs -> wz data = map Fin wzs ->
    length vxs = length wzs ->
    let out := getCompleteTrajectoryData data integral in
    let N := length vxs in
    exists ozs vys : list R,
      oz out = map Fin ozs /\ vy out = map Fin vys /\
      length ozs = N /\ length vys = N /\
      forall i, (i < N)%nat ->
        nth i (px out) NaN
          = Fin (seed (px data) + CONFIG.dt * sumR (firstn i vxs)) /\
        nth i (py out) NaN
          = Fin (seed (py data) + CONFIG.dt * sumR (firstn i vys)) /\
        nth i vys 0 = nth i vxs 0 * tan (nth i ozs 0) /\
        match i with
        | O => nth 0 ozs 0 = seed (oz data)
        | S j => - PI <= nth i ozs 0 <= PI /\
                 exists k : Z,
                   nth i ozs 0
                   = nth j ozs 0 + nth j wzs 0 * CONFIG.dt + 2 * PI * IZR k
        end.
Proof. exact calculateFromVxWz_real. Qed.

Lemma integral_mode_closed_form_witness :
  exists ozs vys : list R,
    oz (getCompleteTrajectoryData
          (mkInputData [] [] [] [Fin 1; Fin 1] [] [Fin 2; Fin 0])
          integral) = map Fin ozs /\
    vy (getCompleteTrajectoryData
          (mkInputData [] [] [] [Fin 1; Fin 1] [] [Fin 2; Fin 0])
          integral) = map Fin vys.
Proof.
  destruct (integral_mode_closed_form
              (mkInputData [] [] [] [Fin 1; Fin 1] [] [Fin 2; Fin 0])
              [1; 1] [2; 0] eq_refl eq_refl eq_refl)
    as (ozs & vys & E1 & E2 & _).
  exists ozs, vys. split; [exact E1 | exact E2].
Defined.

(** ** Batch updates *)

Lemma length_aset_max (a : list num) (i : nat) (v : num) :
  length (aset a i v) = Nat.max (length a) (S i).
Proof.
  revert a; induction i as [|i IH]; intros [|h t]; simpl;
    rewrite ?IH; simpl; lia.
Qed.

Lemma apply_updates_snoc (data : list num) (us : list Update) (u : Update) :
  apply_updates data (us ++ [u])
  = aset (apply_updates data us) (index u) (value u).
Proof. unfold apply_updates. now rewrite fold_left_app. Qed.

Lemma apply_updates_nth (data : list num) (updates : list Update) (i : nat) :
  nth i (apply_updates data updates) NaN
  = last_write updates i (nth i data NaN).
Proof.
  induction updates as [|u us IH] using rev_ind.
  - reflexivity.
  - rewrite apply_updates_snoc, nth_aset. unfold last_write.
    rewrite rev_app_distr. simpl. rewrite (Nat.eqb_sym i).
    destruct (Nat.eqb (index u) i); [reflexivity | exact IH].
Qed.

Lemma apply_updates_length (data : list num) (updates : list Update) :
  (forall u, In u updates -> (index u < length data)%nat) ->
  length (apply_updates data updates) = length data.
Proof.
  induction updates as [|u us IH] using rev_ind; intros H.
  - reflexivity.
  - rewrite apply_updates_snoc, length_aset_max, IH.
    + assert (index u < length data)%nat by (apply H, in_or_app; simpl; auto).
      lia.
    + intros u' Hu'. apply H, in_or_app. auto.
Qed.

(** X12.  The updates of a batch are applied in order: afterwards every
    index holds the value of the last update addressed to it and its old
    value when there is none; when every index is within the buffer the
    length does not change.  A batch update of an output signal writes the
    buffer so updated to that output cell and leaves the other output
    cells alone. *)
Theorem batch_update_last_write_wins :
  forall (data : list num) (updates : list Update),
    (forall i, nth i (apply_updates data updates) NaN
               = last_write updates i (nth i data NaN)) /\
    ((forall u, In u updates -> (index u < length data)%nat) ->
     length (apply_updates data updates) = length data) /\
    (forall (st : Store) (key : OutputKey),
       let st' := run (batchUpdateTimeSeriesAtom (DOut key) updates) st in
       forall k,
         outputDataAtomFamily st' k =
         if OutputKey_eqb k key
         then apply_updates (outputDataAtomFamily st key) updates
         else outputDataAtomFamily st k).
Proof.
  intros data updates. split; [|split].
  - intros i. apply apply_updates_nth.
  - apply apply_updates_length.
  - intros st key st' k. destruct key, k; reflexivity.
Qed.

Lemma batch_update_last_write_wins_witness :
  length (apply_updates [Fin 0; Fin 0] [mkUpdate 1 (Fin 5)]) = 2%nat.
Proof.
  apply (proj1 (proj2 (batch_update_last_write_wins
                         [Fin 0; Fin 0] [mkUpdate 1 (Fin 5)]))).
  intros u [<-|[]]. simpl. lia.
Defined.

(** ** The state after an edit *)

Lemma batch_update_inputDataAtom (st : Store) (key : InputKey)
    (updates : list Update) :
  inputDataAtom (run (batchUpdateTimeSeriesAtom (DIn key) updates) st)
  = getCompleteTrajectoryData
      (state_of (with_input st key
                   (apply_updates (inputDataAtomFamily st key) updates)))
      (methodAtom st).
Proof.
  rewrite batchUpdate_input_run, sync_inputDataAtom.
  reflexivity.
Qed.

(** X13.  After a batch update of any input signal, driving or not, the six
    input cells are the state derived from the edited cells, that state is
    its own derivation, and the four output cells are its metrics against
    the ground truth of the store. *)
Theorem batch_update_resynchronizes :
  forall (st : Store) (key : InputKey) (updates : list Update),
    let edited :=
      state_of (with_input st key
                  (apply_updates (inputDataAtomFamily st key) updates)) in
    let st' := run (batchUpdateTimeSeriesAtom (DIn key) updates) st in
    inputDataAtom st' = getCompleteTrajectoryData edited (methodAtom st) /\
    completeTrajectoryDataAtom st' = inputDataAtom st' /\
    forall k, outputDataAtomFamily st' k
              = out_field (calculateOutputData (inputDataAtom st')
                             (if hasGroundTruthAtom st
                              then Some (gtDataAtom st) else None)) k.
Proof.
  intros st key updates edited st'.
  pose proof (batch_update_inputDataAtom st key updates) as E.
  fold edited st' in E.
  set (st0 := run (set_input key
                     (apply_updates (inputDataAtomFamily st key) updates)) st).
  assert (Est : st' = run syncOutputDataAtom st0)
    by (unfold st'; now rewrite batchUpdate_input_run).
  split; [exact E|]. split.
  - rewrite Est, sync_complete. symmetry. apply sync_inputDataAtom.
  - intros k. rewrite Est.
    destruct (syncOutputDataAtom_store st0) as (_ & Ho & _).
    rewrite Ho, sync_inputDataAtom. reflexivity.
Qed.

(** ** Buffer lengths *)

Lemma derive_lengths (d : InputData) (mode : Methods) (key : InputKey) :
  ~ In key (METHODS_inputs mode) ->
  length (field (getCompleteTrajectoryData d mode) key)
  = length (field d (primary mode)).
Proof.
  intros Hnin.
  destruct mode; cbn [getCompleteTrajectoryData primary field].
  - destruct (calculateFromPxPy_rows d) as (_ & (L1 & L2 & L3 & L4) & _).
    destruct key; simpl in Hnin; try tauto; assumption.
  - destruct (calculateFromVxVy_rows d) as (_ & (L1 & L2 & L3 & L4) & _).
    destruct key; simpl in Hnin; try tauto; assumption.
  - destruct (calculateFromVxWz_rows d) as (_ & (L1 & L2 & L3 & L4) & _).
    destruct key; simpl in Hnin; try tauto; assumption.
  - destruct (calculateFromPxOz_rows d) as (_ & (L1 & L2 & L3 & L4) & _).
    destruct key; simpl in Hnin; try tauto; assumption.
Qed.

Lemma primary_driving (mode : Methods) : In (primary mode) (METHODS_inputs mode).
Proof. destruct mode; simpl; auto. Qed.

Lemma field_inputDataAtom (st : Store) (k : InputKey) :
  field (inputDataAtom st) k = inputDataAtomFamily st k.
Proof. now destruct k. Qed.

Lemma complete_lengths (st : Store) (N : nat) :
  (forall k, In k (METHODS_inputs (methodAtom st)) ->
     length (inputDataAtomFamily st k) = N) ->
  forall k, length (field (completeTrajectoryDataAtom st) k) = N.
Proof.
  intros HN k. unfold completeTrajectoryDataAtom.
  destruct (has (METHODS_inputs (methodAtom st)) k) eqn:Hh.
  - apply has_In in Hh. rewrite driving_passthrough by exact Hh.
    rewrite field_inputDataAtom. now apply HN.
  - rewrite derive_lengths, field_inputDataAtom.
    + apply HN, primary_driving.
    + intros Hin. apply has_In in Hin. congruence.
Qed.

Lemma sync_lengths (st : Store) (N : nat) :
  (forall k, In k (METHODS_inputs (methodAtom st)) ->
     length (inputDataAtomFamily st k) = N) ->
  (forall k, length (inputDataAtomFamily (run syncOutputDataAtom st) k) = N) /\
  (forall k, length (outputDataAtomFamily (run syncOutputDataAtom st) k) = N).
Proof.
  intros HN. split.
  - intros k. rewrite sync_cells. now apply complete_lengths.
  - intros k. destruct (syncOutputDataAtom_store st) as (_ & Ho & _).
    rewrite Ho. unfold outputDataInternalAtom.
    destruct (calculateOutputData_rows (completeTrajectoryDataAtom st)
                (if hasGroundTruthAtom st then Some (gtDataAtom st) else None))
      as ((L1 & L2 & L3 & L4) & _).
    pose proof (complete_lengths st N HN Kpx) as Lp. cbn [field] in Lp.
    rewrite Lp in L1, L2, L3, L4.
    destruct k; assumption.
Qed.

(** X14.  Buffer lengths.  When the two driving cells have length [N], the
    synchronization step leaves all six input cells and all four output
    cells with length [N].  A batch update of an input signal whose
    indices are below [N] keeps ten cells of length [N].  An import into a
    store whose input cells have length [timeSteps] leaves input cells of
    length [timeSteps], and output cells too when the document is
    accepted. *)
Theorem buffer_lengths_are_kept :
  (forall (st : Store) (N : nat),
     (forall k, In k (METHODS_inputs (methodAtom st)) ->
        length (inputDataAtomFamily st k) = N) ->
     let st' := run syncOutputDataAtom st in
     (forall k, length (inputDataAtomFamily st' k) = N) /\
     (forall k, length (outputDataAtomFamily st' k) = N)) /\
  (forall (st : Store) (N : nat) (key : InputKey) (updates : list Update),
     (forall k, length (inputDataAtomFamily st k) = N) ->
     (forall u, In u updates -> (index u < N)%nat) ->
     let st' := run (batchUpdateTimeSeriesAtom (DIn key) updates) st in
     (forall k, length (inputDataAtomFamily st' k) = N) /\
     (forall k, length (outputDataAtomFamily st' k) = N)) /\
  (forall (st : Store) (doc : Json),
     (forall k, length (inputDataAtomFamily st k) = CONFIG.timeSteps) ->
     let st' := run (importData doc) st in
     (forall k, length (inputDataAtomFamily st' k) = CONFIG.timeSteps) /\
     (result (importData doc) st = Imported ->
      forall k, length (outputDataAtomFamily st' k) = CONFIG.timeSteps)).
Proof.
  split; [|split].
  - intros st N HN st'. now apply sync_lengths.
  - intros st N key updates HN Hu st'. unfold st'.
    rewrite batchUpdate_input_run.
    apply sync_lengths. intros k _.
    change (length (with_input st key
                      (apply_updates (inputDataAtomFamily st key) updates) k)
            = N).
    unfold with_input. destruct (InputKey_eqb k key); [|apply HN].
    rewrite apply_updates_length; [apply HN|].
    intros u Hin. rewrite HN. now apply Hu.
  - intros st doc HN st'. unfold st'.
    destruct (validateImportData doc) eqn:Hv.
    + destruct doc as [|fields]; [discriminate Hv|].
      unfold run at 1 2, result.
      rewrite (importData_run fields st Hv). cbn [fst snd].
      set (normalized := fun key => option_map _ (fields key)).
      unfold importTrajectoryAtom. rewrite run_bind.
      destruct (import_loop_store normalized st) as (Hc & Hm).
      match goal with |- context [run syncOutputDataAtom ?s] => set (st1 := s) in * end.
      destruct (sync_lengths st1 CONFIG.timeSteps) as (HI & HO).
      { intros k _. rewrite Hc. unfold merged, normalized.
        destruct (fields k) as [arr|]; [|apply HN]. cbn [option_map].
        rewrite padOrTruncate_spec, length_app, repeat_length.
        rewrite length_firstn. lia. }
      split; [exact HI | intros _; exact HO].
    + unfold importData. rewrite Hv. cbn [negb]. unfold run, result, ret.
      cbn [fst snd]. split; [exact HN | discriminate].
Qed.

Lemma buffer_lengths_are_kept_witness :
  let st := mkStore (fun _ => [Fin 0; Fin 0]) (fun _ => []) (fun _ => [])
                    velocity in
  length (inputDataAtomFamily (run syncOutputDataAtom st) Kpx) = 2%nat.
Proof.
  intros st.
  refine (proj1 (proj1 buffer_lengths_are_kept st 2%nat _) Kpx).
  intros k _. reflexivity.
Defined.

(** ** The default trajectory *)

Lemma lt_Fin (a b : R) :
  Js.lt (Fin a) (Fin b) = if Rlt_dec a b then true else false.
Proof. reflexivity. Qed.

Lemma default_wz_branch (wzs : list num) (N k : nat) :
  (k < length wzs)%nat -> nth k wzs NaN = Fin 0 ->
  (if Js.lt (Fin (INR k) / Fin (INR N))%J (Fin (3 / 10))
   then aset wzs k
          (Fin (3 / 10)
           * JsMath.sin ((Fin (INR k) / Fin (INR N) * Fin PI) / Fin (3 / 10)))%J
   else if Js.lt (Fin (INR k) / Fin (INR N))%J (Fin (7 / 10))
        then aset wzs k
               (Fin (- (3 / 10))
                * JsMath.sin (((Fin (INR k) / Fin (INR N) - Fin (3 / 10))
                               * Fin PI) / Fin (4 / 10)))%J
        else wzs)
  = aset wzs k (Fin (default_wz N k)).
Proof.
  intros Hk E0. unfold default_wz. cbv zeta. simpl Js.div. rewrite !lt_Fin.
  destruct (Rlt_dec (INR k / INR N) (3 / 10)); [reflexivity|].
  destruct (Rlt_dec (INR k / INR N) (7 / 10)); [reflexivity|].
  symmetry. now apply aset_same.
Qed.

Lemma Default_step (N k : nat) (s : LocalsDefault) :
  (k < N)%nat -> Default_inv N k s ->
  Default_inv N (S k) (initializeDefaultData_body N k s).
Proof.
  intros Hk ((L1 & L2 & L3 & L4 & L5 & L6) & (Ex & Ey & Et) & Hrows & Htail).
  unfold initializeDefaultData_body. cbv zeta.
  rewrite default_wz_branch by (try apply Htail; lia).
  rewrite !aget_nat, !nth_aset_eq, Ex, Ey, Et.
  assert (Evx : (Fin 10 + Fin 3
                 * JsMath.sin (Fin (INR k) / Fin (INR N) * Fin PI * Fin 2))%J
                = Fin (default_speed N k)) by reflexivity.
  rewrite Evx.
  assert (Eth : (Fin (default_theta N k) + Fin (default_wz N k) * dt)%J
                = Fin (default_theta N (S k))) by reflexivity.
  rewrite Eth.
  assert (E1 : (Fin (default_speed N k)
                * JsMath.cos (Fin (default_theta N (S k))))%J
               = Fin (default_vx N k)) by reflexivity.
  assert (E2 : (Fin (default_speed N k)
                * JsMath.sin (Fin (default_theta N (S k))))%J
               = Fin (default_vy N k)) by reflexivity.
  rewrite E1, E2.
  assert (E3 : (Fin (default_x N k) + Fin (default_vx N k) * dt)%J
               = Fin (default_x N (S k))) by reflexivity.
  assert (E4 : (Fin (default_y N k) + Fin (default_vy N k) * dt)%J
               = Fin (default_y N (S k))) by reflexivity.
  rewrite E3, E4.
  split; [|split; [|split]].
  - simpl. rewrite !length_aset by lia. repeat split; assumption.
  - simpl. auto.
  - intros j Hj. unfold Default_row; simpl.
    destruct (Nat.eq_dec j k) as [->|Hne].
    + rewrite !nth_aset_eq. repeat split; reflexivity.
    + destruct (Hrows j) as (R1 & R2 & R3 & R4 & R5 & R6); [lia|].
      nth_aset_tac. repeat split; assumption.
  - intros j Hj. simpl. nth_aset_tac. apply Htail. lia.
Qed.

Lemma Default_final (N : nat) :
  Default_inv N N
    (for_loop N (initializeDefaultData_body N)
       (mkLocalsDefault
          (new_Array_fill0 N) (new_Array_fill0 N) (new_Array_fill0 N)
          (new_Array_fill0 N) (new_Array_fill0 N) (new_Array_fill0 N)
          (Fin 0) (Fin 0) (Fin 0))).
Proof.
  apply (for_loop_inv (Default_inv N)).
  - split; [|split; [|split]].
    + repeat split; apply length_new_Array.
    + repeat split.
    + intros j Hj; lia.
    + intros j Hj. simpl. now rewrite nth_new_Array by lia.
  - intros i s Hi. now apply Default_step.
Qed.

Lemma initializeDefaultData_rows :
  let d := initializeDefaultData in
  let N := CONFIG.timeSteps in
  (length (px d) = N /\ length (py d) = N /\ length (oz d) = N /\
   length (vx d) = N /\ length (vy d) = N /\ length (wz d) = N) /\
  forall j, (j < N)%nat ->
    nth j (px d) NaN = Fin (default_x N (S j)) /\
    nth j (py d) NaN = Fin (default_y N (S j)) /\
    nth j (oz d) NaN = Fin (default_theta N (S j)) /\
    nth j (vx d) NaN = Fin (default_vx N j) /\
    nth j (vy d) NaN = Fin (default_vy N j) /\
    nth j (wz d) NaN = Fin (default_wz N j).
Proof.
  intros d N. destruct (Default_final N) as (HL & _ & Hrows & _).
  split; [exact HL|]. intros j Hj. exact (Hrows j Hj).
Qed.

Lemma default_wz_bound (N i : nat) : Rabs (default_wz N i) <= 3 / 10.
Proof.
  unfold default_wz. cbv zeta.
  destruct (Rlt_dec _ _).
  - pose proof (SIN_bound (INR i / INR N * PI / (3 / 10))).
    apply Rabs_le. lra.
  - destruct (Rlt_dec _ _).
    + pose proof (SIN_bound ((INR i / INR N - 3 / 10) * PI / (4 / 10))).
      apply Rabs_le. lra.
    + rewrite Rabs_R0. lra.
Qed.

Lemma default_speed_bound (N i : nat) : 7 <= default_speed N i <= 13.
Proof.
  unfold default_speed. pose proof (SIN_bound (INR i / INR N * PI * 2)). lra.
Qed.

Lemma default_speed_sq (N i : nat) :
  default_vx N i * default_vx N i + default_vy N i * default_vy N i
  = default_speed N i * default_speed N i.
Proof.
  unfold default_vx, default_vy.
  pose proof (sin2_cos2 (default_theta N (S i))) as H.
  unfold Rsqr in H. nra.
Qed.

Lemma list_of_rows (l : list num) (f : nat -> R) (N : nat) :
  length l = N -> (forall j, (j < N)%nat -> nth j l NaN = Fin (f j)) ->
  l = map Fin (map f (seq 0 N)).
Proof.
  intros HL H. apply list_eq_nth.
  - now rewrite !length_map, length_seq.
  - intros j Hj. rewrite HL in Hj. rewrite H by exact Hj.
    rewrite nth_map_Fin by (now rewrite length_map, length_seq).
    now rewrite nth_map_seq.
Qed.

(** X15.  The default trajectory is a state of six buffers of [timeSteps]
    real numbers that is consistent step by step: the yaw rate has
    magnitude at most [0.3]; the orientation is the previous one plus
    [wz[i] * dt]; the velocity is the speed [10 + 3 sin (2 PI i / N)]
    along the orientation, so its magnitude is between 7 and 13; and the
    position is the previous one plus the velocity times [dt] (all from
    [0] before the first step). *)
Theorem default_trajectory_is_kinematic :
  let N := CONFIG.timeSteps in
  exists pxs pys ozs vxs vys wzs : list R,
    initializeDefaultData
    = mkInputData (map Fin pxs) (map Fin pys) (map Fin ozs)
                  (map Fin vxs) (map Fin vys) (map Fin wzs) /\
    (length pxs = N /\ length pys = N /\ length ozs = N /\
     length vxs = N /\ length vys = N /\ length wzs = N) /\
    forall i, (i < N)%nat ->
      let prev (l : list R) := match i with O => 0 | S j => nth j l 0 end in
      let speed := 10 + 3 * sin (INR i / INR N * PI * 2) in
      Rabs (nth i wzs 0) <= 3 / 10 /\
      nth i ozs 0 = prev ozs + nth i wzs 0 * CONFIG.dt /\
      nth i vxs 0 = speed * cos (nth i ozs 0) /\
      nth i vys 0 = speed * sin (nth i ozs 0) /\
      49 <= nth i vxs 0 * nth i vxs 0 + nth i vys 0 * nth i vys 0 <= 169 /\
      nth i pxs 0 = prev pxs + nth i vxs 0 * CONFIG.dt /\
      nth i pys 0 = prev pys + nth i vys 0 * CONFIG.dt.
Proof.
  intros N. destruct initializeDefaultData_rows as (HL & Hrows).
  fold N in HL, Hrows.
  destruct HL as (L1 & L2 & L3 & L4 & L5 & L6).
  exists (map (fun j => default_x N (S j)) (seq 0 N)),
         (map (fun j => default_y N (S j)) (seq 0 N)),
         (map (fun j => default_theta N (S j)) (seq 0 N)),
         (map (default_vx N) (seq 0 N)),
         (map (default_vy N) (seq 0 N)),
         (map (default_wz N) (seq 0 N)).
  split; [|split].
  - rewrite <- (InputData_eta initializeDefaultData).
    f_equal; apply list_of_rows; try assumption;
      intros j Hj; now destruct (Hrows j Hj) as (R1 & R2 & R3 & R4 & R5 & R6).
  - rewrite !length_map, length_seq. repeat split.
  - intros i Hi prev speed.
    assert (Hp : forall f : nat -> R,
              prev (map (fun j => f (S j)) (seq 0 N)) = match i with O => 0 | S j => f i end).
    { intros f. unfold prev. destruct i as [|j]; [reflexivity|].
      now rewrite nth_map_seq by lia. }
    rewrite (Hp (default_theta N)), (Hp (default_x N)), (Hp (default_y N)).
    rewrite !nth_map_seq by exact Hi.
    split; [apply default_wz_bound|].
    split; [destruct i; simpl; lra|].
    split; [reflexivity|]. split; [reflexivity|].
    split.
    { fold (default_vx N i) (default_vy N i).
      change (default_speed N i * cos (default_theta N (S i)))
        with (default_vx N i).
      change (default_speed N i * sin (default_theta N (S i)))
        with (default_vy N i).
      rewrite default_speed_sq. pose proof (default_speed_bound N i). nra. }
    split; destruct i; simpl; lra.
Qed.

Lemma default_trajectory_is_kinematic_witness :
  exists wzs : list R,
    wz initializeDefaultData = map Fin wzs /\
    Rabs (nth 0 wzs 0) <= 3 / 10.
Proof.
  destruct default_trajectory_is_kinematic
    as (pxs & pys & ozs & vxs & vys & wzs & E & _ & H).
  exists wzs. split.
  - rewrite E. reflexivity.
  - apply (H 0%nat). unfold CONFIG.timeSteps. lia.
Defined.

(** ** Reset *)

Lemma reset_run (st : Store) :
  exists st1 : Store,
    run resetTrajectoryAtom st = run syncOutputDataAtom st1 /\
    (forall k, inputDataAtomFamily st1 k = field initializeDefaultData k) /\
    (forall k, gtAtomFamily st1 k = gtAtomFamily st k) /\
    methodAtom st1 = methodAtom st /\
    sync_runs (trace resetTrajectoryAtom st) = 1%nat.
Proof.
  unfold resetTrajectoryAtom. cbv zeta.
  generalize initializeDefaultData as d. intros d.
  generalize (new_Array_fill0 CONFIG.timeSteps) as zeros. intros zeros.
  rewrite !run_bind, !trace_bind, !sync_runs_app.
  match goal with |- context [run syncOutputDataAtom ?s] => exists s end.
  split; [reflexivity|]. split; [intros k; destruct k; reflexivity|].
  split; [reflexivity|]. split; [reflexivity|].
  rewrite syncOutputDataAtom_trace. reflexivity.
Qed.

Lemma reset_inputDataAtom (st : Store) :
  inputDataAtom (run resetTrajectoryAtom st)
  = getCompleteTrajectoryData initializeDefaultData (methodAtom st).
Proof.
  destruct (reset_run st) as (st1 & -> & Hc & _ & Hm & _).
  rewrite sync_inputDataAtom. unfold completeTrajectoryDataAtom.
  rewrite Hm. f_equal. unfold inputDataAtom. rewrite !Hc.
  apply InputData_eta.
Qed.

Lemma default_lengths (k : InputKey) :
  length (field initializeDefaultData k) = CONFIG.timeSteps.
Proof.
  destruct initializeDefaultData_rows as ((L1 & L2 & L3 & L4 & L5 & L6) & _).
  destruct k; assumption.
Qed.

(** X16.  After a reset the six input cells are the state derived from the
    default trajectory in the active mode (so the two driving cells are
    the default signals themselves), all ten cells have length
    [timeSteps], the output cells are the metrics of that state, the
    ground truth and the mode are untouched, and the synchronization step
    was entered once. *)
Theorem reset_installs_the_default_trajectory :
  forall st : Store,
    let st' := run resetTrajectoryAtom st in
    inputDataAtom st'
    = getCompleteTrajectoryData initializeDefaultData (methodAtom st) /\
    (forall k, In k (METHODS_inputs (methodAtom st)) ->
       inputDataAtomFamily st' k = field initializeDefaultData k) /\
    (forall k, length (inputDataAtomFamily st' k) = CONFIG.timeSteps) /\
    (forall k, length (outputDataAtomFamily st' k) = CONFIG.timeSteps) /\
    (forall k, outputDataAtomFamily st' k
               = out_field (calculateOutputData (inputDataAtom st')
                              (if hasGroundTruthAtom st
                               then Some (gtDataAtom st) else None)) k) /\
    gtDataAtom st' = gtDataAtom st /\
    methodAtom st' = methodAtom st /\
    sync_runs (trace resetTrajectoryAtom st) = 1%nat.
Proof.
  intros st st'.
  pose proof (reset_inputDataAtom st) as E. fold st' in E.
  destruct (reset_run st) as (st1 & Est & Hc & Hg & Hm & Ht). fold st' in Est.
  destruct (syncOutputDataAtom_store st1) as (Hi1 & Ho1 & Hg1 & Hm1).
  rewrite <- Est in Hi1, Ho1, Hg1, Hm1.
  destruct (sync_lengths st1 CONFIG.timeSteps) as (LI & LO).
  { intros k _. rewrite Hc. apply default_lengths. }
  rewrite <- Est in LI, LO.
  assert (Egt : gtDataAtom st1 = gtDataAtom st) by now apply gtDataAtom_cells.
  split; [exact E|]. split; [|split; [exact LI|split; [exact LO|]]].
  - intros k Hk. rewrite Hi1, Hm. apply has_In in Hk. rewrite Hk. apply Hc.
  - split; [|split; [|split; [|exact Ht]]].
    + intros k. rewrite Ho1. unfold outputDataInternalAtom, hasGroundTruthAtom.
      rewrite Egt. rewrite <- (sync_inputDataAtom st1), <- Est. reflexivity.
    + rewrite <- Egt. now apply gtDataAtom_cells.
    + now rewrite Hm1.
Qed.

Lemma reset_installs_the_default_trajectory_witness :
  let st := mkStore (fun _ => []) (fun _ => []) (fun _ => []) position in
  inputDataAtomFamily (run resetTrajectoryAtom st) Kpx
  = field initializeDefaultData Kpx.
Proof.
  intros st.
  apply (proj1 (proj2 (reset_installs_the_default_trajectory st)) Kpx).
  left. reflexivity.
Defined.






(** ** Export and import *)

Lemma padOrTruncate_same_length (arr : list num) (n : nat) :
  length arr = n -> padOrTruncate arr n = arr.
Proof.
  intros H. unfold padOrTruncate. now rewrite H, Nat.eqb_refl.
Qed.

(** X18.  Importing the document of an export (six arrays of [timeSteps]
    real numbers) is accepted and leaves the input cells as one
    synchronization step would; on a store that is already synchronized
    it changes no input cell. *)
Theorem export_then_import :
  forall st : Store,
    (forall k, length (inputDataAtomFamily st k) = CONFIG.timeSteps) ->
    (forall k, exists rs : list R, inputDataAtomFamily st k = map Fin rs) ->
    let doc := exported_document (exportTrajectoryAtom st) in
    let st' := run (importData doc) st in
    result (importData doc) st = Imported /\
    (forall k, inputDataAtomFamily st' k
               = inputDataAtomFamily (run syncOutputDataAtom st) k) /\
    (inputDataAtom st = completeTrajectoryDataAtom st ->
     forall k, inputDataAtomFamily st' k = inputDataAtomFamily st k).
Proof.
  intros st HN _ doc st'.
  assert (Hv : validateImportData doc = true) by reflexivity.
  pose proof (importData_run _ st Hv) as E.
  assert (Ecells : forall k, inputDataAtomFamily st' k
                   = inputDataAtomFamily (run syncOutputDataAtom st) k).
  { intros k. unfold st', run at 1. unfold doc, exported_document.
    unfold doc, exported_document in E. rewrite E. cbn [fst snd].
    rewrite importTrajectoryAtom_store.
    destruct (syncOutputDataAtom_store st) as (-> & _).
    assert (Hm : forall j,
              merged st
                (fun key => option_map
                   (fun arr => padOrTruncate arr CONFIG.timeSteps)
                   (Some (field (e_data (exportTrajectoryAtom st)) key))) j
              = inputDataAtomFamily st j).
    { intros j. unfold merged. cbn [option_map exportTrajectoryAtom e_data].
      rewrite field_inputDataAtom. apply padOrTruncate_same_length, HN. }
    rewrite Hm. unfold completeTrajectoryDataAtom.
    rewrite <- (state_of_cells st _ (fun j => eq_sym (Hm j))).
    reflexivity. }
  split; [|split; [exact Ecells|]].
  - unfold result, doc, exported_document.
    unfold doc, exported_document in E. now rewrite E.
  - intros Hs k. rewrite Ecells, sync_cells, <- Hs. apply field_inputDataAtom.
Qed.

Lemma export_then_import_witness :
  let st := mkStore (fun _ => repeat (Fin 0) CONFIG.timeSteps)
                    (fun _ => []) (fun _ => []) position in
  result (importData (exported_document (exportTrajectoryAtom st))) st
  = Imported.
Proof.
  intros st.
  apply (export_then_import st).
  - intros k. apply repeat_length.
  - intros k. exists (repeat 0 CONFIG.timeSteps). reflexivity.
Defined.

(** ** Trajectory points and their bounds *)

Lemma calculateTrajectory_points (data : InputData) :
  calculateTrajectory data
  = map (fun i => mkTrajectoryPoint (nth i (px data) NaN) (nth i (py data) NaN)
                                    (nth i (oz data) NaN))
        (seq 0 (length (px data))).
Proof.
  unfold calculateTrajectory.
  induction (length (px data)) as [|n IH]; [reflexivity|].
  rewrite for_loop_S, IH, seq_S, map_app. cbv zeta.
  now rewrite !aget_nat.
Qed.

Lemma getTrajectoryBounds_snoc (traj : list TrajectoryPoint)
    (p : TrajectoryPoint) :
  getTrajectoryBounds (traj ++ [p])
  = let b := getTrajectoryBounds traj in
    mkBounds (bound_min (minX b) (pt_x p)) (bound_max (maxX b) (pt_x p))
             (bound_min (minY b) (pt_y p)) (bound_max (maxY b) (pt_y p)).
Proof. unfold getTrajectoryBounds. now rewrite fold_left_app. Qed.

(** One more coordinate keeps a pair of running bounds enclosing. *)
Lemma encloses_snoc (lo hi : bound) (cs : list num) (x : R) :
  (cs = [] /\ lo = PosInfinity /\ hi = NegInfinity) \/ encloses lo hi cs ->
  encloses (bound_min lo (Fin x)) (bound_max hi (Fin x)) (cs ++ [Fin x]).
Proof.
  intros [(-> & -> & ->) | (a & b & -> & -> & Hall & Ha & Hb)].
  - exists x, x. simpl. repeat split; auto.
    intros c [<-|[]]. exists x. split; [reflexivity | lra].
  - exists (Rmin a x), (Rmax b x). simpl.
    split; [reflexivity|]. split; [reflexivity|]. split; [|split].
    + intros c Hc. apply in_app_or in Hc. destruct Hc as [Hc|[<-|[]]].
      * destruct (Hall c Hc) as (y & -> & Hy). exists y.
        split; [reflexivity|].
        pose proof (Rmin_l a x). pose proof (Rmax_l b x). lra.
      * exists x. split; [reflexivity|].
        pose proof (Rmin_r a x). pose proof (Rmax_r b x). lra.
    + apply in_or_app. unfold Rmin. destruct (Rle_dec a x); simpl; auto.
    + apply in_or_app. unfold Rmax. destruct (Rle_dec b x); simpl; auto.
Qed.

Lemma bounds_of_real_points (traj : list TrajectoryPoint) :
  (forall p, In p traj -> is_fin (pt_x p) /\ is_fin (pt_y p)) ->
  let b := getTrajectoryBounds traj in
  (traj = [] /\ minX b = PosInfinity /\ maxX b = NegInfinity /\
   minY b = PosInfinity /\ maxY b = NegInfinity) \/
  (encloses (minX b) (maxX b) (map pt_x traj) /\
   encloses (minY b) (maxY b) (map pt_y traj)).
Proof.
  induction traj as [|p traj IH] using rev_ind; intros Hfin.
  - left. repeat split.
  - right. rewrite getTrajectoryBounds_snoc. cbv zeta. cbn [minX maxX minY maxY].
    destruct (Hfin p) as ([x Ex] & [y Ey]); [apply in_or_app; simpl; auto|].
    rewrite !map_app. cbn [map]. rewrite Ex, Ey.
    destruct IH as [(-> & H1 & H2 & H3 & H4) | [Hx Hy]].
    + intros q Hq. apply Hfin, in_or_app. auto.
    + split; apply encloses_snoc; left; auto.
    + split; apply encloses_snoc; right; assumption.
Qed.

(** A coordinate that is not a number makes both of its bounds [NaN]. *)
Lemma bound_min_nan (x : num) : bound_min (Bnum NaN) x = Bnum NaN.
Proof. now destruct x. Qed.

Lemma bound_max_nan (x : num) : bound_max (Bnum NaN) x = Bnum NaN.
Proof. now destruct x. Qed.

Lemma bounds_nan_sticky (traj : list TrajectoryPoint) (p : TrajectoryPoint) :
  In p traj ->
  (pt_x p = NaN ->
   minX (getTrajectoryBounds traj) = Bnum NaN /\
   maxX (getTrajectoryBounds traj) = Bnum NaN) /\
  (pt_y p = NaN ->
   minY (getTrajectoryBounds traj) = Bnum NaN /\
   maxY (getTrajectoryBounds traj) = Bnum NaN).
Proof.
  induction traj as [|q traj IH] using rev_ind; intros Hin; [destruct Hin|].
  rewrite getTrajectoryBounds_snoc. cbv zeta. cbn [minX maxX minY maxY].
  apply in_app_or in Hin. destruct Hin as [Hin|[->|[]]].
  - destruct (IH Hin) as (Hx & Hy). split.
    + intros E. destruct (Hx E) as (-> & ->).
      now rewrite bound_min_nan, bound_max_nan.
    + intros E. destruct (Hy E) as (-> & ->).
      now rewrite bound_min_nan, bound_max_nan.
  - split; intros ->; split; reflexivity.
Qed.

(** X19.  The bounds of the plotted points.  For a state whose [px] and
    [py] are real numbers of equal, positive length, [minX] and [maxX] are
    entries of [px] below and above every entry of [px], and [minY],
    [maxY] likewise for [py].  Without points the bounds stay at
    [Infinity] and [-Infinity].  A point with a coordinate that is not a
    number makes both bounds of that coordinate [NaN]. *)
Theorem trajectory_bounds_enclose :
  (forall (data : InputData) (xs ys : list R),
     px data = map Fin xs -> py data = map Fin ys ->
     length xs = length ys -> xs <> [] ->
     let b := getTrajectoryBounds (calculateTrajectory data) in
     encloses (minX b) (maxX b) (px data) /\
     encloses (minY b) (maxY b) (py data)) /\
  getTrajectoryBounds []
  = mkBounds PosInfinity NegInfinity PosInfinity NegInfinity /\
  (forall (traj : list TrajectoryPoint) (p : TrajectoryPoint),
     In p traj ->
     (pt_x p = NaN ->
      minX (getTrajectoryBounds traj) = Bnum NaN /\
      maxX (getTrajectoryBounds traj) = Bnum NaN) /\
     (pt_y p = NaN ->
      minY (getTrajectoryBounds traj) = Bnum NaN /\
      maxY (getTrajectoryBounds traj) = Bnum NaN)).
Proof.
  split; [|split; [reflexivity | exact bounds_nan_sticky]].
  intros data xs ys Hx Hy Hlen Hne b.
  assert (Ex : map pt_x (calculateTrajectory data) = px data).
  { rewrite calculateTrajectory_points, map_map. cbn [pt_x].
    apply list_eq_nth.
    - now rewrite length_map, length_seq.
    - intros j Hj. rewrite length_map, length_seq in Hj.
      rewrite (nth_indep _ NaN (nth 0 (px data) NaN))
        by (now rewrite length_map, length_seq).
      rewrite (map_nth (fun i => nth i (px data) NaN) _ 0%nat).
      now rewrite seq_nth. }
  assert (Ey : map pt_y (calculateTrajectory data) = py data).
  { rewrite calculateTrajectory_points, map_map. cbn [pt_y].
    assert (HL : length (py data) = length (px data))
      by (rewrite Hx, Hy, !length_map; lia).
    apply list_eq_nth.
    - now rewrite length_map, length_seq.
    - intros j Hj. rewrite length_map, length_seq in Hj.
      rewrite (nth_indep _ NaN (nth 0 (py data) NaN))
        by (now rewrite length_map, length_seq).
      rewrite (map_nth (fun i => nth i (py data) NaN) _ 0%nat).
      now rewrite seq_nth. }
  destruct (bounds_of_real_points (calculateTrajectory data))
    as [(E0 & _) | [Bx By]].
  - intros p Hp. rewrite calculateTrajectory_points in Hp.
    apply in_map_iff in Hp. destruct Hp as (i & <- & Hi).
    apply in_seq in Hi. cbn [pt_x pt_y]. rewrite Hx, Hy.
    rewrite Hx, length_map in Hi.
    rewrite !nth_map_Fin by lia. split; now eexists.
  - exfalso. apply Hne.
    assert (L : length (calculateTrajectory data) = length xs).
    { rewrite calculateTrajectory_points, length_map, length_seq, Hx.
      apply length_map. }
    rewrite E0 in L. destruct xs; [reflexivity | discriminate L].
  - fold b in Bx, By. rewrite Ex in Bx. rewrite Ey in By. now split.
Qed.

Lemma trajectory_bounds_enclose_witness :
  let data := mkInputData [Fin 1; Fin 3] [Fin 2; Fin 0] [Fin 0; Fin 0]
                          [] [] [] in
  let b := getTrajectoryBounds (calculateTrajectory data) in
  encloses (minX b) (maxX b) (px data).
Proof.
  intros data b.
  apply (proj1 trajectory_bounds_enclose data [1; 3] [2; 0]);
    try reflexivity.
  discriminate.
Defined.

(** ** Interpolation of a drag *)

Lemma fold_left_snoc_map {A B : Type} (f : A -> B) (l : list A)
    (acc : list B) :
  fold_left (fun updates i => updates ++ [f i]) l acc = acc ++ map f l.
Proof.
  revert acc; induction l as [|a l IH]; intros acc; simpl.
  - now rewrite app_nil_r.
  - now rewrite IH, <- app_assoc.
Qed.

(** The value interpolated at index [i] between [startIndex] and
    [endIndex]. *)
Lemma interpolateValues_map (config : GraphConfig) (s e : nat)
    (sv ev : num) :
  interpolateValues config s e sv ev
  = map (fun i =>
           mkUpdate i
             (clampValue config
                (sv + (ev - sv)
                      * ((Fin (INR i) - Fin (INR s))
                         / (Fin (INR e) - Fin (INR s))))%J))
        (seq (Nat.min s e + 1) (Nat.max s e - Nat.min s e - 1)).
Proof.
  unfold interpolateValues. cbv zeta.
  destruct (Z.leb_spec (Z.abs (Z.of_nat e - Z.of_nat s)) 1) as [Hd|Hd].
  - replace (Nat.max s e - Nat.min s e - 1)%nat with O by lia. reflexivity.
  - unfold for_range. rewrite fold_left_snoc_map. simpl app.
    now replace (Nat.max s e - (Nat.min s e + 1))%nat
      with (Nat.max s e - Nat.min s e - 1)%nat by lia.
Qed.

Lemma clampValue_real (config : GraphConfig) (lo hi v : R) :
  minVal config = Fin lo -> maxVal config = Fin hi ->
  clampValue config (Fin v) = Fin (Rmax lo (Rmin hi v)).
Proof. intros Hl Hh. unfold clampValue. now rewrite Hl, Hh. Qed.

Lemma clamp_range (lo hi v : R) :
  lo <= hi -> lo <= Rmax lo (Rmin hi v) <= hi.
Proof.
  intros H. unfold Rmax, Rmin.
  destruct (Rle_dec hi v); destruct (Rle_dec lo _); lra.
Qed.

Lemma clamp_inside (lo hi v : R) :
  lo <= v <= hi -> Rmax lo (Rmin hi v) = v.
Proof.
  intros H. unfold Rmax, Rmin.
  destruct (Rle_dec hi v); destruct (Rle_dec lo _); lra.
Qed.

(** Strictly between the two indices the interpolation parameter lies
    strictly between 0 and 1. *)
Lemma interpolation_parameter (s e i : nat) :
  (Nat.min s e < i < Nat.max s e)%nat ->
  0 < (INR i - INR s) / (INR e - INR s) < 1.
Proof.
  intros Hi.
  destruct (Nat.le_gt_cases s e) as [Hse|Hse].
  - rewrite Nat.min_l, Nat.max_r in Hi by lia.
    assert (INR s < INR i) by (apply lt_INR; lia).
    assert (INR i < INR e) by (apply lt_INR; lia).
    split.
    + apply Rdiv_lt_0_compat; lra.
    + apply Rmult_lt_reg_r with (r := INR e - INR s); [lra|].
      unfold Rdiv. rewrite Rmult_assoc, Rinv_l by lra. lra.
  - rewrite Nat.min_r, Nat.max_l in Hi by lia.
    assert (INR e < INR i) by (apply lt_INR; lia).
    assert (INR i < INR s) by (apply lt_INR; lia).
    replace ((INR i - INR s) / (INR e - INR s))
      with ((INR s - INR i) / (INR s - INR e)) by (field; lra).
    split.
    + apply Rdiv_lt_0_compat; lra.
    + apply Rmult_lt_reg_r with (r := INR s - INR e); [lra|].
      unfold Rdiv. rewrite Rmult_assoc, Rinv_l by lra. lra.
Qed.

Lemma between_values (sv ev t : R) :
  0 < t < 1 -> Rmin sv ev <= sv + (ev - sv) * t <= Rmax sv ev.
Proof.
  intros Ht. unfold Rmin, Rmax. destruct (Rle_dec sv ev); nra.
Qed.

(** X20.  Interpolation of a drag between two indices, for real values and
    a range [lo <= hi]: the updates address exactly the indices strictly
    between the two, in increasing order (none when the indices are equal
    or adjacent); every value lies in [[lo, hi]]; and when both end values
    are in range, the value at index [i] is the linear interpolation
    [startValue + (endValue - startValue) * (i - start) / (end - start)],
    which lies between the two end values. *)
Theorem interpolation_fills_the_gap :
  forall (config : GraphConfig) (lo hi : R) (s e : nat) (sv ev : R),
    minVal config = Fin lo -> maxVal config = Fin hi -> lo <= hi ->
    let updates := interpolateValues config s e (Fin sv) (Fin ev) in
    map index updates
    = seq (Nat.min s e + 1) (Nat.max s e - Nat.min s e - 1) /\
    (forall u, In u updates ->
       exists v, value u = Fin v /\ lo <= v <= hi) /\
    (lo <= sv <= hi -> lo <= ev <= hi ->
     forall u, In u updates ->
       let v := sv + (ev - sv)
                     * ((INR (index u) - INR s) / (INR e - INR s)) in
       value u = Fin v /\ Rmin sv ev <= v <= Rmax sv ev).
Proof.
  intros config lo hi s e sv ev Hl Hh Hle updates.
  unfold updates. rewrite interpolateValues_map.
  split; [|split].
  - rewrite map_map. cbn [index]. apply map_id.
  - intros u Hu. apply in_map_iff in Hu. destruct Hu as (i & <- & _).
    cbn [value]. cbn [Js.add Js.sub Js.mul Js.div].
    rewrite (clampValue_real config lo hi) by assumption.
    eexists; split; [reflexivity|]. now apply clamp_range.
  - intros Hsv Hev u Hu. cbv zeta. apply in_map_iff in Hu.
    destruct Hu as (i & Eu & Hi). apply in_seq in Hi.
    rewrite <- Eu. cbn [value index].
    cbn [Js.add Js.sub Js.mul Js.div].
    rewrite (clampValue_real config lo hi) by assumption.
    pose proof (between_values sv ev _ (interpolation_parameter s e i
                  ltac:(lia))) as Hb.
    split; [|exact Hb].
    f_equal. apply clamp_inside.
    pose proof (Rmin_l sv ev). pose proof (Rmin_r sv ev).
    pose proof (Rmax_l sv ev). pose proof (Rmax_r sv ev).
    unfold Rmin, Rmax in *. destruct (Rle_dec sv ev); lra.
Qed.

Lemma interpolation_fills_the_gap_witness :
  map index (interpolateValues (mkGraphConfig (Fin 0) (Fin 10)) 0 3
                               (Fin 1) (Fin 4))
  = [1; 2]%nat.
Proof.
  refine (proj1 (interpolation_fills_the_gap
                   (mkGraphConfig (Fin 0) (Fin 10)) 0 10 0 3 1 4
                   eq_refl eq_refl _)).
  lra.
Defined.

Lemma find_app {A : Type} (f : A -> bool) (l1 l2 : list A) :
  find f (l1 ++ l2)
  = match find f l1 with Some x => Some x | None => find f l2 end.
Proof.
  induction l1 as [|a l1 IH]; simpl; [reflexivity|].
  destruct (f a); [reflexivity | exact IH].
Qed.

Lemma last_write_cons (u : Update) (us : list Update) (i : nat) (old : num) :
  last_write (u :: us) i old
  = last_write us i (if (index u =? i)%nat then value u else old).
Proof.
  unfold last_write. simpl rev. rewrite find_app.
  destruct (find _ (rev us)); [reflexivity|].
  simpl. destruct (index u =? i)%nat; reflexivity.
Qed.

Lemma last_write_map (g : nat -> num) (a n i : nat) (old : num) :
  last_write (map (fun j => mkUpdate j (g j)) (seq a n)) i old
  = if ((a <=? i) && (i <? a + n))%nat then g i else old.
Proof.
  induction n as [|n IH].
  - unfold last_write. simpl.
    destruct (Nat.leb_spec a i); simpl; [|reflexivity].
    destruct (Nat.ltb_spec i (a + 0)); [lia | reflexivity].
  - rewrite seq_S, map_app. unfold last_write in *.
    rewrite rev_app_distr. simpl rev. simpl app. cbn [find index value].
    destruct (Nat.eqb_spec (a + n) i) as [<-|Hne].
    + destruct (Nat.leb_spec a (a + n)); [|lia].
      destruct (Nat.ltb_spec (a + n) (a + S n)); [|lia]. reflexivity.
    + rewrite IH.
      destruct (Nat.leb_spec a i); simpl; [|reflexivity].
      destruct (Nat.ltb_spec i (a + n)), (Nat.ltb_spec i (a + S n));
        try reflexivity; lia.
Qed.

(** X21.  The updates of a drag step from the last updated index to the
    index under the cursor, applied to the buffer (both indices within
    it): the length is unchanged; the index under the cursor holds the
    new value; the last updated index and every index outside the two keep
    their values; and every index strictly between holds the clamped
    interpolation between the old value at the last index and the new
    value. *)
Theorem drag_updates_fill_the_gap :
  forall (config : GraphConfig) (data : list num) (last current : nat)
         (clampedValue : num),
    (last < length data)%nat -> (current < length data)%nat ->
    let updates :=
      handleMouseMove_updates config data (Some last) current clampedValue in
    let data' := apply_updates data updates in
    length data' = length data /\
    nth current data' NaN = clampedValue /\
    (last <> current -> nth last data' NaN = nth last data NaN) /\
    (forall i, (i < Nat.min last current \/ Nat.max last current < i)%nat ->
       nth i data' NaN = nth i data NaN) /\
    (forall i, (Nat.min last current < i < Nat.max last current)%nat ->
       nth i data' NaN
       = clampValue config
           (nth last data NaN
            + (clampedValue - nth last data NaN)
              * ((Fin (INR i) - Fin (INR last))
                 / (Fin (INR current) - Fin (INR last))))%J).
Proof.
  intros config data last current v Hl Hc updates data'.
  assert (Hnth : forall i,
            nth i data' NaN
            = if (last =? current)%nat
              then if (current =? i)%nat then v else nth i data NaN
              else if ((Nat.min last current + 1 <=? i)
                       && (i <? Nat.max last current))%nat
                   then clampValue config
                          (nth last data NaN
                           + (v - nth last data NaN)
                             * ((Fin (INR i) - Fin (INR last))
                                / (Fin (INR current) - Fin (INR last))))%J
                   else if (current =? i)%nat then v else nth i data NaN).
  { intros i. unfold data', updates, handleMouseMove_updates.
    rewrite apply_updates_nth. cbv zeta.
    destruct (Nat.eqb_spec last current) as [E|NE]; cbn [negb].
    - rewrite last_write_cons. reflexivity.
    - cbn [app]. rewrite last_write_cons, interpolateValues_map, aget_nat.
      rewrite last_write_map. cbn [index value].
      replace (Nat.min last current + 1
               + (Nat.max last current - Nat.min last current - 1))%nat
        with (Nat.max last current) by lia.
      reflexivity. }
  split; [|split; [|split; [|split]]].
  - unfold data'. apply apply_updates_length.
    intros u Hu. unfold updates, handleMouseMove_updates in Hu. cbv zeta in Hu.
    assert (Hin : In u (mkUpdate current v
                        :: interpolateValues config last current
                             data.[Z.of_nat last] v)).
    { destruct (negb (last =? current)%nat); [exact Hu|].
      destruct Hu as [<-|[]]. now left. }
    destruct Hin as [<-|Hin]; [exact Hc|].
    rewrite interpolateValues_map in Hin. apply in_map_iff in Hin.
    destruct Hin as (j & <- & Hj). apply in_seq in Hj. cbn [index]. lia.
  - rewrite Hnth, Nat.eqb_refl.
    destruct (last =? current)%nat; [reflexivity|].
    destruct (Nat.leb_spec (Nat.min last current + 1) current);
      destruct (Nat.ltb_spec current (Nat.max last current));
      simpl; try reflexivity; lia.
  - intros NE. rewrite Hnth.
    destruct (Nat.eqb_spec last current); [contradiction|].
    destruct (Nat.leb_spec (Nat.min last current + 1) last);
      destruct (Nat.ltb_spec last (Nat.max last current));
      destruct (Nat.eqb_spec current last);
      simpl; try reflexivity; lia.
  - intros i Hi. rewrite Hnth.
    destruct (Nat.eqb_spec last current) as [E|NE].
    + destruct (Nat.eqb_spec current i); [lia | reflexivity].
    + destruct (Nat.leb_spec (Nat.min last current + 1) i);
        destruct (Nat.ltb_spec i (Nat.max last current));
        destruct (Nat.eqb_spec current i);
        simpl; try reflexivity; lia.
  - intros i Hi. rewrite Hnth.
    destruct (Nat.eqb_spec last current) as [E|NE]; [lia|].
    destruct (Nat.leb_spec (Nat.min last current + 1) i); [|lia].
    destruct (Nat.ltb_spec i (Nat.max last current)); [|lia].
    reflexivity.
Qed.

Lemma drag_updates_fill_the_gap_witness :
  nth 3 (apply_updates [Fin 0; Fin 0; Fin 0; Fin 0]
           (handleMouseMove_updates (mkGraphConfig (Fin 0) (Fin 10))
              [Fin 0; Fin 0; Fin 0; Fin 0] (Some 0%nat) 3 (Fin 6))) NaN
  = Fin 6.
Proof.
  refine (proj1 (proj2 (drag_updates_fill_the_gap
                          (mkGraphConfig (Fin 0) (Fin 10))
                          [Fin 0; Fin 0; Fin 0; Fin 0] 0 3 (Fin 6) _ _)));
    simpl; lia.
Defined.

(** ** Lengths and seeds of a derivation *)

(** X22.  What a derivation returns, whatever the non-driving buffers
    hold, empty or short ones included: the two driving signals are returned
    as they are, each of the four derived arrays has the length of the
    mode's first driving signal (so all six output arrays have that length
    when the two driving signals agree in length), and the first sample of
    every integrated output ([px], [py] in velocity mode, [px], [py], [oz]
    in integral mode, [py] in differential mode) is its seed -- the prior
    first entry, or [0] when that entry is missing or falsy. *)
Theorem derive_lengths_and_seeds :
  forall (data : InputData) (mode : Methods),
    let out := getCompleteTrajectoryData data mode in
    let N := length (field data (primary mode)) in
    (forall key, In key (METHODS_inputs mode) ->
       field out key = field data key) /\
    (forall key, ~ In key (METHODS_inputs mode) ->
       length (field out key) = N) /\
    (forall k1 k2, METHODS_inputs mode = [k1; k2] ->
       length (field data k1) = length (field data k2) ->
       forall key, length (field out key) = N) /\
    (forall key, In key (integrated mode) -> (1 <= N)%nat ->
       nth 0 (field out key) NaN = Fin (seed (field data key))).
Proof.
  intros data mode out N.
  assert (Hdrv : forall key, In key (METHODS_inputs mode) ->
            field out key = field data key).
  { intros key Hin. destruct mode; simpl in Hin;
      destruct Hin as [<-|[<-|[]]]; reflexivity. }
  assert (Hlen : forall key, ~ In key (METHODS_inputs mode) ->
            length (field out key) = N).
  { intros key Hnin. unfold out, N.
    destruct mode; cbn [getCompleteTrajectoryData primary field].
    - destruct (calculateFromPxPy_rows data) as (_ & (L1 & L2 & L3 & L4) & _).
      destruct key; simpl in Hnin; try tauto; assumption.
    - destruct (calculateFromVxVy_rows data) as (_ & (L1 & L2 & L3 & L4) & _).
      destruct key; simpl in Hnin; try tauto; assumption.
    - destruct (calculateFromVxWz_rows data) as (_ & (L1 & L2 & L3 & L4) & _).
      destruct key; simpl in Hnin; try tauto; assumption.
    - destruct (calculateFromPxOz_rows data) as (_ & (L1 & L2 & L3 & L4) & _).
      destruct key; simpl in Hnin; try tauto; assumption. }
  split; [exact Hdrv|]. split; [exact Hlen|]. split.
  - intros k1 k2 HM Heq key.
    destruct (has (METHODS_inputs mode) key) eqn:Hh.
    + apply has_In in Hh. rewrite (Hdrv key Hh). unfold N.
      rewrite HM in Hh.
      destruct mode; inversion HM; subst k1 k2;
        destruct Hh as [<-|[<-|[]]]; simpl in *; congruence.
    + apply Hlen. intros Hin. apply has_In in Hin. congruence.
  - intros key Hin HN. now apply seeded_outputs.
Qed.

Lemma derive_lengths_and_seeds_witness :
  let data := mkInputData [] [NaN] [] [Fin 1; Fin 2] [] [Fin 3; Fin 4] in
  let out := getCompleteTrajectoryData data integral in
  length (px out) = 2%nat /\
  nth 0 (py out) NaN = Fin 0.
Proof.
  intros data out.
  destruct (derive_lengths_and_seeds data integral) as (_ & HL & _ & Hs).
  split.
  - apply (HL Kpx). simpl. intros [H|[H|[]]]; discriminate H.
  - apply (Hs Kpy); simpl; auto.
Defined.
